(** * A weight-balanced tree with parent pointers: heap model and verification

    The development follows the two layers of the C++ sources:
    [Node] embeds [include/tree/node.hpp] (pointer topology, rotations,
    splicing, exchange and the bound-finding descents) and [Tree] embeds
    [include/wb/tree.hpp] (the container facade built around a sentinel).

    Nodes live in a heap, a finite map from addresses to node records; a
    pointer is an optional address, [None] standing for [nullptr].  Every
    source function is a computation in a state-and-failure monad over the
    heap: dereferencing a null or dangling pointer fails.  Loops carry a
    fuel argument; running out of fuel fails as well, and the theorems
    below state how much fuel is enough. *)

From Stdlib Require Import ZArith Lia.
From stdpp Require Import gmap list.

#[local] Set Warnings "-clear-no-such-hyp".
Local Open Scope Z_scope.

(** ** Addresses, pointers, machine sizes *)

Abbreviation loc := positive.
Abbreviation ptr := (option positive).

(** [std::size_t] arithmetic is modulo [2^64]. *)
Definition size_t_mod : Z := 2 ^ 64.
Definition wrap (z : Z) : Z := z mod size_t_mod.

(** ** The node record of [node.hpp] *)

Section NodeRecord.
Context {T : Type}.

(** The sentinel is default-constructed and never holds a value, hence
    the optional [value_]. *)
Record node := mk_node {
  value_ : option T;
  size_ : Z;
  left_ : ptr;
  right_ : ptr;
  parent_ : ptr
}.

Definition with_size (n : node) (z : Z) : node :=
  mk_node (value_ n) z (left_ n) (right_ n) (parent_ n).
Definition with_left (n : node) (q : ptr) : node :=
  mk_node (value_ n) (size_ n) q (right_ n) (parent_ n).
Definition with_right (n : node) (q : ptr) : node :=
  mk_node (value_ n) (size_ n) (left_ n) q (parent_ n).
Definition with_parent (n : node) (q : ptr) : node :=
  mk_node (value_ n) (size_ n) (left_ n) (right_ n) q.
End NodeRecord.

Arguments node : clear implicits.

(** ** The heap monad *)

Section Monad.
Context {T : Type}.

Definition M (A : Type) : Type :=
  gmap positive (node T) -> option (A * gmap positive (node T)).

Definition ret {A} (a : A) : M A := fun h => Some (a, h).
Definition bind {A B} (m : M A) (k : A -> M B) : M B :=
  fun h => match m h with
           | Some (a, h') => k a h'
           | None => None
           end.
Definition fail {A} : M A := fun _ => None.

(** [p->field] : fails on [nullptr] and on a freed address. *)
Definition load (p : ptr) : M (node T) :=
  fun h => match p with
           | Some a => match h !! a with
                       | Some n => Some (n, h)
                       | None => None
                       end
           | None => None
           end.

(** [*p = n] for an allocated [p]. *)
Definition store (p : ptr) (n : node T) : M unit :=
  fun h => match p with
           | Some a => match h !! a with
                       | Some _ => Some (tt, <[a := n]> h)
                       | None => None
                       end
           | None => None
           end.

(** [new node<T>(...)] : a fresh address. *)
Definition alloc (n : node T) : M ptr :=
  fun h => let a := fresh (dom h) in Some (Some a, <[a := n]> h).

(** [delete p]. *)
Definition free (p : ptr) : M unit :=
  fun h => match p with
           | Some a => match h !! a with
                       | Some _ => Some (tt, delete a h)
                       | None => None
                       end
           | None => None
           end.
End Monad.

Notation "'let!' x ':=' m 'in' k" := (bind m (fun x => k))
  (at level 10, x name, m at level 100, k at level 200,
   format "'[v' 'let!'  x  ':='  m  'in' '/' k ']'").
Notation "m '>>' k" := (bind m (fun _ => k))
  (at level 100, k at level 200, right associativity).

Section Loops.
Context {T : Type}.

(** [while (cond) { body }] over a loop-carried state. *)
Fixpoint while {S : Type} (fuel : nat) (cond : S -> M (T:=T) bool)
    (body : S -> M (T:=T) S) (s : S) : M (T:=T) S :=
  match fuel with
  | O => fail
  | Datatypes.S f =>
      let! c := cond s in
      if c then let! s' := body s in while f cond body s' else ret s
  end.

(** [while (true) { ... break; ... }] : the body either continues with a
    new state ([inl]) or breaks with the result ([inr]). *)
Fixpoint loop {S R : Type} (fuel : nat) (body : S -> M (T:=T) (S + R))
    (s : S) : M (T:=T) R :=
  match fuel with
  | O => fail
  | Datatypes.S f =>
      let! x := body s in
      match x with
      | inl s' => loop f body s'
      | inr r => ret r
      end
  end.
End Loops.

(** ** Node layer: [include/tree/node.hpp] *)

Module Node.
Section Node.
Context {T : Type}.
Local Abbreviation M := (M (T:=T)).

Definition get_value (p : ptr) : M T :=
  let! n := load p in
  match value_ n with Some v => ret v | None => fail end.
Definition get_size (p : ptr) : M Z := let! n := load p in ret (size_ n).
Definition get_left (p : ptr) : M ptr := let! n := load p in ret (left_ n).
Definition get_right (p : ptr) : M ptr := let! n := load p in ret (right_ n).
Definition get_parent (p : ptr) : M ptr := let! n := load p in ret (parent_ n).

Definition set_size (p : ptr) (z : Z) : M unit :=
  let! n := load p in store p (with_size n z).
Definition set_left (p q : ptr) : M unit :=
  let! n := load p in store p (with_left n q).
Definition set_right (p q : ptr) : M unit :=
  let! n := load p in store p (with_right n q).
Definition set_parent (p q : ptr) : M unit :=
  let! n := load p in store p (with_parent n q).

(** [if (c) { c->parent_ = a; }] *)
Definition set_parent_if (c a : ptr) : M unit :=
  match c with Some _ => set_parent c a | None => ret tt end.

Definition ptr_eqb (p q : ptr) : bool := bool_decide (p = q).
Definition is_null (p : ptr) : bool :=
  match p with Some _ => false | None => true end.

(** [node(U &&value)] : a singleton. *)
Definition singleton (v : T) : node T := mk_node (Some v) 1 None None None.

(** [size(s)] : [s ? s->size_ : 0]. *)
Definition size (s : ptr) : M Z :=
  match s with Some _ => get_size s | None => ret 0 end.

(** [is_sentinel(p)] : [p->parent_ == p]. *)
Definition is_sentinel (p : ptr) : M bool :=
  let! q := get_parent p in ret (ptr_eqb q p).

Definition has_left (p : ptr) : M bool :=
  let! l := get_left p in ret (negb (is_null l)).
Definition has_right (p : ptr) : M bool :=
  let! r := get_right p in ret (negb (is_null r)).

Definition inorder_successor (fuel : nat) (p : ptr) : M ptr :=
  let! r := get_right p in
  if negb (is_null r) then
    while fuel has_left get_left r
  else
    let! p :=
      while fuel
        (fun p => let! pp := get_parent p in
                  let! s := is_sentinel pp in
                  if negb s then
                    let! ppr := get_right pp in ret (ptr_eqb p ppr)
                  else ret false)
        get_parent p in
    get_parent p.

Definition inorder_predecessor (fuel : nat) (p : ptr) : M ptr :=
  let! l := get_left p in
  if negb (is_null l) then
    while fuel has_right get_right l
  else
    let! p :=
      while fuel
        (fun p => let! pp := get_parent p in
                  let! s := is_sentinel pp in
                  if negb s then
                    let! ppl := get_left pp in ret (ptr_eqb p ppl)
                  else ret false)
        get_parent p in
    get_parent p.

(** [owner(p)] returns a reference to the pointer that owns [p]: a field
    of the parent.  A reference is modelled as the pair of the record
    address and the field selected. *)
Inductive field := FLeft | FRight.
Definition slot : Type := ptr * field.

Definition owner (p : ptr) : M slot :=
  let! pp := get_parent p in
  let! ppl := get_left pp in
  ret (if ptr_eqb ppl p then (pp, FLeft) else (pp, FRight)).

Definition slot_get (o : slot) : M ptr :=
  match snd o with FLeft => get_left (fst o) | FRight => get_right (fst o) end.
Definition slot_set (o : slot) (q : ptr) : M unit :=
  match snd o with
  | FLeft => set_left (fst o) q
  | FRight => set_right (fst o) q
  end.

(** [size_ = size(left_) + size(right_) + 1] *)
Definition recalculate_size (this : ptr) : M unit :=
  let! l := get_left this in
  let! r := get_right this in
  let! sl := size l in
  let! sr := size r in
  set_size this (wrap (wrap (sl + sr) + 1)).

(** [3 * (size(left) + 1) >= size(right) + 1] *)
Definition is_balanced (left right : ptr) : M bool :=
  let! sl := size left in
  let! sr := size right in
  ret (wrap (sr + 1) <=? wrap (3 * wrap (sl + 1))).

(** [size(left) + 1 <= 2 * (size(right) + 1)] *)
Definition is_single (left right : ptr) : M bool :=
  let! sl := size left in
  let! sr := size right in
  ret (wrap (sl + 1) <=? wrap (2 * wrap (sr + 1))).

Definition balance_left (this : ptr) : M ptr :=
  let! l := get_left this in
  let! r := get_right this in
  let! ok := is_balanced l r in
  if negb ok then
    let! rl := get_left r in
    let! rr := get_right r in
    let! single := is_single rl rr in
    if single then
      let a := this in
      let! b := get_right a in
      let! c := get_left b in
      let! o := owner a in
      slot_set o b >>
      let! ap := get_parent a in
      set_parent b ap >>
      set_right a c >>
      set_parent_if c a >>
      set_left b a >>
      set_parent a b >>
      recalculate_size this >>
      recalculate_size b >>
      ret b
    else
      let a := this in
      let! b := get_right a in
      let! c := get_left b in
      let! d := get_left c in
      let! e := get_right c in
      let! o := owner a in
      slot_set o c >>
      let! ap := get_parent a in
      set_parent c ap >>
      set_right a d >>
      set_parent_if d a >>
      set_left b e >>
      set_parent_if e b >>
      set_left c a >>
      set_parent a c >>
      set_right c b >>
      set_parent b c >>
      recalculate_size a >>
      recalculate_size b >>
      recalculate_size c >>
      ret c
  else ret this.

Definition balance_right (this : ptr) : M ptr :=
  let! r := get_right this in
  let! l := get_left this in
  let! ok := is_balanced r l in
  if negb ok then
    let! lr := get_right l in
    let! ll := get_left l in
    let! single := is_single lr ll in
    if single then
      let a := this in
      let! b := get_left a in
      let! c := get_right b in
      let! o := owner a in
      slot_set o b >>
      let! ap := get_parent a in
      set_parent b ap >>
      set_left a c >>
      set_parent_if c a >>
      set_right b a >>
      set_parent a b >>
      recalculate_size this >>
      recalculate_size b >>
      ret b
    else
      let a := this in
      let! b := get_left a in
      let! c := get_right b in
      let! d := get_right c in
      let! e := get_left c in
      let! o := owner a in
      slot_set o c >>
      let! ap := get_parent a in
      set_parent c ap >>
      set_left a d >>
      set_parent_if d a >>
      set_right b e >>
      set_parent_if e b >>
      set_right c a >>
      set_parent a c >>
      set_left c b >>
      set_parent b c >>
      recalculate_size a >>
      recalculate_size b >>
      recalculate_size c >>
      ret c
  else ret this.

(** [increment] is an [int]; [p->size_ += increment] is computed in
    [std::size_t]. *)
Definition balance_above (fuel : nat) (this : ptr) (increment : Z) : M unit :=
  while fuel
    (fun p => let! pp := get_parent p in
              let! s := is_sentinel pp in ret (negb s))
    (fun p => let! pp := get_parent p in
              let! ppr := get_right pp in
              let is_right := ptr_eqb p ppr in
              let p := pp in
              let! sz := get_size p in
              set_size p (wrap (sz + increment)) >>
              if Bool.eqb is_right (0 <? increment)
              then balance_left p
              else balance_right p)
    this >>
  ret tt.

Definition insert_before_self (fuel : nat) (this : ptr) (value : T) : M ptr :=
  let! result := alloc (singleton value) in
  let! l := get_left this in
  (if negb (is_null l) then
     let! p := while fuel has_right get_right l in
     set_right p result >>
     set_parent result p
   else
     set_left this result >>
     set_parent result this) >>
  balance_above fuel result 1 >>
  ret result.

Definition replace_self (this p : ptr) : M unit :=
  let! o := owner this in
  slot_set o p >>
  let! par := get_parent this in
  set_parent_if p par.

Definition erase_self (fuel : nat) (this : ptr) : M unit :=
  let! l := get_left this in
  let! r := get_right this in
  if is_null l || is_null r then
    let! par := get_parent this in
    let! psz := get_size par in
    set_size par (wrap (psz - 1)) >>
    let! l := get_left this in
    let! p := (if is_null l then get_right this else get_left this) in
    let! par := get_parent this in
    set_parent_if p par >>
    let! par := get_parent this in
    let! pl := get_left par in
    if ptr_eqb this pl then
      set_left par p >>
      let! par := get_parent this in
      let! s := is_sentinel par in
      (if negb s then
         let! p := balance_left par in
         balance_above fuel p (-1)
       else ret tt) >>
      free this
    else
      set_right par p >>
      let! par := get_parent this in
      let! p := balance_right par in
      balance_above fuel p (-1) >>
      free this
  else
    let! p := inorder_successor fuel this in
    let! r := get_right this in
    if negb (ptr_eqb p r) then
      let! q := get_parent p in
      let! pr := get_right p in
      set_left q pr >>
      let! pr := get_right p in
      set_parent_if pr q >>
      let! r := get_right this in
      set_right p r >>
      let! r := get_right this in
      set_parent r p >>
      let! l := get_left this in
      set_left p l >>
      let! l := get_left this in
      set_parent l p >>
      replace_self this p >>
      let! sz := get_size this in
      set_size p sz >>
      let! qsz := get_size q in
      set_size q (wrap (qsz - 1)) >>
      let! q := balance_left q in
      balance_above fuel q (-1) >>
      free this
    else
      replace_self this p >>
      let! l := get_left this in
      set_left p l >>
      let! l := get_left this in
      set_parent l p >>
      let! sz := get_size this in
      set_size p (wrap (sz - 1)) >>
      let! p := balance_right p in
      balance_above fuel p (-1) >>
      free this.

(** [std::swap] on two references. *)
Definition swap_slots (a b : slot) : M unit :=
  let! va := slot_get a in
  let! vb := slot_get b in
  slot_set a vb >>
  slot_set b va.

Definition exchange_nodes (p q : ptr) : M unit :=
  let! sp := get_size p in
  let! sq := get_size q in
  set_size p sq >>
  set_size q sp >>
  let! pp := get_parent p in
  let pq := if ptr_eqb pp q then (q, p) else (p, q) in
  let p := fst pq in
  let q := snd pq in
  let! qp := get_parent q in
  if ptr_eqb qp p then
    let! o := owner p in
    slot_set o q >>
    let! pp := get_parent p in
    set_parent q pp >>
    set_parent p q >>
    let! pl := get_left p in
    if ptr_eqb q pl then
      let! ql := get_left q in
      set_left p ql >>
      set_left q p >>
      let! pr := get_right p in
      let! qr := get_right q in
      set_right p qr >>
      set_right q pr >>
      let! pl := get_left p in
      set_parent_if pl p >>
      let! pr := get_right p in
      set_parent_if pr p >>
      let! qr := get_right q in
      set_parent_if qr q
    else
      let! qr := get_right q in
      set_right p qr >>
      set_right q p >>
      let! pl := get_left p in
      let! ql := get_left q in
      set_left p ql >>
      set_left q pl >>
      let! pl := get_left p in
      set_parent_if pl p >>
      let! pr := get_right p in
      set_parent_if pr p >>
      let! ql := get_left q in
      set_parent_if ql q
  else
    let! op := owner p in
    let! oq := owner q in
    swap_slots op oq >>
    let! pp := get_parent p in
    let! qp := get_parent q in
    set_parent p qp >>
    set_parent q pp >>
    let! pl := get_left p in
    let! ql := get_left q in
    set_left p ql >>
    set_left q pl >>
    let! pr := get_right p in
    let! qr := get_right q in
    set_right p qr >>
    set_right q pr >>
    let! pl := get_left p in
    set_parent_if pl p >>
    let! pr := get_right p in
    set_parent_if pr p >>
    let! ql := get_left q in
    set_parent_if ql q >>
    let! qr := get_right q in
    set_parent_if qr q.

(** The comparator is an arbitrary callable: a computation returning a
    three-way sign. *)
Definition lower_bound_node (fuel : nat) (p : ptr) (cmp : T -> M Z) : M ptr :=
  loop fuel
    (fun p => let! v := get_value p in
              let! c := cmp v in
              if c <? 0 then
                let! r := get_right p in
                if negb (is_null r) then ret (inl r)
                else let! p := inorder_successor fuel p in ret (inr p)
              else
                let! l := get_left p in
                if negb (is_null l) then ret (inl l)
                else ret (inr p))
    p.

Definition upper_bound_node (fuel : nat) (p : ptr) (cmp : T -> M Z) : M ptr :=
  loop fuel
    (fun p => let! v := get_value p in
              let! c := cmp v in
              if c <=? 0 then
                let! r := get_right p in
                if negb (is_null r) then ret (inl r)
                else let! p := inorder_successor fuel p in ret (inr p)
              else
                let! l := get_left p in
                if negb (is_null l) then ret (inl l)
                else ret (inr p))
    p.

(** Modelled from the spec: [equal_range(root, cmp)] is the pair
    [(lower_bound_node(root, cmp), upper_bound_node(root, cmp))].  The
    function is called by [tree.hpp] and is absent from [node.hpp]. *)
Definition equal_range_nodes (fuel : nat) (p : ptr) (cmp : T -> M Z) : M (ptr * ptr) :=
  let! l := lower_bound_node fuel p cmp in
  let! r := upper_bound_node fuel p cmp in
  ret (l, r).

(** Modelled from the spec: [range_between(root, lcmp, rcmp)] returns
    [(lower_bound_node(root, lcmp), upper_bound_node(root, rcmp))].  The
    function is called by [tree.hpp] and is absent from [node.hpp]. *)
Definition range_between_nodes (fuel : nat) (p : ptr) (lcmp rcmp : T -> M Z) :
    M (ptr * ptr) :=
  let! l := lower_bound_node fuel p lcmp in
  let! r := upper_bound_node fuel p rcmp in
  ret (l, r).
End Node.
End Node.

(** ** Tree layer: [include/wb/tree.hpp]

    A tree object is its only member, the sentinel node; [this] is the
    address of the sentinel.  An iterator is a node pointer. *)

Module Tree.
Section Tree.
Context {T : Type}.
Local Abbreviation M := (M (T:=T)).

(** [tree()] : the sentinel is default-constructed, so its [size_] holds
    an indeterminate value [junk]; [left_] and [right_] are cleared and
    [parent_] points to the sentinel itself. *)
Definition tree (junk : Z) : M ptr :=
  let! s := alloc (mk_node None junk None None None) in
  Node.set_left s None >>
  Node.set_right s None >>
  Node.set_parent s s >>
  ret s.

Definition begin (fuel : nat) (this : ptr) : M ptr :=
  while fuel Node.has_left Node.get_left this.

Definition end_ (this : ptr) : M ptr := ret this.

Definition empty (this : ptr) : M bool :=
  let! l := Node.get_left this in ret (Node.is_null l).

Definition size (this : ptr) : M Z :=
  let! e := empty this in
  if e then ret 0
  else let! l := Node.get_left this in Node.get_size l.

Definition insert (fuel : nat) (this : ptr) (position : ptr) (value : T) : M ptr :=
  Node.insert_before_self fuel position value.

Definition erase (fuel : nat) (this : ptr) (position : ptr) : M ptr :=
  let! result := Node.inorder_successor fuel position in
  Node.erase_self fuel position >>
  ret result.

Definition exchange_elements (this : ptr) (i j : ptr) : M unit :=
  Node.exchange_nodes i j.

(** [operator++], [operator--], [operator*] of the iterators. *)
Definition incr (fuel : nat) (it : ptr) : M ptr := Node.inorder_successor fuel it.
Definition decr (fuel : nat) (it : ptr) : M ptr := Node.inorder_predecessor fuel it.
Definition deref (it : ptr) : M T := Node.get_value it.

Definition lower_bound (fuel : nat) (this : ptr) (cmp : T -> M Z) : M ptr :=
  let! p := Node.get_left this in
  if negb (Node.is_null p) then Node.lower_bound_node fuel p cmp
  else ret this.

Definition upper_bound (fuel : nat) (this : ptr) (cmp : T -> M Z) : M ptr :=
  let! p := Node.get_left this in
  if negb (Node.is_null p) then Node.upper_bound_node fuel p cmp
  else ret this.

Definition equal_range (fuel : nat) (this : ptr) (cmp : T -> M Z) : M (ptr * ptr) :=
  let! p := Node.get_left this in
  if negb (Node.is_null p) then
    let! lr := Node.equal_range_nodes fuel p cmp in
    ret (fst lr, snd lr)
  else ret (this, this).

Definition range_between (fuel : nat) (this : ptr) (lcmp rcmp : T -> M Z) :
    M (ptr * ptr) :=
  let! p := Node.get_left this in
  if negb (Node.is_null p) then
    let! lr := Node.range_between_nodes fuel p lcmp rcmp in
    ret (fst lr, snd lr)
  else ret (this, this).
End Tree.
End Tree.

(** * Specification vocabulary *)

(** ** Abstract shapes

    A shape records which address sits where; the heap records the rest.
    The representation predicate [rep] ties the two together. *)

Inductive shape :=
| Lf
| Nd (l : shape) (a : loc) (r : shape).

(** The inorder sequence of node addresses. *)
Fixpoint addrs (t : shape) : list loc :=
  match t with
  | Lf => []
  | Nd l a r => addrs l ++ a :: addrs r
  end.

Fixpoint card (t : shape) : Z :=
  match t with
  | Lf => 0
  | Nd l _ r => card l + card r + 1
  end.

Fixpoint height (t : shape) : nat :=
  match t with
  | Lf => O
  | Nd l _ r => S (Nat.max (height l) (height r))
  end.

Definition root (t : shape) : ptr :=
  match t with
  | Lf => None
  | Nd _ a _ => Some a
  end.

(** Weight balance of a shape, both ways at every node. *)
Fixpoint balanced (t : shape) : Prop :=
  match t with
  | Lf => True
  | Nd l _ r =>
      3 * (card l + 1) >= card r + 1 /\ 3 * (card r + 1) >= card l + 1 /\
      balanced l /\ balanced r
  end.

(** One-hole contexts, innermost frame first. *)
Inductive frame :=
| InL (a : loc) (r : shape)     (* the hole is the left child of [a] *)
| InR (l : shape) (a : loc).    (* the hole is the right child of [a] *)

Fixpoint plug (c : list frame) (t : shape) : shape :=
  match c with
  | [] => t
  | InL a r :: c' => plug c' (Nd t a r)
  | InR l a :: c' => plug c' (Nd l a t)
  end.

(** Addresses before and after the hole, and the node owning the hole. *)
Fixpoint ctx_before (c : list frame) : list loc :=
  match c with
  | [] => []
  | InL _ _ :: c' => ctx_before c'
  | InR l a :: c' => ctx_before c' ++ addrs l ++ [a]
  end.

Fixpoint ctx_after (c : list frame) : list loc :=
  match c with
  | [] => []
  | InL a r :: c' => a :: addrs r ++ ctx_after c'
  | InR _ _ :: c' => ctx_after c'
  end.

Definition ctx_par (s : loc) (c : list frame) : loc :=
  match c with
  | [] => s
  | InL a _ :: _ => a
  | InR _ a :: _ => a
  end.

Section Representation.
Context {T : Type}.
Implicit Types h : gmap positive (node T).
Local Abbreviation M := (M (T:=T)).

(** [rep h par t] : the heap [h] holds the subtree [t] hanging below
    the node [par], with exact size fields and parent pointers. *)
Fixpoint rep h (par : loc) (t : shape) : Prop :=
  match t with
  | Lf => True
  | Nd l a r =>
      (exists v, h !! a =
         Some (mk_node (Some v) (card l + card r + 1) (root l) (root r) (Some par))) /\
      rep h a l /\ rep h a r
  end.

(** [rep_ctx h s c hole k] : the heap holds the context [c] under the
    sentinel [s]; the hole is filled with pointer [hole] and the size
    fields along the context count [k] nodes in the hole. *)
Fixpoint rep_ctx h (s : loc) (c : list frame) (hole : ptr) (k : Z) : Prop :=
  match c with
  | [] => exists z, h !! s = Some (mk_node None z hole None (Some s))
  | InL a r :: c' =>
      (exists v, h !! a =
         Some (mk_node (Some v) (k + card r + 1) hole (root r) (Some (ctx_par s c')))) /\
      rep h a r /\ rep_ctx h s c' (Some a) (k + card r + 1)
  | InR l a :: c' =>
      (exists v, h !! a =
         Some (mk_node (Some v) (card l + k + 1) (root l) hole (Some (ctx_par s c')))) /\
      rep h a l /\ rep_ctx h s c' (Some a) (card l + k + 1)
  end.

(** A well-formed tree: the sentinel [s] anchors the shape [t]. *)
Record wf h (s : loc) (t : shape) : Prop := mk_wf {
  wf_nodup : NoDup (s :: addrs t);
  wf_bound : card t < 2 ^ 62;
  wf_ctx : rep_ctx h s [] (root t) (card t);
  wf_rep : rep h s t
}.

(** The value stored at an address. *)
Definition val h (a : loc) : option T :=
  match h !! a with
  | Some n => value_ n
  | None => None
  end.

Definition ctx_addrs (s : loc) (c : list frame) : list loc :=
  s :: ctx_before c ++ ctx_after c.

End Representation.

(** ** Address lists without a common element *)

(** Disjointness of address lists, to take [NoDup] facts apart. *)
Definition Disj (l k : list loc) : Prop := forall x, x ∈ l -> x ∉ k.

(** ** Pure comparators and partitioned sequences *)

Section SearchSpec.
Context {T : Type}.
Implicit Types h : gmap positive (node T).
Local Abbreviation M := (M (T:=T)).

(** A pure three-way comparator as a callable. *)
Definition pure_cmp (f : T -> Z) : T -> M Z := fun v => ret (f v).

(** The sign a pure comparator gives to the value at an address. *)
Definition sign_at h (f : T -> Z) (a : loc) : Z :=
  match val h a with
  | Some v => f v
  | None => 0
  end.

(** The common descent of [lower_bound_node] and [upper_bound_node]:
    [go_right] tells whether the answer lies strictly after a node. *)
Definition bound_body (fuel : nat) (f : T -> Z) (go_right : Z -> bool) (p : ptr) :
    M (ptr + ptr) :=
  let! v := Node.get_value p in
  let! c := pure_cmp f v in
  if go_right c then
    let! r := Node.get_right p in
    if negb (Node.is_null r) then ret (inl r)
    else let! p := Node.inorder_successor fuel p in ret (inr p)
  else
    let! l := Node.get_left p in
    if negb (Node.is_null l) then ret (inl l)
    else ret (inr p).

(** The sequence is partitioned by a test on addresses: the addresses
    passing the test come first. *)
Definition partitioned (tb : loc -> bool) (l : list loc) : Prop :=
  exists l1 l2, l = l1 ++ l2 /\ Forall (fun a => tb a = true) l1 /\
                Forall (fun a => tb a = false) l2.

(** The first address failing the test, if any. *)
Definition first_fail (tb : loc -> bool) (l : list loc) : option loc :=
  head (filter (fun a => tb a = false) l).

End SearchSpec.

(** ** Rotations on shapes, pointer updates on cells *)

(** What [balance_left] does to the shape of the subtree it is called on. *)
Definition bal_left (t : shape) : shape :=
  match t with
  | Nd l a (Nd rl b rr) =>
      if card (Nd rl b rr) + 1 <=? 3 * (card l + 1) then t
      else if card rl + 1 <=? 2 * (card rr + 1) then Nd (Nd l a rl) b rr
      else match rl with
           | Nd d c e => Nd (Nd l a d) c (Nd e b rr)
           | Lf => t
           end
  | _ => t
  end.

Definition bal_right (t : shape) : shape :=
  match t with
  | Nd (Nd ll b lr) a r =>
      if card (Nd ll b lr) + 1 <=? 3 * (card r + 1) then t
      else if card lr + 1 <=? 2 * (card ll + 1) then Nd ll b (Nd lr a r)
      else match lr with
           | Nd e c d => Nd (Nd ll b e) c (Nd d a r)
           | Lf => t
           end
  | _ => t
  end.

(** What [balance_above] does: going up the context, each ancestor is
    rebuilt around the subtree below it and rebalanced on the side chosen
    by the sign of the increment. *)
Fixpoint rebalance (increment : Z) (c : list frame) (t : shape) : shape :=
  match c with
  | [] => t
  | InL a r :: c' =>
      rebalance increment c'
        (if Bool.eqb false (0 <? increment) then bal_left (Nd t a r)
         else bal_right (Nd t a r))
  | InR l a :: c' =>
      rebalance increment c'
        (if Bool.eqb true (0 <? increment) then bal_left (Nd l a t)
         else bal_right (Nd l a t))
  end.

Section Rewiring.
Context {T : Type}.
Implicit Types h : gmap positive (node T).
Local Abbreviation M := (M (T:=T)).

(** The effect of [if (c) c->parent_ = q] on the root of a subtree. *)
Definition reparent h (t : shape) (q : ptr) : gmap positive (node T) :=
  match t with
  | Lf => h
  | Nd _ c _ => match h !! c with
                | Some n => <[c := with_parent n q]> h
                | None => h
                end
  end.

(** Writing through [owner(a)]: the parent's field that points to [a]. *)
Definition hole_field (nx : node T) (a : loc) : Node.field :=
  if Node.ptr_eqb (left_ nx) (Some a) then Node.FLeft else Node.FRight.

Definition set_field (nx : node T) (f : Node.field) (q : ptr) : node T :=
  match f with
  | Node.FLeft => with_left nx q
  | Node.FRight => with_right nx q
  end.

Definition set_hole (nx : node T) (a : loc) (q : ptr) : node T :=
  set_field nx (hole_field nx a) q.

End Rewiring.

(** ** Contexts along a spine *)

(** The context of the hole just right of the rightmost node of a shape. *)
Fixpoint right_ctx (t : shape) : list frame :=
  match t with
  | Lf => []
  | Nd l a r => right_ctx r ++ [InR l a]
  end.

(** A hole that is the left field of its owner (or the root hole). *)
Definition left_hole (c : list frame) : Prop :=
  match c with
  | InR _ _ :: _ => False
  | _ => True
  end.

(** ** Context segments *)

(** The pointer to the top node of a segment, and the size it counts. *)
Definition seg_root (c : list frame) (hole : ptr) : ptr :=
  match last c with
  | Some (InL a _) => Some a
  | Some (InR _ a) => Some a
  | None => hole
  end.

Fixpoint seg_card (c : list frame) (k : Z) : Z :=
  match c with
  | [] => k
  | InL _ r :: c' => seg_card c' (k + card r + 1)
  | InR l _ :: c' => seg_card c' (card l + k + 1)
  end.

(** The context of the hole just left of the leftmost node of a shape. *)
Fixpoint left_ctx (t : shape) : list frame :=
  match t with
  | Lf => []
  | Nd l a r => left_ctx l ++ [InL a r]
  end.

Section Segment.
Context {T : Type}.
Implicit Types h : gmap positive (node T).
Local Abbreviation M := (M (T:=T)).

(** A context segment hanging below the node [top]. *)
Fixpoint rep_seg h (top : loc) (c : list frame) (hole : ptr) (k : Z) : Prop :=
  match c with
  | [] => True
  | InL a r :: c' =>
      (exists v, h !! a =
         Some (mk_node (Some v) (k + card r + 1) hole (root r) (Some (ctx_par top c')))) /\
      rep h a r /\ rep_seg h top c' (Some a) (k + card r + 1)
  | InR l a :: c' =>
      (exists v, h !! a =
         Some (mk_node (Some v) (card l + k + 1) (root l) hole (Some (ctx_par top c')))) /\
      rep h a l /\ rep_seg h top c' (Some a) (card l + k + 1)
  end.

End Segment.

(** ** The values along a sequence *)

Section ContentsOf.
Context {T : Type}.
Implicit Types h : gmap positive (node T).
Local Abbreviation M := (M (T:=T)).

(** The values along a sequence of addresses. *)
Fixpoint contents h (l : list loc) : list T :=
  match l with
  | [] => []
  | a :: l' =>
      match val h a with
      | Some v => v :: contents h l'
      | None => contents h l'
      end
  end.

End ContentsOf.

(** ** Updates through an optional pointer *)

Section OptionalUpdate.
Context {T : Type}.
Implicit Types h : gmap positive (node T).
Local Abbreviation M := (M (T:=T)).

(** An update through a possibly null pointer. *)
Definition alter_opt (g : node T -> node T) (o : ptr) h : gmap positive (node T) :=
  match o with
  | Some b => alter g b h
  | None => h
  end.

End OptionalUpdate.

(** ** Renaming, and the tree as a pointer graph *)

(** The transposition of two addresses. *)
Definition swap (p q a : loc) : loc :=
  if decide (a = p) then q else if decide (a = q) then p else a.

(** A shape with every address renamed. *)
Fixpoint rename (f : loc -> loc) (t : shape) : shape :=
  match t with
  | Lf => Lf
  | Nd l a r => Nd (rename f l) (f a) (rename f r)
  end.

Section PointerGraph.
Context {T : Type}.
Implicit Types h : gmap positive (node T).
Local Abbreviation M := (M (T:=T)).

(** The local pointer structure of a well-formed tree, node by node. *)
Record graph h (s : loc) (D : list loc) : Prop := mk_graph {
  g_sent : exists z l, h !! s = Some (mk_node None z l None (Some s));
  g_nsent : s ∉ D;
  g_node : forall a, a ∈ D ->
    exists v z l r x nx,
      h !! a = Some (mk_node (Some v) z l r (Some x)) /\
      x ∈ s :: D /\ x <> a /\ h !! x = Some nx /\
      (left_ nx = Some a \/ right_ nx = Some a) /\ parent_ nx <> Some a;
  g_child : forall y ny b, y ∈ s :: D -> h !! y = Some ny ->
    left_ ny = Some b \/ right_ ny = Some b ->
    b ∈ D /\ exists nb, h !! b = Some nb /\ parent_ nb = Some y;
  g_lr : forall y ny b, y ∈ s :: D -> h !! y = Some ny ->
    left_ ny = Some b -> right_ ny <> Some b
}.

(** A heap that holds, at the renamed address, every cell with its
    pointers renamed holds the renamed tree. *)
Definition moved h h' (f : loc -> loc) (D : list loc) : Prop :=
  forall a n, a ∈ D -> h !! a = Some n ->
    h' !! f a = Some (mk_node (val h (f a)) (size_ n) (f <$> left_ n)
                        (f <$> right_ n) (f <$> parent_ n)).

End PointerGraph.

(** ** Client code: the loops of the test driver [part_001]

    The tests reach a position with [std::next(dictionary.begin(), k)] and
    walk a tree with [for (iter = begin(); iter != end(); ++iter)].  The
    walk in the other direction is not in the sources: it is the loop a
    caller writes with [operator--], decrementing from [end()] until
    [begin()] is reached. *)

Module Client.
Section Client.
Context {T : Type}.
Local Abbreviation M := (M (T:=T)).

(** [std::next(it, k)] on a bidirectional iterator: [k] increments. *)
Fixpoint next (fuel : nat) (k : nat) (it : ptr) : M ptr :=
  match k with
  | O => ret it
  | S k' => let! it' := Tree.incr fuel it in next fuel k' it'
  end.

(** [for (iter = begin(); iter != end(); ++iter)] : the iterators
    visited, in order. *)
Definition forward (fuel : nat) (this : ptr) : M (list ptr) :=
  let! b := Tree.begin fuel this in
  let! e := Tree.end_ this in
  let! st := while fuel
               (fun st : ptr * list ptr => ret (negb (Node.ptr_eqb (fst st) e)))
               (fun st => let! it := Tree.incr fuel (fst st) in
                          ret (it, snd st ++ [fst st]))
               (b, []) in
  ret (snd st).

(** The caller's reverse walk,
    [for (iter = end(); iter != begin(); ) { --iter; ... }] : the
    iterators visited, in the order of the visits. *)
Definition backward (fuel : nat) (this : ptr) : M (list ptr) :=
  let! b := Tree.begin fuel this in
  let! e := Tree.end_ this in
  let! st := while fuel
               (fun st : ptr * list ptr => ret (negb (Node.ptr_eqb (fst st) b)))
               (fun st => let! it := Tree.decr fuel (fst st) in
                          ret (it, snd st ++ [it]))
               (e, []) in
  ret (snd st).

(** One mutation of the container; a position is named by its rank in
    the current sequence, rank [size()] being [end()]. *)
Inductive op :=
| Insert (k : nat) (v : T)
| Erase (k : nat)
| Exchange (i j : nat).

Definition run_op (fuel : nat) (this : ptr) (o : op) : M unit :=
  match o with
  | Insert k v =>
      let! b := Tree.begin fuel this in
      let! pos := next fuel k b in
      Tree.insert fuel this pos v >> ret tt
  | Erase k =>
      let! b := Tree.begin fuel this in
      let! pos := next fuel k b in
      Tree.erase fuel this pos >> ret tt
  | Exchange i j =>
      let! b := Tree.begin fuel this in
      let! it := next fuel i b in
      let! b' := Tree.begin fuel this in
      let! jt := next fuel j b' in
      Tree.exchange_elements this it jt
  end.

Fixpoint run_ops (fuel : nat) (this : ptr) (ops : list op) : M unit :=
  match ops with
  | [] => ret tt
  | o :: ops' => run_op fuel this o >> run_ops fuel this ops'
  end.

(** The ranks of a sequence of mutations name positions that exist,
    starting from a sequence of [n] elements. *)
Fixpoint ops_ok (n : nat) (ops : list op) : bool :=
  match ops with
  | [] => true
  | Insert k _ :: ops' => (k <=? n)%nat && ops_ok (S n) ops'
  | Erase k :: ops' => (k <? n)%nat && ops_ok (pred n) ops'
  | Exchange i j :: ops' => (i <? n)%nat && (j <? n)%nat && ops_ok n ops'
  end.

Fixpoint insertions (ops : list op) : Z :=
  match ops with
  | [] => 0
  | Insert _ _ :: ops' => 1 + insertions ops'
  | _ :: ops' => insertions ops'
  end.

Fixpoint deletions (ops : list op) : Z :=
  match ops with
  | [] => 0
  | Erase _ :: ops' => 1 + deletions ops'
  | _ :: ops' => deletions ops'
  end.
End Client.
End Client.

Section Ranks.
Context {T : Type}.
Implicit Types h : gmap positive (node T).
Local Abbreviation M := (M (T:=T)).

(** The iterator of rank [k]. *)
Definition at_rank (s : loc) (l : list loc) (k : nat) : loc := default s (l !! k).

End Ranks.

(** ** A worked example

    The tree built by [insert(end(), 20)], [insert(begin(), 10)],
    [insert(end(), 30)] on a fresh container: the sentinel is cell 1, the
    root is cell 2. *)

Definition ex_heap : gmap positive (node Z) :=
  <[1%positive := mk_node None 0 (Some 2%positive) None (Some 1%positive)]>
  (<[2%positive := mk_node (Some 20) 3 (Some 3%positive) (Some 4%positive) (Some 1%positive)]>
  (<[3%positive := mk_node (Some 10) 1 None None (Some 2%positive)]>
  (<[4%positive := mk_node (Some 30) 1 None None (Some 2%positive)]> ∅))).

Definition ex_shape : shape :=
  Nd (Nd Lf 3%positive Lf) 2%positive (Nd Lf 4%positive Lf).

(** The empty container, as the constructor leaves it on a fresh heap. *)
Definition ex_empty : gmap positive (node Z) :=
  <[1%positive := mk_node None 0 None None (Some 1%positive)]> ∅.

(** ** The erase that unbalances a tree *)

(** Seven insertions: five at the front, two at rank 2. *)
Definition bug_inserts : list (Client.op (T:=Z)) :=
  [Client.Insert 0 10; Client.Insert 0 11; Client.Insert 0 12; Client.Insert 0 13;
   Client.Insert 0 14; Client.Insert 2 15; Client.Insert 2 16].

Definition bug_before : gmap positive (node Z) :=
  list_to_map
    [(1%positive, mk_node None 0 (Some 3%positive) None (Some 1%positive));
     (2%positive, mk_node (Some 10) 1 None None (Some 3%positive));
     (3%positive, mk_node (Some 11) 7 (Some 5%positive) (Some 2%positive) (Some 1%positive));
     (4%positive, mk_node (Some 12) 3 (Some 7%positive) None (Some 5%positive));
     (5%positive, mk_node (Some 13) 5 (Some 6%positive) (Some 4%positive) (Some 3%positive));
     (6%positive, mk_node (Some 14) 1 None None (Some 5%positive));
     (7%positive, mk_node (Some 15) 2 (Some 8%positive) None (Some 4%positive));
     (8%positive, mk_node (Some 16) 1 None None (Some 7%positive))].

Definition bug_shape_before : shape :=
  Nd (Nd (Nd Lf 6%positive Lf) 5%positive
         (Nd (Nd (Nd Lf 8%positive Lf) 7%positive Lf) 4%positive Lf))
     3%positive
     (Nd Lf 2%positive Lf).

Definition bug_after : gmap positive (node Z) :=
  list_to_map
    [(1%positive, mk_node None 0 (Some 5%positive) None (Some 1%positive));
     (2%positive, mk_node (Some 10) 4 (Some 4%positive) None (Some 5%positive));
     (4%positive, mk_node (Some 12) 3 (Some 7%positive) None (Some 2%positive));
     (5%positive, mk_node (Some 13) 6 (Some 6%positive) (Some 2%positive) (Some 1%positive));
     (6%positive, mk_node (Some 14) 1 None None (Some 5%positive));
     (7%positive, mk_node (Some 15) 2 (Some 8%positive) None (Some 4%positive));
     (8%positive, mk_node (Some 16) 1 None None (Some 7%positive))].

Definition bug_shape_after : shape :=
  Nd (Nd Lf 6%positive Lf) 5%positive
     (Nd (Nd (Nd (Nd Lf 8%positive Lf) 7%positive Lf) 4%positive Lf) 2%positive Lf).

(** * Verification *)

Lemma wrap_small z : 0 <= z < size_t_mod -> wrap z = z.
Proof. intros H. unfold wrap. now apply Z.mod_small. Qed.

(** ** Shapes and contexts: basic facts *)

Lemma card_length t : card t = Z.of_nat (length (addrs t)).
Proof.
  induction t as [|l IHl a r IHr]; simpl; [done|].
  rewrite length_app. simpl. lia.
Qed.

Lemma card_nonneg t : 0 <= card t.
Proof. rewrite card_length. lia. Qed.

Lemma height_le_length t : (height t <= length (addrs t))%nat.
Proof.
  induction t as [|l IHl a r IHr]; simpl; [done|].
  rewrite length_app. simpl. lia.
Qed.

Lemma addrs_plug c t : addrs (plug c t) = ctx_before c ++ addrs t ++ ctx_after c.
Proof.
  revert t. induction c as [|[a r|l a] c IH]; intros t; simpl.
  - by rewrite app_nil_r.
  - rewrite IH. simpl. by rewrite <- !app_assoc.
  - rewrite IH. simpl. by rewrite <- !app_assoc.
Qed.

Lemma card_plug_mono c t t' : card t = card t' -> card (plug c t) = card (plug c t').
Proof.
  revert t t'. induction c as [|[a r|l a] c IH]; intros t t' E; simpl; [done| |];
    apply IH; simpl; lia.
Qed.

Lemma card_plug_le c t : card t <= card (plug c t).
Proof.
  revert t. induction c as [|[a r|l a] c IH]; intros t; simpl; [lia| |].
  - specialize (IH (Nd t a r)). simpl in IH. pose proof (card_nonneg r). lia.
  - specialize (IH (Nd l a t)). simpl in IH. pose proof (card_nonneg l). lia.
Qed.

(** Every address of a shape sits in the hole of some context. *)
Lemma elem_of_addrs_plug t a :
  a ∈ addrs t -> exists c l r, t = plug c (Nd l a r).
Proof.
  induction t as [|l IHl x r IHr]; simpl; [by intros ?%elem_of_nil|].
  rewrite elem_of_app, elem_of_cons. intros [Hl|[->|Hr]].
  - destruct (IHl Hl) as (c & l' & r' & ->).
    exists (c ++ [InL x r]), l', r'.
    clear. generalize (Nd l' a r'). induction c as [|[b u|u b] c IH]; intros t; simpl; auto.
  - by exists [], l, r.
  - destruct (IHr Hr) as (c & l' & r' & ->).
    exists (c ++ [InR l x]), l', r'.
    clear. generalize (Nd l' a r'). induction c as [|[b u|u b] c IH]; intros t; simpl; auto.
Qed.

Section RepFacts.
Context {T : Type}.
Implicit Types h : gmap positive (node T).

(** Frame rules: a heap that agrees on the addresses involved
    represents the same shape. *)
Lemma rep_ext h h' par t :
  (forall a, a ∈ addrs t -> h' !! a = h !! a) -> rep h par t -> rep h' par t.
Proof.
  revert par. induction t as [|l IHl x r IHr]; intros par Hag; simpl; [done|].
  intros ([v Hx] & Hl & Hr). split; [|split].
  - exists v. rewrite Hag; [done|]. simpl. set_solver.
  - apply IHl; [|done]. intros a Ha. apply Hag. simpl. set_solver.
  - apply IHr; [|done]. intros a Ha. apply Hag. simpl. set_solver.
Qed.

Lemma rep_insert h par t x n :
  x ∉ addrs t -> rep h par t -> rep (<[x := n]> h) par t.
Proof.
  intros Hx. apply rep_ext. intros a Ha. apply lookup_insert_ne. set_solver.
Qed.

Lemma rep_delete h par t x :
  x ∉ addrs t -> rep h par t -> rep (delete x h) par t.
Proof.
  intros Hx. apply rep_ext. intros a Ha. apply lookup_delete_ne. set_solver.
Qed.

Lemma rep_ctx_ext h h' s c hole k :
  (forall a, a ∈ ctx_addrs s c -> h' !! a = h !! a) ->
  rep_ctx h s c hole k -> rep_ctx h' s c hole k.
Proof.
  unfold ctx_addrs.
  revert hole k. induction c as [|[x r|l x] c IH]; intros hole k Hag; simpl.
  - intros [z Hs]. exists z. rewrite Hag; [done|]. set_solver.
  - intros ([v Hx] & Hr & Hc). split; [|split].
    + exists v. rewrite Hag; [done|]. simpl. set_solver.
    + eapply rep_ext; [|done]. intros a Ha. apply Hag. simpl. set_solver.
    + apply IH; [|done]. intros a Ha. apply Hag. simpl. set_solver.
  - intros ([v Hx] & Hl & Hc). split; [|split].
    + exists v. rewrite Hag; [done|]. simpl. set_solver.
    + eapply rep_ext; [|done]. intros a Ha. apply Hag. simpl. set_solver.
    + apply IH; [|done]. intros a Ha. apply Hag. simpl. set_solver.
Qed.

Lemma rep_ctx_insert h s c hole k x n :
  x ∉ ctx_addrs s c -> rep_ctx h s c hole k -> rep_ctx (<[x := n]> h) s c hole k.
Proof.
  intros Hx. apply rep_ctx_ext. intros a Ha. apply lookup_insert_ne. set_solver.
Qed.

(** Splitting a represented tree at a hole, and plugging it again. *)
Lemma rep_plug h s c t :
  rep_ctx h s [] (root (plug c t)) (card (plug c t)) /\ rep h s (plug c t) <->
  rep_ctx h s c (root t) (card t) /\ rep h (ctx_par s c) t.
Proof.
  revert t. induction c as [|[x r|l x] c IH]; intros t; [done| |].
  - simpl plug. rewrite IH. simpl. clear IH.
    destruct c as [|[y u|u y] c]; simpl; naive_solver.
  - simpl plug. rewrite IH. simpl. clear IH.
    destruct c as [|[y u|u y] c]; simpl; naive_solver.
Qed.

Lemma wf_plug h s c t :
  wf h s (plug c t) <->
  NoDup (s :: addrs (plug c t)) /\ card (plug c t) < 2 ^ 62 /\
  rep_ctx h s c (root t) (card t) /\ rep h (ctx_par s c) t.
Proof.
  rewrite <- rep_plug. split.
  - intros [? ? ? ?]. done.
  - intros (? & ? & ? & ?). by constructor.
Qed.

Lemma rep_val h par t a : rep h par t -> a ∈ addrs t -> is_Some (val h a).
Proof.
  revert par. induction t as [|l IHl x r IHr]; intros par; simpl.
  - by intros _ ?%elem_of_nil.
  - intros ([v Hx] & Hl & Hr). rewrite elem_of_app, elem_of_cons.
    intros [?|[->|?]]; eauto.
    unfold val. rewrite Hx. eauto.
Qed.
End RepFacts.

(** ** Symbolic execution of the heap monad *)

Section Exec.
Context {T : Type}.
Implicit Types h : gmap positive (node T).
Local Abbreviation M := (M (T:=T)).

Lemma bind_ret {A B} (a : A) (k : A -> M B) h : bind (ret a) k h = k a h.
Proof. done. Qed.

Lemma bind_bind {A B C} (m : M A) (k : A -> M B) (k' : B -> M C) h :
  bind (bind m k) k' h = bind m (fun a => bind (k a) k') h.
Proof. unfold bind. destruct (m h) as [[a h']|]; done. Qed.

Lemma bind_Some {A B} (m : M A) (k : A -> M B) h a h' :
  m h = Some (a, h') -> bind m k h = k a h'.
Proof. unfold bind. by intros ->. Qed.

Lemma get_value_Some h a n v :
  h !! a = Some n -> value_ n = Some v -> Node.get_value (Some a) h = Some (v, h).
Proof. unfold Node.get_value, bind, load. by intros -> ->. Qed.
Lemma get_size_Some h a n :
  h !! a = Some n -> Node.get_size (Some a) h = Some (size_ n, h).
Proof. unfold Node.get_size, bind, load. by intros ->. Qed.
Lemma get_left_Some h a n :
  h !! a = Some n -> Node.get_left (Some a) h = Some (left_ n, h).
Proof. unfold Node.get_left, bind, load. by intros ->. Qed.
Lemma get_right_Some h a n :
  h !! a = Some n -> Node.get_right (Some a) h = Some (right_ n, h).
Proof. unfold Node.get_right, bind, load. by intros ->. Qed.
Lemma get_parent_Some h a n :
  h !! a = Some n -> Node.get_parent (Some a) h = Some (parent_ n, h).
Proof. unfold Node.get_parent, bind, load. by intros ->. Qed.

Lemma set_size_Some h a n z :
  h !! a = Some n -> Node.set_size (Some a) z h = Some (tt, <[a := with_size n z]> h).
Proof. intros H. unfold Node.set_size, bind, load, store. rewrite H; simpl. by rewrite H. Qed.
Lemma set_left_Some h a n q :
  h !! a = Some n -> Node.set_left (Some a) q h = Some (tt, <[a := with_left n q]> h).
Proof. intros H. unfold Node.set_left, bind, load, store. rewrite H; simpl. by rewrite H. Qed.
Lemma set_right_Some h a n q :
  h !! a = Some n -> Node.set_right (Some a) q h = Some (tt, <[a := with_right n q]> h).
Proof. intros H. unfold Node.set_right, bind, load, store. rewrite H; simpl. by rewrite H. Qed.
Lemma set_parent_Some h a n q :
  h !! a = Some n -> Node.set_parent (Some a) q h = Some (tt, <[a := with_parent n q]> h).
Proof. intros H. unfold Node.set_parent, bind, load, store. rewrite H; simpl. by rewrite H. Qed.

Lemma size_Some h a n :
  h !! a = Some n -> Node.size (Some a) h = Some (size_ n, h).
Proof. apply get_size_Some. Qed.
Lemma size_None h : Node.size (T:=T) None h = Some (0, h).
Proof. done. Qed.

Lemma is_sentinel_Some h a n :
  h !! a = Some n ->
  Node.is_sentinel (Some a) h = Some (Node.ptr_eqb (parent_ n) (Some a), h).
Proof.
  intros H. unfold Node.is_sentinel.
  by rewrite (bind_Some _ _ _ _ _ (get_parent_Some _ _ _ H)).
Qed.

Lemma has_left_Some h a n :
  h !! a = Some n -> Node.has_left (Some a) h = Some (negb (Node.is_null (left_ n)), h).
Proof.
  intros H. unfold Node.has_left.
  by rewrite (bind_Some _ _ _ _ _ (get_left_Some _ _ _ H)).
Qed.
Lemma has_right_Some h a n :
  h !! a = Some n -> Node.has_right (Some a) h = Some (negb (Node.is_null (right_ n)), h).
Proof.
  intros H. unfold Node.has_right.
  by rewrite (bind_Some _ _ _ _ _ (get_right_Some _ _ _ H)).
Qed.

Lemma free_Some h a n : h !! a = Some n -> free (Some a) h = Some (tt, delete a h).
Proof. unfold free. by intros ->. Qed.

Lemma while_S {S} fuel (cond : S -> M bool) body s :
  while (Datatypes.S fuel) cond body s =
  bind (cond s) (fun c => if c then let! s' := body s in while fuel cond body s'
                          else ret s).
Proof. done. Qed.

Lemma loop_S {S R} fuel (body : S -> M (S + R)) s :
  loop (Datatypes.S fuel) body s =
  bind (body s) (fun x => match x with
                          | inl s' => loop fuel body s'
                          | inr r => ret r
                          end).
Proof. done. Qed.

Lemma ptr_eqb_refl (p : ptr) : Node.ptr_eqb p p = true.
Proof. unfold Node.ptr_eqb. by apply bool_decide_eq_true_2. Qed.
Lemma ptr_eqb_ne (p q : ptr) : p <> q -> Node.ptr_eqb p q = false.
Proof. unfold Node.ptr_eqb. by apply bool_decide_eq_false_2. Qed.
Lemma ptr_eqb_Some_ne (a b : loc) : a <> b -> Node.ptr_eqb (Some a) (Some b) = false.
Proof. intros. apply ptr_eqb_ne. congruence. Qed.
End Exec.

Lemma Disj_nil_l k : Disj [] k <-> True.
Proof. unfold Disj. set_solver. Qed.
Lemma Disj_nil_r l : Disj l [] <-> True.
Proof. unfold Disj. set_solver. Qed.
Lemma Disj_cons_l x l k : Disj (x :: l) k <-> (x ∉ k) /\ Disj l k.
Proof. unfold Disj. set_solver. Qed.
Lemma Disj_cons_r x l k : Disj l (x :: k) <-> (x ∉ l) /\ Disj l k.
Proof. unfold Disj. set_solver. Qed.
Lemma Disj_app_l l1 l2 k : Disj (l1 ++ l2) k <-> Disj l1 k /\ Disj l2 k.
Proof. unfold Disj. set_solver. Qed.
Lemma Disj_app_r l k1 k2 : Disj l (k1 ++ k2) <-> Disj l k1 /\ Disj l k2.
Proof. unfold Disj. set_solver. Qed.
Lemma Disj_sym l k : Disj l k -> Disj k l.
Proof. unfold Disj. set_solver. Qed.
Lemma NoDup_app_Disj (l k : list loc) : NoDup (l ++ k) <-> NoDup l /\ Disj l k /\ NoDup k.
Proof. apply NoDup_app. Qed.
Lemma NoDup_nil_True : NoDup (@nil loc) <-> True.
Proof. split; [done|]. intros _. apply NoDup_nil_2. Qed.
Lemma not_elem_of_nil_True (x : loc) : x ∉ @nil loc <-> True.
Proof. split; [done|]. intros _. apply not_elem_of_nil. Qed.

Ltac norm_nodup_in H :=
  repeat first
    [ rewrite NoDup_app_Disj in H
    | rewrite NoDup_cons in H
    | rewrite NoDup_nil_True in H
    | rewrite Disj_app_l in H
    | rewrite Disj_app_r in H
    | rewrite Disj_cons_l in H
    | rewrite Disj_cons_r in H
    | rewrite Disj_nil_l in H
    | rewrite Disj_nil_r in H
    | rewrite not_elem_of_app in H
    | rewrite not_elem_of_cons in H
    | rewrite not_elem_of_nil_True in H ].

Ltac norm_nodup :=
  repeat first
    [ rewrite NoDup_app_Disj
    | rewrite NoDup_cons
    | rewrite NoDup_nil_True
    | rewrite Disj_app_l
    | rewrite Disj_app_r
    | rewrite Disj_cons_l
    | rewrite Disj_cons_r
    | rewrite Disj_nil_l
    | rewrite Disj_nil_r
    | rewrite not_elem_of_app
    | rewrite not_elem_of_cons
    | rewrite not_elem_of_nil_True ].

(** Closing a disequality or a non-membership from the facts at hand. *)
Ltac distinct :=
  solve [ assumption
        | apply not_eq_sym; assumption
        | apply Disj_sym; assumption
        | exact I
        | match goal with
          | H : forall y : loc, y ∉ ?L |- _ ∉ ?L => apply H
          | H : forall k : list loc, Disj ?L k |- Disj ?L _ => apply H
          end
        | congruence ].

(** [lia] splits on every disequality in the context; the many address
    disequalities are irrelevant to the arithmetic and are dropped first. *)
Ltac clear_ne :=
  repeat match goal with
         | H : @eq positive _ _ -> False |- _ => clear H
         | H : not (@eq positive _ _) |- _ => clear H
         end.
Ltac alia := clear_ne; lia.

Ltac split_all := repeat match goal with |- _ /\ _ => split end.

(** Looking up an address through a stack of updates. *)
Ltac solve_lookup :=
  lazymatch goal with
  | |- <[?x := _]> _ !! ?x = Some _ => apply lookup_insert_eq
  | |- <[_ := _]> _ !! _ = Some _ =>
      rewrite lookup_insert_ne by distinct; solve_lookup
  | |- delete _ _ !! _ = Some _ =>
      rewrite lookup_delete_ne by distinct; solve_lookup
  | |- _ => eassumption
  end.

Ltac mstep :=
  lazymatch goal with
  | |- context [bind (ret _) _ _] => rewrite bind_ret
  | |- context [bind (bind _ _) _ _] => rewrite bind_bind
  | |- context [bind (Node.get_value (Some ?a)) ?k ?h] =>
      erewrite (bind_Some (Node.get_value (Some a)) k h)
        by (eapply get_value_Some; [solve_lookup|reflexivity])
  | |- context [bind (Node.get_size (Some ?a)) ?k ?h] =>
      erewrite (bind_Some (Node.get_size (Some a)) k h)
        by (eapply get_size_Some; solve_lookup)
  | |- context [bind (Node.get_left (Some ?a)) ?k ?h] =>
      erewrite (bind_Some (Node.get_left (Some a)) k h)
        by (eapply get_left_Some; solve_lookup)
  | |- context [bind (Node.get_right (Some ?a)) ?k ?h] =>
      erewrite (bind_Some (Node.get_right (Some a)) k h)
        by (eapply get_right_Some; solve_lookup)
  | |- context [bind (Node.get_parent (Some ?a)) ?k ?h] =>
      erewrite (bind_Some (Node.get_parent (Some a)) k h)
        by (eapply get_parent_Some; solve_lookup)
  | |- context [bind (Node.set_size (Some ?a) ?z) ?k ?h] =>
      erewrite (bind_Some (Node.set_size (Some a) z) k h)
        by (eapply set_size_Some; solve_lookup)
  | |- context [bind (Node.set_left (Some ?a) ?q) ?k ?h] =>
      erewrite (bind_Some (Node.set_left (Some a) q) k h)
        by (eapply set_left_Some; solve_lookup)
  | |- context [bind (Node.set_right (Some ?a) ?q) ?k ?h] =>
      erewrite (bind_Some (Node.set_right (Some a) q) k h)
        by (eapply set_right_Some; solve_lookup)
  | |- context [bind (Node.set_parent (Some ?a) ?q) ?k ?h] =>
      erewrite (bind_Some (Node.set_parent (Some a) q) k h)
        by (eapply set_parent_Some; solve_lookup)
  | |- context [bind (Node.size (Some ?a)) ?k ?h] =>
      erewrite (bind_Some (Node.size (Some a)) k h)
        by (eapply size_Some; solve_lookup)
  | |- context [bind (Node.size None) ?k ?h] =>
      rewrite (bind_Some (Node.size None) k h _ _ (size_None h))
  | |- context [bind (Node.is_sentinel (Some ?a)) ?k ?h] =>
      erewrite (bind_Some (Node.is_sentinel (Some a)) k h)
        by (eapply is_sentinel_Some; solve_lookup)
  | |- context [bind (Node.has_left (Some ?a)) ?k ?h] =>
      erewrite (bind_Some (Node.has_left (Some a)) k h)
        by (eapply has_left_Some; solve_lookup)
  | |- context [bind (Node.has_right (Some ?a)) ?k ?h] =>
      erewrite (bind_Some (Node.has_right (Some a)) k h)
        by (eapply has_right_Some; solve_lookup)
  | |- context [bind (free (Some ?a)) ?k ?h] =>
      erewrite (bind_Some (free (Some a)) k h)
        by (eapply free_Some; solve_lookup)
  | |- Node.get_left (Some _) _ = _ => erewrite get_left_Some by solve_lookup
  | |- Node.get_right (Some _) _ = _ => erewrite get_right_Some by solve_lookup
  | |- Node.get_parent (Some _) _ = _ => erewrite get_parent_Some by solve_lookup
  | |- Node.get_size (Some _) _ = _ => erewrite get_size_Some by solve_lookup
  | |- Node.set_size (Some _) _ _ = _ => erewrite set_size_Some by solve_lookup
  | |- Node.set_left (Some _) _ _ = _ => erewrite set_left_Some by solve_lookup
  | |- Node.set_right (Some _) _ _ = _ => erewrite set_right_Some by solve_lookup
  | |- Node.set_parent (Some _) _ _ = _ => erewrite set_parent_Some by solve_lookup
  | |- free (Some _) _ = _ => erewrite free_Some by solve_lookup
  end.

Ltac msimpl :=
  cbv beta delta [with_size with_left with_right with_parent];
  cbn [value_ size_ left_ right_ parent_ with_size with_left with_right
       with_parent Node.is_null negb orb andb fst snd Node.set_parent_if root ctx_par].

Ltac msteps := msimpl; repeat (mstep; msimpl).

(** ** Traversal: leftmost, rightmost, successor, predecessor *)

Lemma head_app_cons (l : list loc) x k d : default d (head (l ++ x :: k)) = default x (head l).
Proof. by destruct l. Qed.

Lemma last_app_cons' (l : list loc) x k d :
  default d (last (l ++ x :: k)) = default x (last k).
Proof.
  rewrite last_app, last_cons. destruct (last k); done.
Qed.

Lemma ctx_length c : (length c <= length (ctx_before c ++ ctx_after c))%nat.
Proof.
  induction c as [|[a r|l a] c IH]; simpl; [done| |];
    rewrite ?length_app in *; simpl; rewrite ?length_app; simpl; lia.
Qed.

Lemma plug_length c t :
  (length c + height t <= length (addrs (plug c t)))%nat.
Proof.
  rewrite addrs_plug. pose proof (ctx_length c). pose proof (height_le_length t).
  rewrite !length_app in *. lia.
Qed.

Lemma ctx_par_ne s c a :
  a <> s -> a ∉ ctx_before c -> a ∉ ctx_after c -> ctx_par s c <> a.
Proof.
  destruct c as [|[x r|l x] c]; simpl; [done| |]; set_solver.
Qed.

Lemma root_elem_of t a : root t = Some a -> a ∈ addrs t.
Proof. destruct t; simpl; [done|]. intros [= ->]. set_solver. Qed.

Lemma root_ne t a : a ∉ addrs t -> root t <> Some a.
Proof. intros H E. by apply H, root_elem_of. Qed.

Section Traversal.
Context {T : Type}.
Implicit Types h : gmap positive (node T).

(** [while (p->left_) p = p->left_] from the root of a non-empty
    subtree ends on its first address. *)
Lemma descend_left h par l a r fuel d :
  rep h par (Nd l a r) -> (height (Nd l a r) <= fuel)%nat ->
  while fuel Node.has_left Node.get_left (Some a) h =
    Some (Some (default d (head (addrs (Nd l a r)))), h).
Proof.
  revert par l a r. induction fuel as [|fuel IH]; intros par l a r Hrep Hfuel.
  - simpl in *; lia.
  - destruct Hrep as ([v Ha] & Hl & Hr).
    rewrite while_S. msteps.
    destruct l as [|ll y lr]; [done|]. msteps.
    erewrite (IH _ _ _ _ Hl) by (simpl in *; lia).
    cbn [addrs]. by rewrite !head_app_cons.
Qed.

Lemma descend_right h par l a r fuel d :
  rep h par (Nd l a r) -> (height (Nd l a r) <= fuel)%nat ->
  while fuel Node.has_right Node.get_right (Some a) h =
    Some (Some (default d (last (addrs (Nd l a r)))), h).
Proof.
  revert par l a r. induction fuel as [|fuel IH]; intros par l a r Hrep Hfuel.
  - simpl in *; lia.
  - destruct Hrep as ([v Ha] & Hl & Hr).
    rewrite while_S. msteps.
    destruct r as [|rl y rr].
    + cbn [addrs]. rewrite last_app_cons'. done.
    + msteps. erewrite (IH _ _ _ _ Hr) by (simpl in *; lia).
      cbn [addrs]. by rewrite !last_app_cons'.
Qed.

(** Climbing out of a context while the node is a right child ends
    at the child of the first ancestor that has the hole on its left,
    whose parent is the next address after the hole. *)
Lemma climb_right h s c p n k fuel :
  NoDup (p :: ctx_addrs s c) ->
  rep_ctx h s c (Some p) k ->
  h !! p = Some n -> parent_ n = Some (ctx_par s c) ->
  (length c < fuel)%nat ->
  (let! p :=
     while fuel
       (fun p => let! pp := Node.get_parent p in
                 let! s := Node.is_sentinel pp in
                 if negb s then
                   let! ppr := Node.get_right pp in ret (Node.ptr_eqb p ppr)
                 else ret false)
       Node.get_parent (Some p) in
   Node.get_parent p) h = Some (Some (default s (head (ctx_after c))), h).
Proof.
  revert c p n k. induction fuel as [|fuel IH]; intros c p n k Hnd Hctx Hp Hpar Hfuel;
    [lia|].
  destruct n as [v0 z0 l0 r0 p0]; simpl in Hpar; subst p0.
  rewrite while_S. msteps.
  unfold ctx_addrs in Hnd.
  destruct c as [|[a r|l a] c]; simpl in Hctx, Hnd |- *.
  - destruct Hctx as [z Hs]. msteps. rewrite ptr_eqb_refl. by msteps.
  - destruct Hctx as ([v Ha] & Hr & Hc). norm_nodup_in Hnd. destruct_and!.
    msteps.
    rewrite ptr_eqb_ne by (intros [= E]; revert E; by apply ctx_par_ne).
    msteps. rewrite ptr_eqb_ne by (apply not_eq_sym; by apply root_ne).
    by msteps.
  - destruct Hctx as ([v Ha] & Hl & Hc). norm_nodup_in Hnd. destruct_and!.
    msteps.
    rewrite ptr_eqb_ne by (intros [= E]; revert E; by apply ctx_par_ne).
    msteps. rewrite ptr_eqb_refl. msteps.
    specialize (IH c a _ _ ltac:(unfold ctx_addrs; norm_nodup; split_all; distinct)
                  Hc Ha eq_refl ltac:(simpl in *; lia)).
    by rewrite IH.
Qed.

Lemma climb_left h s c p n k fuel :
  NoDup (p :: ctx_addrs s c) ->
  rep_ctx h s c (Some p) k ->
  h !! p = Some n -> parent_ n = Some (ctx_par s c) ->
  (length c < fuel)%nat ->
  (let! p :=
     while fuel
       (fun p => let! pp := Node.get_parent p in
                 let! s := Node.is_sentinel pp in
                 if negb s then
                   let! ppl := Node.get_left pp in ret (Node.ptr_eqb p ppl)
                 else ret false)
       Node.get_parent (Some p) in
   Node.get_parent p) h = Some (Some (default s (last (ctx_before c))), h).
Proof.
  revert c p n k. induction fuel as [|fuel IH]; intros c p n k Hnd Hctx Hp Hpar Hfuel;
    [lia|].
  destruct n as [v0 z0 l0 r0 p0]; simpl in Hpar; subst p0.
  rewrite while_S. msteps.
  unfold ctx_addrs in Hnd.
  destruct c as [|[a r|l a] c]; simpl in Hctx, Hnd |- *.
  - destruct Hctx as [z Hs]. msteps. rewrite ptr_eqb_refl. by msteps.
  - destruct Hctx as ([v Ha] & Hr & Hc). norm_nodup_in Hnd. destruct_and!.
    msteps.
    rewrite ptr_eqb_ne by (intros [= E]; revert E; by apply ctx_par_ne).
    msteps. rewrite ptr_eqb_refl. msteps.
    specialize (IH c a _ _ ltac:(unfold ctx_addrs; norm_nodup; split_all; distinct)
                  Hc Ha eq_refl ltac:(simpl in *; lia)).
    by rewrite IH.
  - destruct Hctx as ([v Ha] & Hl & Hc). norm_nodup_in Hnd. destruct_and!.
    msteps.
    rewrite ptr_eqb_ne by (intros [= E]; revert E; by apply ctx_par_ne).
    msteps. rewrite ptr_eqb_ne by (apply not_eq_sym; by apply root_ne).
    msteps. rewrite app_assoc. by rewrite last_snoc.
Qed.

Lemma nodup_plug_ctx s c l p r :
  NoDup (s :: addrs (plug c (Nd l p r))) -> NoDup (p :: ctx_addrs s c).
Proof.
  rewrite addrs_plug. unfold ctx_addrs. simpl. intros H.
  norm_nodup_in H. destruct_and!. norm_nodup. split_all; distinct.
Qed.

(** The successor of a node: the first address of its right subtree,
    or else the first address after the hole it sits in, or else the
    sentinel. *)
Lemma inorder_successor_plug h s c l p r fuel :
  wf h s (plug c (Nd l p r)) ->
  (length (addrs (plug c (Nd l p r))) < fuel)%nat ->
  Node.inorder_successor fuel (Some p) h =
    Some (Some (default s (head (addrs r ++ ctx_after c))), h).
Proof.
  intros Hwf Hfuel. pose proof (plug_length c (Nd l p r)) as Hlen.
  apply wf_plug in Hwf as (Hnd & _ & Hc & Hrep).
  pose proof Hrep as ([v Hp] & Hl & Hr).
  unfold Node.inorder_successor. msteps.
  destruct r as [|rl y rr]; msimpl.
  - eapply climb_right; [by eapply nodup_plug_ctx|exact Hc|exact Hp|done|lia].
  - erewrite (descend_left _ _ _ _ _ _ s); [|exact Hr|simpl in *; lia].
    f_equal. f_equal. f_equal. cbn [addrs]. rewrite <- !app_assoc. simpl.
    by rewrite !head_app_cons.
Qed.

Lemma inorder_predecessor_plug h s c l p r fuel :
  wf h s (plug c (Nd l p r)) ->
  (length (addrs (plug c (Nd l p r))) < fuel)%nat ->
  Node.inorder_predecessor fuel (Some p) h =
    Some (Some (default s (last (ctx_before c ++ addrs l))), h).
Proof.
  intros Hwf Hfuel. pose proof (plug_length c (Nd l p r)) as Hlen.
  apply wf_plug in Hwf as (Hnd & _ & Hc & Hrep).
  pose proof Hrep as ([v Hp] & Hl & Hr).
  unfold Node.inorder_predecessor. msteps.
  destruct l as [|ll y lr]; msimpl.
  - rewrite app_nil_r.
    eapply climb_left; [by eapply nodup_plug_ctx|exact Hc|exact Hp|done|lia].
  - erewrite (descend_right _ _ _ _ _ _ s); [|exact Hl|simpl in *; lia].
    f_equal. f_equal. f_equal. cbn [addrs]. rewrite app_assoc.
    by rewrite !last_app_cons'.
Qed.

(** At the sentinel: [++end()] stays at [end()], [--end()] is the last
    element (or [end()] itself in an empty tree). *)
Lemma inorder_successor_sentinel h s t fuel :
  wf h s t -> (0 < fuel)%nat ->
  Node.inorder_successor fuel (Some s) h = Some (Some s, h).
Proof.
  intros [_ _ [z Hs] _] Hfuel. destruct fuel as [|fuel]; [lia|].
  unfold Node.inorder_successor. msteps. rewrite while_S. msteps.
  rewrite ptr_eqb_refl. by msteps.
Qed.

Lemma inorder_predecessor_sentinel h s t fuel :
  wf h s t -> (length (addrs t) < fuel)%nat ->
  Node.inorder_predecessor fuel (Some s) h =
    Some (Some (default s (last (addrs t))), h).
Proof.
  intros [_ _ [z Hs] Hrep] Hfuel. destruct fuel as [|fuel]; [lia|].
  unfold Node.inorder_predecessor. msteps.
  destruct t as [|l a r]; msimpl.
  - rewrite while_S. msteps. rewrite ptr_eqb_refl. by msteps.
  - pose proof (height_le_length (Nd l a r)).
    erewrite descend_right; [done|exact Hrep|lia].
Qed.

Lemma begin_spec h s t fuel :
  wf h s t -> (length (addrs t) < fuel)%nat ->
  Tree.begin fuel (Some s) h = Some (Some (default s (head (addrs t))), h).
Proof.
  intros [_ _ [z Hs] Hrep] Hfuel. destruct fuel as [|fuel]; [lia|].
  unfold Tree.begin. rewrite while_S. msteps.
  destruct t as [|l a r]; msimpl; [done|]. msteps.
  pose proof (height_le_length (Nd l a r)).
  erewrite descend_left; [done|exact Hrep|lia].
Qed.
End Traversal.

(** Splitting a duplicate-free list at an element is unambiguous. *)
Lemma NoDup_split_inj (l1 l2 k1 k2 : list loc) x :
  NoDup (l1 ++ x :: l2) -> l1 ++ x :: l2 = k1 ++ x :: k2 -> l1 = k1 /\ l2 = k2.
Proof.
  revert k1. induction l1 as [|y l1 IH]; intros k1 Hnd E; simpl in *.
  - destruct k1 as [|z k1]; simpl in *.
    + by injection E as ->.
    + injection E as -> ->. apply NoDup_cons in Hnd as [Hx _]. set_solver.
  - destruct k1 as [|z k1]; simpl in *.
    + injection E as -> <-. apply NoDup_cons in Hnd as [Hx _]. set_solver.
    + injection E as -> E. apply NoDup_cons in Hnd as [_ Hnd].
      destruct (IH _ Hnd E) as [-> ->]. done.
Qed.

Section TraversalSeq.
Context {T : Type}.
Implicit Types h : gmap positive (node T).

(** Successor and predecessor in terms of the inorder sequence. *)
Theorem inorder_successor_seq h s t l1 p l2 fuel :
  wf h s t -> addrs t = l1 ++ p :: l2 -> (length (addrs t) < fuel)%nat ->
  Node.inorder_successor fuel (Some p) h = Some (Some (default s (head l2)), h).
Proof.
  intros Hwf E Hfuel.
  destruct (elem_of_addrs_plug t p) as (c & l & r & ->).
  { rewrite E. set_solver. }
  rewrite (inorder_successor_plug h s c l p r) by done.
  rewrite addrs_plug in E. simpl in E. rewrite <- !app_assoc in E.
  rewrite app_assoc in E. simpl in E.
  apply NoDup_split_inj in E as [_ <-]; [done|].
  destruct Hwf as [Hnd _ _ _]. apply NoDup_cons in Hnd as [_ Hnd].
  rewrite addrs_plug in Hnd. simpl in Hnd. by rewrite <- !app_assoc, app_assoc in Hnd.
Qed.

Theorem inorder_predecessor_seq h s t l1 p l2 fuel :
  wf h s t -> addrs t = l1 ++ p :: l2 -> (length (addrs t) < fuel)%nat ->
  Node.inorder_predecessor fuel (Some p) h = Some (Some (default s (last l1)), h).
Proof.
  intros Hwf E Hfuel.
  destruct (elem_of_addrs_plug t p) as (c & l & r & ->).
  { rewrite E. set_solver. }
  rewrite (inorder_predecessor_plug h s c l p r) by done.
  rewrite addrs_plug in E. simpl in E. rewrite <- !app_assoc in E.
  rewrite app_assoc in E. simpl in E.
  apply NoDup_split_inj in E as [<- _]; [done|].
  destruct Hwf as [Hnd _ _ _]. apply NoDup_cons in Hnd as [_ Hnd].
  rewrite addrs_plug in Hnd. simpl in Hnd. by rewrite <- !app_assoc, app_assoc in Hnd.
Qed.
End TraversalSeq.

(** ** Binary search under the partition precondition *)

Section Search.
Context {T : Type}.
Implicit Types h : gmap positive (node T).
Local Abbreviation M := (M (T:=T)).

Lemma lower_bound_node_body fuel p (f : T -> Z) :
  Node.lower_bound_node fuel p (pure_cmp f) =
  loop fuel (bound_body fuel f (fun c => c <? 0)) p.
Proof. done. Qed.

Lemma upper_bound_node_body fuel p (f : T -> Z) :
  Node.upper_bound_node fuel p (pure_cmp f) =
  loop fuel (bound_body fuel f (fun c => c <=? 0)) p.
Proof. done. Qed.

Lemma partitioned_app_inv tb l a r :
  partitioned tb (l ++ a :: r) ->
  partitioned tb l /\ partitioned tb r /\
  (tb a = true -> Forall (fun a => tb a = true) l) /\
  (tb a = false -> Forall (fun a => tb a = false) r).
Proof.
  intros (l1 & l2 & E & H1 & H2).
  apply app_eq_inv in E as [(k & -> & ->)|(k & -> & E)].
  - apply Forall_app in H2 as [H2 H2']. apply Forall_cons in H2' as [Ha H2'].
    split; [by exists l1, k|]. split; [by exists [], r|].
    split; [congruence|done].
  - destruct k as [|x k]; simpl in E.
    + subst l2. rewrite app_nil_r in *. apply Forall_cons in H2 as [Ha H2].
      split; [by exists l, []; rewrite app_nil_r|].
      split; [by exists [], r|]. split; [congruence|done].
    + injection E as <- ->. apply Forall_app in H1 as [H1 H1'].
      apply Forall_cons in H1' as [Ha H1'].
      split; [by exists l, []; rewrite app_nil_r|].
      split; [by exists k, l2|]. split; [done|congruence].
Qed.

Lemma first_fail_app_true tb l k :
  Forall (fun a => tb a = true) l -> first_fail tb (l ++ k) = first_fail tb k.
Proof.
  unfold first_fail. intros H. induction H as [|x l Hx H IH]; [done|].
  simpl. rewrite filter_cons_False by congruence. done.
Qed.

Lemma first_fail_false tb l :
  Forall (fun a => tb a = false) l -> first_fail tb l = head l.
Proof.
  unfold first_fail. intros H. destruct H as [|x l Hx H]; [done|].
  by rewrite filter_cons_True.
Qed.

Lemma bound_descend h s f go_right fuel c t n :
  let tb := fun a => go_right (sign_at h f a) in
  wf h s (plug c t) ->
  (length (addrs (plug c t)) < fuel)%nat ->
  (height t <= n)%nat ->
  partitioned tb (addrs t) ->
  Forall (fun a => tb a = true) (ctx_before c) ->
  Forall (fun a => tb a = false) (ctx_after c) ->
  forall p, root t = Some p ->
  loop n (bound_body fuel f go_right) (Some p) h =
    Some (Some (default s (first_fail tb (addrs (plug c t)))), h).
Proof.
  intros tb. revert c t.
  induction n as [|n IH]; intros c t Hwf Hfuel Hn Hpart Hbef Haft p Hroot.
  { destruct t; simpl in *; [done|lia]. }
  destruct t as [|l x r]; simpl in Hroot; [done|]. injection Hroot as ->.
  pose proof Hwf as Hwf'.
  apply wf_plug in Hwf' as (Hnd & _ & Hc & Hrep).
  pose proof Hrep as ([v Hp] & Hl & Hr).
  simpl in Hpart. apply partitioned_app_inv in Hpart as (Hpl & Hpr & Htrue & Hfalse).
  rewrite loop_S. unfold bound_body at 1, pure_cmp. msteps.
  assert (Htb : tb p = go_right (f v)).
  { unfold tb, sign_at, val. by rewrite Hp. }
  rewrite <- Htb. destruct (tb p) eqn:Hsign.
  - specialize (Htrue eq_refl). msteps.
    destruct r as [|rl y rr]; msteps.
    + rewrite (bind_Some _ _ _ _ _ (inorder_successor_plug h s c l p Lf fuel Hwf Hfuel)).
      msteps.
      simpl. f_equal. f_equal. f_equal.
      rewrite addrs_plug. simpl. rewrite first_fail_app_true by done.
      rewrite first_fail_app_true.
      * by rewrite first_fail_false.
      * apply Forall_app. split; [done|]. by apply Forall_singleton.
    + assert (Hn' : (height (Nd rl y rr) <= n)%nat) by (simpl in Hn |- *; lia).
      assert (Hbef' : Forall (fun a => tb a = true) (ctx_before (InR l p :: c))).
      { simpl. rewrite Forall_app, Forall_app, Forall_singleton. done. }
      by rewrite (IH (InR l p :: c) (Nd rl y rr) Hwf Hfuel Hn' Hpr Hbef' Haft y eq_refl).
  - specialize (Hfalse eq_refl). msteps.
    destruct l as [|ll y lr]; msteps.
    + simpl. f_equal. f_equal. f_equal.
      rewrite addrs_plug. simpl. rewrite first_fail_app_true by done.
      unfold first_fail. by rewrite filter_cons_True.
    + assert (Hn' : (height (Nd ll y lr) <= n)%nat) by (simpl in Hn |- *; lia).
      assert (Haft' : Forall (fun a => tb a = false) (ctx_after (InL p r :: c))).
      { simpl. rewrite Forall_cons, Forall_app. done. }
      by rewrite (IH (InL p r :: c) (Nd ll y lr) Hwf Hfuel Hn' Hpl Hbef Haft' y eq_refl).
Qed.

Lemma bound_spec h s f go_right fuel t :
  let tb := fun a => go_right (sign_at h f a) in
  wf h s t -> (length (addrs t) < fuel)%nat ->
  partitioned tb (addrs t) ->
  forall p, root t = Some p ->
  loop fuel (bound_body fuel f go_right) (Some p) h =
    Some (Some (default s (first_fail tb (addrs t))), h).
Proof.
  intros tb Hwf Hfuel Hpart p Hroot.
  apply (bound_descend h s f go_right fuel [] t fuel); try done.
  pose proof (height_le_length t). lia.
Qed.
End Search.

(** ** Rotations on shapes *)

Lemma bal_left_addrs t : addrs (bal_left t) = addrs t.
Proof.
  destruct t as [|l a [|rl b rr]]; try done. unfold bal_left.
  repeat case_match; subst; simpl; rewrite <- ?app_assoc; simpl;
    rewrite <- ?app_assoc; done.
Qed.

Lemma bal_right_addrs t : addrs (bal_right t) = addrs t.
Proof.
  destruct t as [|[|ll b lr] a r]; try done. unfold bal_right.
  repeat case_match; subst; simpl; rewrite <- ?app_assoc; simpl;
    rewrite <- ?app_assoc; done.
Qed.

Lemma bal_left_card t : card (bal_left t) = card t.
Proof. by rewrite !card_length, bal_left_addrs. Qed.
Lemma bal_right_card t : card (bal_right t) = card t.
Proof. by rewrite !card_length, bal_right_addrs. Qed.

Lemma addrs_plug_congr c t t' :
  addrs t = addrs t' -> addrs (plug c t) = addrs (plug c t').
Proof. intros E. by rewrite !addrs_plug, E. Qed.

Lemma rebalance_addrs inc c t : addrs (rebalance inc c t) = addrs (plug c t).
Proof.
  revert t. induction c as [|[a r|l a] c IH]; intros t; cbn [rebalance plug]; [done| |];
    rewrite IH; apply addrs_plug_congr; destruct (Bool.eqb _ _);
    by rewrite ?bal_left_addrs, ?bal_right_addrs.
Qed.

(** ** Heap-level helpers for the structural updates *)

Section Updates.
Context {T : Type}.
Implicit Types h : gmap positive (node T).
Local Abbreviation M := (M (T:=T)).

Lemma lookup_reparent_ne h t q x : x ∉ addrs t -> reparent h t q !! x = h !! x.
Proof.
  destruct t as [|l c r]; simpl; [done|]. intros Hx.
  destruct (h !! c); [|done]. apply lookup_insert_ne. set_solver.
Qed.

Lemma set_parent_if_root h par t q :
  rep h par t -> Node.set_parent_if (root t) q h = Some (tt, reparent h t q).
Proof.
  destruct t as [|l c r]; simpl; [done|]. intros ([v Hc] & _ & _).
  rewrite Hc. by erewrite set_parent_Some by eassumption.
Qed.

Lemma rep_reparent h par t par' :
  NoDup (addrs t) -> rep h par t -> rep (reparent h t (Some par')) par' t.
Proof.
  destruct t as [|l c r]; simpl; [done|]. intros Hnd ([v Hc] & Hl & Hr).
  norm_nodup_in Hnd. destruct_and!. rewrite Hc. split_all.
  - exists v. by rewrite lookup_insert_eq.
  - by apply rep_insert.
  - by apply rep_insert.
Qed.

Lemma rep_reparent_other h par t u q :
  Disj (addrs u) (addrs t) -> rep h par u -> rep (reparent h t q) par u.
Proof.
  intros Hd. apply rep_ext. intros a Ha. apply lookup_reparent_ne. by apply Hd.
Qed.

Lemma rep_ctx_reparent_other h s c hole k t q :
  Disj (ctx_addrs s c) (addrs t) ->
  rep_ctx h s c hole k -> rep_ctx (reparent h t q) s c hole k.
Proof.
  intros Hd. apply rep_ctx_ext. intros a Ha. apply lookup_reparent_ne. by apply Hd.
Qed.

Lemma size_root h par t : rep h par t -> Node.size (root t) h = Some (card t, h).
Proof.
  destruct t as [|l c r]; simpl; [done|]. intros ([v Hc] & _ & _).
  by erewrite get_size_Some by eassumption.
Qed.

Lemma owner_Some h a n x nx :
  h !! a = Some n -> parent_ n = Some x -> h !! x = Some nx ->
  Node.owner (Some a) h = Some ((Some x, hole_field nx a), h).
Proof.
  intros Ha Hpar Hx. unfold Node.owner. msteps. rewrite Hpar. msteps.
  unfold hole_field, ret. by destruct (Node.ptr_eqb _ _).
Qed.

Lemma slot_set_Some h x nx f q :
  h !! x = Some nx ->
  Node.slot_set (Some x, f) q h = Some (tt, <[x := set_field nx f q]> h).
Proof.
  intros Hx. unfold Node.slot_set, set_field. destruct f; simpl.
  - by erewrite set_left_Some by eassumption.
  - by erewrite set_right_Some by eassumption.
Qed.

Lemma slot_get_Some h x nx f :
  h !! x = Some nx ->
  Node.slot_get (Some x, f) h =
    Some (match f with Node.FLeft => left_ nx | Node.FRight => right_ nx end, h).
Proof.
  intros Hx. unfold Node.slot_get. destruct f; simpl.
  - by erewrite get_left_Some by eassumption.
  - by erewrite get_right_Some by eassumption.
Qed.

Lemma ctx_par_elem_of s c : ctx_par s c ∈ ctx_addrs s c.
Proof. unfold ctx_addrs. destruct c as [|[x r|l x] c]; simpl; set_solver. Qed.

Lemma rep_ctx_set_hole h s c a q k :
  NoDup (ctx_addrs s c) -> a ∉ ctx_addrs s c ->
  rep_ctx h s c (Some a) k ->
  exists nx, h !! ctx_par s c = Some nx /\
    rep_ctx (<[ctx_par s c := set_hole nx a q]> h) s c q k.
Proof.
  unfold ctx_addrs, set_hole, set_field, hole_field. intros Hnd Ha Hc.
  destruct c as [|[x r|l x] c]; simpl in *.
  - destruct Hc as [z Hs]. eexists. split; [done|]. simpl.
    rewrite ptr_eqb_refl. exists z. by rewrite lookup_insert_eq.
  - destruct Hc as ([v Hx] & Hr & Hc). eexists. split; [done|]. simpl.
    rewrite ptr_eqb_refl. norm_nodup_in Hnd. norm_nodup_in Ha. destruct_and!.
    split_all.
    + exists v. by rewrite lookup_insert_eq.
    + by apply rep_insert.
    + apply rep_ctx_insert; [|done]. unfold ctx_addrs. norm_nodup.
      split_all; distinct.
  - destruct Hc as ([v Hx] & Hl & Hc). eexists. split; [done|]. simpl.
    norm_nodup_in Hnd. norm_nodup_in Ha. destruct_and!.
    rewrite ptr_eqb_ne by (by apply root_ne).
    split_all.
    + exists v. by rewrite lookup_insert_eq.
    + by apply rep_insert.
    + apply rep_ctx_insert; [|done]. unfold ctx_addrs. norm_nodup.
      split_all; distinct.
Qed.

Lemma is_balanced_root h pl l pr r :
  rep h pl l -> rep h pr r -> card l < 2 ^ 62 -> card r < 2 ^ 62 ->
  Node.is_balanced (root l) (root r) h =
    Some (card r + 1 <=? 3 * (card l + 1), h).
Proof.
  intros Hl Hr Bl Br. unfold Node.is_balanced.
  rewrite (bind_Some _ _ _ _ _ (size_root _ _ _ Hl)).
  rewrite (bind_Some _ _ _ _ _ (size_root _ _ _ Hr)).
  pose proof (card_nonneg l). pose proof (card_nonneg r).
  unfold ret. do 2 f_equal.
  rewrite (wrap_small (card l + 1)) by (unfold size_t_mod; lia).
  rewrite !wrap_small by (unfold size_t_mod; lia). done.
Qed.

Lemma is_single_root h pl l pr r :
  rep h pl l -> rep h pr r -> card l < 2 ^ 62 -> card r < 2 ^ 62 ->
  Node.is_single (root l) (root r) h =
    Some (card l + 1 <=? 2 * (card r + 1), h).
Proof.
  intros Hl Hr Bl Br. unfold Node.is_single.
  rewrite (bind_Some _ _ _ _ _ (size_root _ _ _ Hl)).
  rewrite (bind_Some _ _ _ _ _ (size_root _ _ _ Hr)).
  pose proof (card_nonneg l). pose proof (card_nonneg r).
  unfold ret. do 2 f_equal.
  rewrite (wrap_small (card r + 1)) by (unfold size_t_mod; lia).
  rewrite !wrap_small by (unfold size_t_mod; lia). done.
Qed.

Lemma recalculate_size_root h a n pl l pr r :
  h !! a = Some n -> left_ n = root l -> right_ n = root r ->
  rep h pl l -> rep h pr r -> card l < 2 ^ 62 -> card r < 2 ^ 62 ->
  Node.recalculate_size (Some a) h =
    Some (tt, <[a := with_size n (card l + card r + 1)]> h).
Proof.
  intros Ha El Er Hl Hr Bl Br. unfold Node.recalculate_size. msteps.
  rewrite El, Er.
  rewrite (bind_Some _ _ _ _ _ (size_root _ _ _ Hl)).
  rewrite (bind_Some _ _ _ _ _ (size_root _ _ _ Hr)).
  pose proof (card_nonneg l). pose proof (card_nonneg r).
  rewrite (wrap_small (card l + card r)) by (unfold size_t_mod; lia).
  rewrite wrap_small by (unfold size_t_mod; lia). msteps. by rewrite El, Er.
Qed.
End Updates.

(** Framing a represented subtree or context through a stack of updates. *)
Ltac rep_frame :=
  repeat first
    [ eassumption
    | apply rep_insert; [distinct|]
    | eapply rep_reparent; [distinct|]
    | apply rep_reparent_other; [distinct|]
    | apply rep_ctx_insert; [distinct|]
    | apply rep_ctx_reparent_other; [distinct|] ].

(** ** The rotations on the heap *)

Lemma Disj_elem (l k : list loc) x : Disj l k -> x ∈ l -> x ∉ k.
Proof. intros H. apply H. Qed.

Lemma nodup_ctx_split s c t :
  NoDup (s :: addrs (plug c t)) ->
  NoDup (ctx_addrs s c) /\ NoDup (addrs t) /\ Disj (ctx_addrs s c) (addrs t) /\
  ctx_par s c ∉ addrs t.
Proof.
  rewrite addrs_plug. unfold ctx_addrs. intros H.
  assert (H' : NoDup (s :: ctx_before c ++ ctx_after c) /\ NoDup (addrs t) /\
               Disj (s :: ctx_before c ++ ctx_after c) (addrs t)).
  { norm_nodup_in H. destruct_and!. norm_nodup. split_all; distinct. }
  destruct H' as (H1 & H2 & H3). split_all; try done.
  eapply Disj_elem; [exact H3|]. apply ctx_par_elem_of.
Qed.

Section ValFrame.
Context {T : Type}.
Implicit Types h : gmap positive (node T).

Lemma val_insert h a n n' x :
  h !! a = Some n -> value_ n' = value_ n -> val (<[a := n']> h) x = val h x.
Proof.
  intros Ha E. unfold val. destruct (decide (a = x)) as [->|Hne].
  - by rewrite lookup_insert_eq, Ha.
  - by rewrite lookup_insert_ne.
Qed.

Lemma val_reparent h t q x : val (reparent h t q) x = val h x.
Proof.
  destruct t as [|l c r]; simpl; [done|].
  destruct (h !! c) as [n|] eqn:E; [|done]. by eapply val_insert.
Qed.

Lemma set_field_value (nx : node T) f q : value_ (set_field nx f q) = value_ nx.
Proof. by destruct f. Qed.

Lemma set_hole_value (nx : node T) a q : value_ (set_hole nx a q) = value_ nx.
Proof. apply set_field_value. Qed.

Lemma dom_insert_Some h a n n' :
  h !! a = Some n -> dom (<[a := n']> h) = dom h.
Proof.
  intros Ha. rewrite dom_insert_L.
  assert (a ∈ dom h) by (apply elem_of_dom; eauto). set_solver.
Qed.

Lemma dom_reparent h t q : dom (reparent h t q) = dom h.
Proof.
  destruct t as [|l c r]; simpl; [done|].
  destruct (h !! c) as [n|] eqn:E; [|done]. by eapply dom_insert_Some.
Qed.
End ValFrame.

(** Values and domain are untouched by a stack of field updates. *)
Ltac val_frame :=
  repeat first
    [ reflexivity
    | rewrite val_reparent
    | erewrite val_insert;
        [|solve_lookup|first [reflexivity|apply set_hole_value|apply set_field_value]] ].

Ltac dom_frame :=
  repeat first
    [ reflexivity
    | rewrite dom_reparent
    | erewrite dom_insert_Some; [|solve_lookup] ].

Ltac solve_lookup ::=
  lazymatch goal with
  | |- <[?x := _]> _ !! ?x = Some _ => apply lookup_insert_eq
  | |- <[_ := _]> _ !! _ = Some _ =>
      rewrite lookup_insert_ne by distinct; solve_lookup
  | |- delete _ _ !! _ = Some _ =>
      rewrite lookup_delete_ne by distinct; solve_lookup
  | |- reparent _ _ _ !! _ = Some _ =>
      rewrite lookup_reparent_ne by distinct; solve_lookup
  | |- _ => eassumption
  end.

Ltac mstep2 :=
  first
    [ mstep
    | lazymatch goal with
      | |- context [bind (Node.set_parent_if (root ?t) ?q) ?k ?h] =>
          erewrite (bind_Some (Node.set_parent_if (root t) q) k h)
            by (eapply set_parent_if_root; rep_frame)
      | |- context [bind (Node.owner (Some ?a)) ?k ?h] =>
          erewrite (bind_Some (Node.owner (Some a)) k h)
            by (eapply owner_Some; [solve_lookup|reflexivity|solve_lookup])
      | |- context [bind (Node.slot_set (Some ?x, ?f) ?q) ?k ?h] =>
          erewrite (bind_Some (Node.slot_set (Some x, f) q) k h)
            by (eapply slot_set_Some; solve_lookup)
      | |- context [bind (Node.slot_get (Some ?x, ?f)) ?k ?h] =>
          erewrite (bind_Some (Node.slot_get (Some x, f)) k h)
            by (eapply slot_get_Some; solve_lookup)
      end ].

Ltac msteps2 := msimpl; repeat (mstep2; msimpl).

(** [recalculate_size] at [a] whose children hold the shapes [l] and [r]. *)
Ltac mrecalc a l r :=
  erewrite (bind_Some (Node.recalculate_size (Some a)));
  [|eapply (recalculate_size_root _ a _ _ l _ r);
    [solve_lookup|reflexivity|reflexivity|rep_frame|rep_frame|..]];
  msimpl.

Ltac rep_nodes :=
  cbn [rep]; split_all; first [exact I | eexists; solve_lookup | rep_frame].

Ltac bounds :=
  repeat match goal with
         | t : shape |- _ =>
             lazymatch goal with
             | H : 0 <= card t |- _ => fail
             | _ => pose proof (card_nonneg t)
             end
         end;
  clear_ne; unfold size_t_mod in *; simpl card in *; lia.

Section Rotations.
Context {T : Type}.
Implicit Types h : gmap positive (node T).

Lemma balance_left_spec h s c l a r k :
  NoDup (s :: addrs (plug c (Nd l a r))) ->
  card (Nd l a r) < 2 ^ 62 ->
  rep_ctx h s c (Some a) k ->
  rep h (ctx_par s c) (Nd l a r) ->
  exists h',
    Node.balance_left (Some a) h = Some (root (bal_left (Nd l a r)), h') /\
    rep_ctx h' s c (root (bal_left (Nd l a r))) k /\
    rep h' (ctx_par s c) (bal_left (Nd l a r)) /\
    (forall x, val h' x = val h x) /\ dom h' = dom h.
Proof.
  intros Hnd Hb Hc Hrep.
  apply nodup_ctx_split in Hnd as (Hndc & Hndt & Hdisj & Hx).
  pose proof Hrep as ([va Ha] & Hl & Hr).
  unfold Node.balance_left. msteps.
  rewrite (bind_Some _ _ _ _ _ (is_balanced_root h _ l _ r Hl Hr ltac:(bounds) ltac:(bounds))).
  unfold bal_left.
  destruct (card r + 1 <=? 3 * (card l + 1)) eqn:Hbal.
  { msteps. exists h. destruct r; rewrite ?Hbal; done. }
  destruct r as [|rl b rr]; [simpl in Hbal; bounds|]. rewrite Hbal.
  pose proof Hr as ([vb Hb'] & Hrl & Hrr).
  msteps.
  rewrite (bind_Some _ _ _ _ _ (is_single_root h _ rl _ rr Hrl Hrr ltac:(bounds) ltac:(bounds))).
  assert (Hac : a ∉ ctx_addrs s c).
  { simpl in Hdisj. norm_nodup_in Hdisj. destruct_and!. done. }
  destruct (card rl + 1 <=? 2 * (card rr + 1)) eqn:Hsingle.
  - destruct (rep_ctx_set_hole h s c a (Some b) k Hndc Hac Hc) as (nx & Hnx & Hc1).
    set (x := ctx_par s c) in *.
    simpl in Hndt, Hdisj, Hx. norm_nodup_in Hndt. norm_nodup_in Hdisj. norm_nodup_in Hx.
    destruct_and!.
    msteps2.
    mrecalc a l rl; [|bounds..]. mrecalc b (Nd l a rl) rr; [|rep_nodes|bounds..].
    msteps. eexists. split; [reflexivity|]. split_all.
    + rep_frame.
    + rep_nodes.
    + intros y. val_frame.
    + dom_frame.
  - destruct rl as [|d m e]; [simpl in Hsingle; bounds|].
    pose proof Hrl as ([vm Hm] & Hd & He).
    destruct (rep_ctx_set_hole h s c a (Some m) k Hndc Hac Hc) as (nx & Hnx & Hc1).
    set (x := ctx_par s c) in *.
    simpl in Hndt, Hdisj, Hx. norm_nodup_in Hndt. norm_nodup_in Hdisj. norm_nodup_in Hx.
    destruct_and!.
    msteps2.
    mrecalc a l d; [|bounds..]. mrecalc b e rr; [|bounds..].
    mrecalc m (Nd l a d) (Nd e b rr); [|rep_nodes|rep_nodes|bounds..].
    msteps. eexists. split; [reflexivity|]. split_all.
    + rep_frame.
    + rep_nodes.
    + intros y. val_frame.
    + dom_frame.
Qed.

Lemma balance_right_spec h s c l a r k :
  NoDup (s :: addrs (plug c (Nd l a r))) ->
  card (Nd l a r) < 2 ^ 62 ->
  rep_ctx h s c (Some a) k ->
  rep h (ctx_par s c) (Nd l a r) ->
  exists h',
    Node.balance_right (Some a) h = Some (root (bal_right (Nd l a r)), h') /\
    rep_ctx h' s c (root (bal_right (Nd l a r))) k /\
    rep h' (ctx_par s c) (bal_right (Nd l a r)) /\
    (forall x, val h' x = val h x) /\ dom h' = dom h.
Proof.
  intros Hnd Hb Hc Hrep.
  apply nodup_ctx_split in Hnd as (Hndc & Hndt & Hdisj & Hx).
  pose proof Hrep as ([va Ha] & Hl & Hr).
  unfold Node.balance_right. msteps.
  rewrite (bind_Some _ _ _ _ _ (is_balanced_root h _ r _ l Hr Hl ltac:(bounds) ltac:(bounds))).
  unfold bal_right.
  destruct (card l + 1 <=? 3 * (card r + 1)) eqn:Hbal.
  { msteps. exists h. destruct l; rewrite ?Hbal; done. }
  destruct l as [|ll b lr]; [simpl in Hbal; bounds|]. rewrite Hbal.
  pose proof Hl as ([vb Hb'] & Hll & Hlr).
  msteps.
  rewrite (bind_Some _ _ _ _ _ (is_single_root h _ lr _ ll Hlr Hll ltac:(bounds) ltac:(bounds))).
  assert (Hac : a ∉ ctx_addrs s c).
  { simpl in Hdisj. norm_nodup_in Hdisj. destruct_and!. done. }
  destruct (card lr + 1 <=? 2 * (card ll + 1)) eqn:Hsingle.
  - destruct (rep_ctx_set_hole h s c a (Some b) k Hndc Hac Hc) as (nx & Hnx & Hc1).
    set (x := ctx_par s c) in *.
    simpl in Hndt, Hdisj, Hx. norm_nodup_in Hndt. norm_nodup_in Hdisj. norm_nodup_in Hx.
    destruct_and!.
    msteps2.
    mrecalc a lr r; [|bounds..]. mrecalc b ll (Nd lr a r); [|rep_nodes|bounds..].
    msteps. eexists. split; [reflexivity|]. split_all.
    + rep_frame.
    + rep_nodes.
    + intros y. val_frame.
    + dom_frame.
  - destruct lr as [|e m d]; [simpl in Hsingle; bounds|].
    pose proof Hlr as ([vm Hm] & He & Hd).
    destruct (rep_ctx_set_hole h s c a (Some m) k Hndc Hac Hc) as (nx & Hnx & Hc1).
    set (x := ctx_par s c) in *.
    simpl in Hndt, Hdisj, Hx. norm_nodup_in Hndt. norm_nodup_in Hdisj. norm_nodup_in Hx.
    destruct_and!.
    msteps2.
    mrecalc a d r; [|bounds..]. mrecalc b ll e; [|bounds..].
    mrecalc m (Nd ll b e) (Nd d a r); [|rep_nodes|rep_nodes|bounds..].
    msteps. eexists. split; [reflexivity|]. split_all.
    + rep_frame.
    + rep_nodes.
    + intros y. val_frame.
    + dom_frame.
Qed.
End Rotations.

(** ** Rebalancing toward the root *)

Lemma bal_left_root l a r : exists p, root (bal_left (Nd l a r)) = Some p.
Proof.
  unfold bal_left. destruct r as [|rl b rr]; [by eexists|].
  repeat case_match; by eexists.
Qed.

Lemma bal_right_root l a r : exists p, root (bal_right (Nd l a r)) = Some p.
Proof.
  unfold bal_right. destruct l as [|ll b lr]; [by eexists|].
  repeat case_match; by eexists.
Qed.

Lemma root_Some_Nd t p : root t = Some p -> exists l r, t = Nd l p r.
Proof. destruct t; simpl; [done|]. intros [= ->]. eauto. Qed.

Section BalanceAbove.
Context {T : Type}.
Implicit Types h : gmap positive (node T).

Lemma rep_ctx_nil_irrel h s hole k k' :
  rep_ctx h s [] hole k -> rep_ctx h s [] hole k'.
Proof. done. Qed.

Lemma balance_side_spec (b : bool) h s c l a r k :
  NoDup (s :: addrs (plug c (Nd l a r))) ->
  card (Nd l a r) < 2 ^ 62 ->
  rep_ctx h s c (Some a) k ->
  rep h (ctx_par s c) (Nd l a r) ->
  let t' := if b then bal_left (Nd l a r) else bal_right (Nd l a r) in
  exists h',
    (if b then Node.balance_left (Some a) else Node.balance_right (Some a)) h =
      Some (root t', h') /\
    rep_ctx h' s c (root t') k /\ rep h' (ctx_par s c) t' /\
    (forall x, val h' x = val h x) /\ dom h' = dom h /\
    (exists p', root t' = Some p') /\ addrs t' = addrs (Nd l a r).
Proof.
  intros Hnd Hb Hc Hrep. destruct b; cbv zeta.
  - destruct (balance_left_spec h s c l a r k) as (h' & ? & ? & ? & ? & ?); try done.
    exists h'. split_all; try done; [apply bal_left_root|apply bal_left_addrs].
  - destruct (balance_right_spec h s c l a r k) as (h' & ? & ? & ? & ? & ?); try done.
    exists h'. split_all; try done; [apply bal_right_root|apply bal_right_addrs].
Qed.

Lemma balance_above_spec inc fuel c : forall h s t p,
  inc = 1 \/ inc = -1 ->
  NoDup (s :: addrs (plug c t)) ->
  card (plug c t) < 2 ^ 62 ->
  root t = Some p ->
  rep_ctx h s c (Some p) (card t - inc) ->
  rep h (ctx_par s c) t ->
  (length c < fuel)%nat ->
  exists h',
    Node.balance_above fuel (Some p) inc h = Some (tt, h') /\
    wf h' s (rebalance inc c t) /\
    (forall x, val h' x = val h x) /\ dom h' = dom h.
Proof.
  revert fuel. induction c as [|fr c IH]; intros fuel h s t p Hinc Hnd Hb Hroot Hc Hrep Hfuel;
    (destruct fuel as [|fuel]; [simpl in Hfuel; lia|]).
  - destruct Hc as [z Hs].
    destruct (root_Some_Nd _ _ Hroot) as (l & r & ->).
    pose proof Hrep as ([v Hp] & _ & _).
    unfold Node.balance_above. rewrite while_S. msteps.
    rewrite ptr_eqb_refl. msteps. exists h. split; [done|]. split; [|done].
    simpl. constructor; try done. by exists z.
  - destruct (root_Some_Nd _ _ Hroot) as (tl & tr & ->).
    pose proof Hrep as ([v Hp] & Htl & Htr).
    pose proof (card_plug_le c (match fr with InL a r => Nd (Nd tl p tr) a r
                                         | InR l a => Nd l a (Nd tl p tr) end)) as Hle.
    pose proof Hnd as Hnd0.
    rewrite addrs_plug in Hnd.
    destruct fr as [a r|l a]; simpl in Hc, Hnd, Hb, Hle.
    + destruct Hc as ([va Ha] & Hr & Hc).
      norm_nodup_in Hnd. destruct_and!.
      assert (Hpar : ctx_par s c <> a) by (by apply ctx_par_ne).
      unfold Node.balance_above. rewrite while_S. msteps.
      rewrite ptr_eqb_ne by congruence. msteps.
      rewrite ptr_eqb_ne by (apply not_eq_sym; by apply root_ne). msteps.
      replace (card tl + card tr + 1 - inc + card r + 1 + inc)
        with (card (Nd tl p tr) + card r + 1) by (simpl; lia).
      rewrite wrap_small by bounds.
      match goal with |- context [_ (<[a := ?n]> h)] => set (h1 := <[a := n]> h) end.
      destruct (balance_side_spec (eqb false (0 <? inc)) h1 s c (Nd tl p tr) a r
                  (card (Nd (Nd tl p tr) a r) - inc))
        as (h2 & Hrun & Hc2 & Hrep2 & Hval2 & Hdom2 & [p' Hroot'] & Haddrs).
      { rewrite addrs_plug. simpl. norm_nodup. split_all; distinct. }
      { bounds. }
      { unfold h1. apply rep_ctx_insert.
        - unfold ctx_addrs. norm_nodup. split_all; distinct.
        - replace (card (Nd (Nd tl p tr) a r) - inc)
            with (card (Nd tl p tr) - inc + card r + 1) by (simpl; lia). done. }
      { unfold h1. rep_nodes. }
      rewrite (bind_Some _ _ _ _ _ Hrun).
      set (t' := if eqb false (0 <? inc) then bal_left (Nd (Nd tl p tr) a r)
                 else bal_right (Nd (Nd tl p tr) a r)) in *.
      destruct (IH fuel h2 s t' p') as (h3 & Hrun3 & Hwf3 & Hval3 & Hdom3); try done.
      { rewrite (addrs_plug_congr c t' (Nd (Nd tl p tr) a r)) by done. done. }
      { rewrite (card_plug_mono c t' (Nd (Nd tl p tr) a r)); [done|].
        by rewrite !card_length, Haddrs. }
      { rewrite <- Hroot'.
        replace (card t') with (card (Nd (Nd tl p tr) a r)); [done|].
        by rewrite !card_length, Haddrs. }
      { simpl in Hfuel. lia. }
      rewrite Hroot'. exists h3. split; [exact Hrun3|]. split; [exact Hwf3|]. split.
      * intros y. rewrite Hval3, Hval2. unfold h1. val_frame.
      * rewrite Hdom3, Hdom2. unfold h1. dom_frame.
    + destruct Hc as ([va Ha] & Hl & Hc).
      norm_nodup_in Hnd. destruct_and!.
      assert (Hpar : ctx_par s c <> a) by (by apply ctx_par_ne).
      unfold Node.balance_above. rewrite while_S. msteps.
      rewrite ptr_eqb_ne by congruence. msteps.
      rewrite ptr_eqb_refl. msteps.
      replace (card l + (card tl + card tr + 1 - inc) + 1 + inc)
        with (card l + card (Nd tl p tr) + 1) by (simpl; lia).
      rewrite wrap_small by bounds.
      match goal with |- context [_ (<[a := ?n]> h)] => set (h1 := <[a := n]> h) end.
      destruct (balance_side_spec (eqb true (0 <? inc)) h1 s c l a (Nd tl p tr)
                  (card (Nd l a (Nd tl p tr)) - inc))
        as (h2 & Hrun & Hc2 & Hrep2 & Hval2 & Hdom2 & [p' Hroot'] & Haddrs).
      { rewrite addrs_plug. simpl. norm_nodup. split_all; distinct. }
      { bounds. }
      { unfold h1. apply rep_ctx_insert.
        - unfold ctx_addrs. norm_nodup. split_all; distinct.
        - replace (card (Nd l a (Nd tl p tr)) - inc)
            with (card l + (card (Nd tl p tr) - inc) + 1) by (simpl; lia). done. }
      { unfold h1. rep_nodes. }
      rewrite (bind_Some _ _ _ _ _ Hrun).
      set (t' := if eqb true (0 <? inc) then bal_left (Nd l a (Nd tl p tr))
                 else bal_right (Nd l a (Nd tl p tr))) in *.
      destruct (IH fuel h2 s t' p') as (h3 & Hrun3 & Hwf3 & Hval3 & Hdom3); try done.
      { rewrite (addrs_plug_congr c t' (Nd l a (Nd tl p tr))) by done. done. }
      { rewrite (card_plug_mono c t' (Nd l a (Nd tl p tr))); [done|].
        by rewrite !card_length, Haddrs. }
      { rewrite <- Hroot'.
        replace (card t') with (card (Nd l a (Nd tl p tr))); [done|].
        by rewrite !card_length, Haddrs. }
      { simpl in Hfuel. lia. }
      rewrite Hroot'. exists h3. split; [exact Hrun3|]. split; [exact Hwf3|]. split.
      * intros y. rewrite Hval3, Hval2. unfold h1. val_frame.
      * rewrite Hdom3, Hdom2. unfold h1. dom_frame.
Qed.
End BalanceAbove.

(** ** Insertion *)

Lemma plug_app c1 c2 t : plug (c1 ++ c2) t = plug c2 (plug c1 t).
Proof.
  revert t. induction c1 as [|[a r|l a] c1 IH]; intros t; simpl; auto.
Qed.

Lemma plug_right_ctx t : plug (right_ctx t) Lf = t.
Proof.
  induction t as [|l IHl a r IHr]; simpl; [done|].
  by rewrite plug_app, IHr.
Qed.

Lemma ctx_par_right_ctx s c l a r :
  ctx_par s (right_ctx (Nd l a r) ++ c) = default s (last (addrs (Nd l a r))).
Proof.
  revert l a c. induction r as [|rl IHl b rr IHr]; intros l a c.
  - simpl. by rewrite last_app_cons'.
  - cbn [addrs]. rewrite last_app_cons'.
    change (right_ctx (Nd l a (Nd rl b rr))) with (right_ctx (Nd rl b rr) ++ [InR l a]).
    rewrite <- app_assoc. rewrite IHr. cbn [addrs]. by rewrite !last_app_cons'.
Qed.

Lemma right_ctx_head l a r :
  exists l' q c', right_ctx (Nd l a r) = InR l' q :: c'.
Proof.
  revert l a. induction r as [|rl IHl b rr IHr]; intros l a; simpl.
  - by eexists _, _, _.
  - destruct (IHr rl b) as (l' & q & c' & E). simpl in E. rewrite E.
    by eexists _, _, _.
Qed.

Section Insert.
Context {T : Type}.
Implicit Types h : gmap positive (node T).

Lemma rep_dom h par t a : rep h par t -> a ∈ addrs t -> a ∈ dom h.
Proof.
  revert par. induction t as [|l IHl x r IHr]; intros par; simpl.
  - by intros _ ?%elem_of_nil.
  - intros ([v Hx] & Hl & Hr). rewrite elem_of_app, elem_of_cons.
    intros [?|[->|?]]; eauto. apply elem_of_dom. eauto.
Qed.

Lemma wf_dom h s t a : wf h s t -> a ∈ s :: addrs t -> a ∈ dom h.
Proof.
  intros [_ _ [z Hs] Hrep]. rewrite elem_of_cons. intros [->|Ha].
  - apply elem_of_dom. eauto.
  - by eapply rep_dom.
Qed.

(** Filling an empty hole with a pointer. *)
Lemma rep_ctx_fill h s c q k :
  NoDup (ctx_addrs s c) -> rep_ctx h s c None k ->
  exists nx, h !! ctx_par s c = Some nx /\
    rep_ctx (<[ctx_par s c :=
                match c with
                | InR _ _ :: _ => with_right nx q
                | _ => with_left nx q
                end]> h) s c q k /\
    match c with
    | InR _ _ :: _ => right_ nx = None
    | _ => left_ nx = None
    end.
Proof.
  unfold ctx_addrs. intros Hnd Hc.
  destruct c as [|[x r|l x] c]; simpl in *.
  - destruct Hc as [z Hs]. eexists. split; [done|]. split; [|done].
    exists z. by rewrite lookup_insert_eq.
  - destruct Hc as ([v Hx] & Hr & Hc). eexists. split; [done|]. simpl.
    norm_nodup_in Hnd. destruct_and!. split; [|done]. split_all.
    + exists v. by rewrite lookup_insert_eq.
    + by apply rep_insert.
    + apply rep_ctx_insert; [|done]. unfold ctx_addrs. norm_nodup.
      split_all; distinct.
  - destruct Hc as ([v Hx] & Hl & Hc). eexists. split; [done|]. simpl.
    norm_nodup_in Hnd. destruct_and!. split; [|done]. split_all.
    + exists v. by rewrite lookup_insert_eq.
    + by apply rep_insert.
    + apply rep_ctx_insert; [|done]. unfold ctx_addrs. norm_nodup.
      split_all; distinct.
Qed.

Lemma nodup_ctx_addrs s c t : NoDup (s :: addrs (plug c t)) -> NoDup (ctx_addrs s c).
Proof. intros H. by apply nodup_ctx_split in H as (? & _). Qed.

(** Attaching a fresh leaf at a hole and rebalancing above it. *)
Lemma attach_spec h s c n v fuel :
  wf h s (plug c Lf) -> card (plug c Lf) + 1 < 2 ^ 62 ->
  h !! n = Some (Node.singleton v) -> n ∉ s :: addrs (plug c Lf) ->
  (length (addrs (plug c Lf)) < fuel)%nat ->
  exists h',
    (forall B (K : unit -> M (T:=T) B),
       ((match c with
         | InR _ _ :: _ => Node.set_right (Some (ctx_par s c)) (Some n)
         | _ => Node.set_left (Some (ctx_par s c)) (Some n)
         end) >>
        Node.set_parent (Some n) (Some (ctx_par s c)) >>
        bind (Node.balance_above fuel (Some n) 1) K) h = K tt h') /\
    wf h' s (rebalance 1 c (Nd Lf n Lf)) /\
    (forall x, val h' x = val h x) /\ dom h' = dom h.
Proof.
  intros Hwf Hb Hn Hfresh Hfuel.
  pose proof Hwf as Hwf'. apply wf_plug in Hwf' as (Hnd & _ & Hc & _).
  destruct (rep_ctx_fill h s c (Some n) 0 (nodup_ctx_addrs _ _ _ Hnd) Hc)
    as (nx & Hx & Hc1 & _).
  assert (Hnx : n <> ctx_par s c).
  { intros ->. apply Hfresh. pose proof (ctx_par_elem_of s c) as Hin.
    unfold ctx_addrs in Hin. rewrite addrs_plug. simpl. set_solver. }
  assert (Hnc : n ∉ ctx_addrs s c).
  { unfold ctx_addrs. rewrite addrs_plug in Hfresh. simpl in Hfresh. done. }
  set (x := ctx_par s c) in *.
  set (nx' := match c with InR _ _ :: _ => with_right nx (Some n)
              | _ => with_left nx (Some n) end) in *.
  set (h1 := <[n := with_parent (Node.singleton v) (Some x)]> (<[x := nx']> h)).
  destruct (balance_above_spec 1 fuel c h1 s (Nd Lf n Lf) n) as (h' & Hrun & Hwf2 & Hval & Hdom).
  - by left.
  - rewrite addrs_plug in *. simpl in *. norm_nodup_in Hnd. norm_nodup_in Hfresh.
    destruct_and!. norm_nodup. split_all; distinct.
  - assert (card (plug c (Nd Lf n Lf)) = card (plug c Lf) + 1); [|lia].
    rewrite !card_length, !addrs_plug, !length_app. simpl. lia.
  - done.
  - unfold h1. by apply rep_ctx_insert.
  - unfold h1. unfold Node.singleton. rep_nodes.
  - pose proof (plug_length c Lf). simpl in *. lia.
  - exists h'. split; [|split; [done|split]].
    + intros B K. clear Hc1.
      destruct c as [|[]]; msteps; by rewrite (bind_Some _ _ _ _ _ Hrun).
    + intros y. rewrite Hval. unfold h1, nx'. destruct c as [|[]]; val_frame.
    + rewrite Hdom. unfold h1. dom_frame.
Qed.

Lemma bind_alloc {B} (n0 : node T) (k : ptr -> M (T:=T) B) h :
  bind (alloc n0) k h = k (Some (fresh (dom h))) (<[fresh (dom h) := n0]> h).
Proof. done. Qed.

Lemma wf_insert_fresh h s t n n0 :
  wf h s t -> n ∉ dom h -> wf (<[n := n0]> h) s t.
Proof.
  intros Hwf Hn. pose proof Hwf as [Hnd Hb Hc Hrep]. constructor; try done.
  - eapply rep_ctx_ext; [|done]. intros a Ha. apply lookup_insert_ne.
    intros ->. apply Hn. eapply wf_dom; [done|]. unfold ctx_addrs in Ha. set_solver.
  - eapply rep_ext; [|done]. intros a Ha. apply lookup_insert_ne.
    intros ->. apply Hn. eapply wf_dom; [done|]. set_solver.
Qed.

Lemma rep_ctx_left_hole h s c hole k :
  left_hole c -> rep_ctx h s c hole k ->
  exists nx, h !! ctx_par s c = Some nx /\ left_ nx = hole.
Proof.
  destruct c as [|[x r|l x] c]; simpl; [| |done].
  - intros _ [z Hs]. eauto.
  - intros _ ([v Hx] & _). eauto.
Qed.

Lemma insert_before_self_spec h s cl l v fuel :
  wf h s (plug cl l) -> left_hole cl ->
  card (plug cl l) + 1 < 2 ^ 62 ->
  (length (addrs (plug cl l)) < fuel)%nat ->
  let n := fresh (dom h) in
  exists h',
    Node.insert_before_self fuel (Some (ctx_par s cl)) v h = Some (Some n, h') /\
    wf h' s (rebalance 1 (right_ctx l ++ cl) (Nd Lf n Lf)) /\
    val h' n = Some v /\ (forall x, x <> n -> val h' x = val h x) /\
    dom h' = {[n]} ∪ dom h.
Proof.
  intros Hwf Hleft Hb Hfuel n.
  assert (Hn : n ∉ dom h) by apply is_fresh.
  pose proof (wf_insert_fresh h s _ n (Node.singleton v) Hwf Hn) as Hwf0.
  set (h0 := <[n := Node.singleton v]> h) in *.
  assert (Hfresh : n ∉ s :: addrs (plug cl l)).
  { intros Hin. apply Hn. by eapply wf_dom. }
  assert (E : plug cl l = plug (right_ctx l ++ cl) Lf).
  { by rewrite plug_app, plug_right_ctx. }
  destruct (attach_spec h0 s (right_ctx l ++ cl) n v fuel)
    as (h' & Hrun & Hwf' & Hval & Hdom); try (rewrite <- E; done).
  { unfold h0. by rewrite lookup_insert_eq. }
  exists h'. split; [|split; [done|split; [|split]]].
  - unfold Node.insert_before_self. rewrite bind_alloc. fold n. fold h0.
    pose proof Hwf0 as Hwf0'. apply wf_plug in Hwf0' as (_ & _ & Hc & Hrep).
    destruct (rep_ctx_left_hole _ _ _ _ _ Hleft Hc) as (nx & Hx & Hxl).
    msteps. rewrite Hxl.
    destruct l as [|ll a lr].
    + cbn [Node.is_null negb root]. rewrite !bind_bind. simpl in Hrun.
      destruct cl as [|[]]; [| |done]; by rewrite Hrun.
    + msteps.
      pose proof (plug_length cl (Nd ll a lr)).
      rewrite (bind_Some _ _ _ _ _ (descend_right h0 _ ll a lr fuel s Hrep ltac:(lia))).
      rewrite <- (ctx_par_right_ctx s cl).
      destruct (right_ctx_head ll a lr) as (l' & q & c' & Eq).
      rewrite Eq in *. simpl in Hrun |- *.
      rewrite !bind_bind. by rewrite Hrun.
  - rewrite Hval. unfold val, h0. by rewrite lookup_insert_eq.
  - intros x Hx. rewrite Hval. unfold val, h0. by rewrite lookup_insert_ne.
  - rewrite Hdom. unfold h0. by rewrite dom_insert_L.
Qed.
End Insert.

(** ** Erasure *)

Lemma card_plug c t : card (plug c t) = card t + card (plug c Lf).
Proof.
  rewrite !card_length, !addrs_plug, !length_app. simpl. lia.
Qed.

Section Erase.
Context {T : Type}.
Implicit Types h : gmap positive (node T).

(** Rebalancing after a subtree lost one node: the node [x] above it is
    already up to date, the ancestors beyond still count the lost node. *)
Lemma shrink_spec (side : bool) h s c l a r fuel :
  NoDup (s :: addrs (plug c (Nd l a r))) ->
  card (plug c (Nd l a r)) + 1 < 2 ^ 62 ->
  rep_ctx h s c (Some a) (card (Nd l a r) + 1) ->
  rep h (ctx_par s c) (Nd l a r) ->
  (length c < fuel)%nat ->
  exists h',
    (forall B (K : unit -> M (T:=T) B),
       bind (if side then Node.balance_left (Some a) else Node.balance_right (Some a))
         (fun q => bind (Node.balance_above fuel q (-1)) K) h = K tt h') /\
    wf h' s (rebalance (-1) c (if side then bal_left (Nd l a r) else bal_right (Nd l a r))) /\
    (forall x, val h' x = val h x) /\ dom h' = dom h.
Proof.
  intros Hnd Hb Hc Hrep Hfuel.
  pose proof (card_plug_le c (Nd l a r)) as Hle.
  destruct (balance_side_spec side h s c l a r (card (Nd l a r) + 1))
    as (h1 & Hrun1 & Hc1 & Hrep1 & Hval1 & Hdom1 & [p' Hroot'] & Haddrs); try done.
  { lia. }
  set (t' := if side then bal_left (Nd l a r) else bal_right (Nd l a r)) in *.
  assert (Hcard : card t' = card (Nd l a r)) by (by rewrite !card_length, Haddrs).
  destruct (balance_above_spec (-1) fuel c h1 s t' p') as (h2 & Hrun2 & Hwf2 & Hval2 & Hdom2);
    try done.
  - by right.
  - by rewrite (addrs_plug_congr c t' (Nd l a r)).
  - rewrite (card_plug_mono c t' (Nd l a r)) by done. lia.
  - rewrite <- Hroot', Hcard.
    replace (card (Nd l a r) - -1) with (card (Nd l a r) + 1) by lia. done.
  - exists h2. split_all; try done.
    + intros B K. rewrite (bind_Some _ _ _ _ _ Hrun1). rewrite Hroot'.
      by rewrite (bind_Some _ _ _ _ _ Hrun2).
    + intros y. by rewrite Hval2, Hval1.
    + by rewrite Hdom2, Hdom1.
Qed.

Lemma wf_delete h s t p : wf h s t -> p ∉ s :: addrs t -> wf (delete p h) s t.
Proof.
  intros [Hnd Hb Hc Hrep] Hp. constructor; try done.
  - eapply rep_ctx_ext; [|done]. intros a Ha. apply lookup_delete_ne.
    unfold ctx_addrs in Ha. set_solver.
  - eapply rep_ext; [|done]. intros a Ha. apply lookup_delete_ne. set_solver.
Qed.

Lemma val_delete h p x : x <> p -> val (delete p h) x = val h x.
Proof. intros Hne. unfold val. by rewrite lookup_delete_ne. Qed.

(** Erasing a node with at most one child [ch]. *)
Lemma erase_self_one_child h s c l p r ch fuel :
  wf h s (plug c (Nd l p r)) ->
  (l = Lf /\ ch = r) \/ (r = Lf /\ ch = l) ->
  (length (addrs (plug c (Nd l p r))) < fuel)%nat ->
  exists h',
    Node.erase_self fuel (Some p) h = Some (tt, h') /\
    wf h' s (rebalance (-1) c ch) /\
    (forall x, x <> p -> val h' x = val h x) /\ dom h' = dom h ∖ {[p]}.
Proof.
  intros Hwf Hch Hfuel.
  pose proof (plug_length c (Nd l p r)) as Hlen.
  pose proof (card_plug_le c (Nd l p r)) as Hle.
  pose proof Hwf as Hwf'. apply wf_plug in Hwf' as (Hnd & Hb & Hc & Hrep).
  pose proof Hrep as ([vp Hp] & Hl & Hr).
  assert (Hrepch : rep h p ch) by (by destruct Hch as [[-> ->]|[-> ->]]).
  assert (Hcard : card ch = card (Nd l p r) - 1).
  { destruct Hch as [[-> ->]|[-> ->]]; simpl; lia. }
  assert (Haddrs : addrs (Nd l p r) ≡ₚ p :: addrs ch).
  { destruct Hch as [[-> ->]|[-> ->]]; simpl; [done|].
    symmetry. apply Permutation_cons_append. }
  assert (Hnd' : NoDup (s :: p :: ctx_before c ++ addrs ch ++ ctx_after c)).
  { rewrite addrs_plug in Hnd. revert Hnd. apply NoDup_Permutation_proper.
    rewrite Haddrs. apply Permutation_skip. simpl.
    apply Permutation_middle. }
  unfold Node.erase_self. msteps.
  assert (Hnull : Node.is_null (root l) || Node.is_null (root r) = true).
  { destruct Hch as [[-> ->]|[-> ->]]; simpl; [done|by destruct l]. }
  rewrite Hnull.
  assert (Hsel : forall B (K : ptr -> M (T:=T) B) h0,
    h0 !! p = h !! p ->
    bind (if Node.is_null (root l) then Node.get_right (Some p)
          else Node.get_left (Some p)) K h0 = K (root ch) h0).
  { intros B K h0 Hp0. rewrite Hp in Hp0.
    destruct Hch as [[-> ->]|[-> ->]]; [by msteps|]. destruct l; by msteps. }
  destruct c as [|[x r'|l' x] c']; simpl in Hc, Hnd'.
  - destruct Hc as [z Hs]. norm_nodup_in Hnd'. destruct_and!.
    eexists. split.
    { msteps. rewrite Hsel by (by rewrite lookup_insert_ne).
      msteps2. rewrite ptr_eqb_refl. msteps2. rewrite ptr_eqb_refl. msteps2.
      reflexivity. }
    split_all.
    + simpl. constructor.
      * norm_nodup. split_all; distinct.
      * lia.
      * simpl. eexists. rewrite lookup_delete_ne by distinct. solve_lookup.
      * apply rep_delete; [distinct|]. rep_frame.
    + intros y Hy. rewrite val_delete by done. val_frame.
    + rewrite dom_delete_L. f_equal. dom_frame.
  - destruct Hc as ([vx Hx] & Hr' & Hc).
    simpl in Hb, Hle, Hlen.
    pose proof (card_plug_le c' (Nd (Nd l p r) x r')) as Hle'.
    pose proof (card_nonneg r') as Hr'0. pose proof (card_nonneg ch) as Hch0.
    norm_nodup_in Hnd'. destruct_and!.
    assert (Hpar : ctx_par s c' <> x) by (by apply ctx_par_ne).
    assert (Hparp : ctx_par s c' <> p) by (by apply ctx_par_ne).
    msteps. rewrite Hsel by (by rewrite lookup_insert_ne).
    msteps2. rewrite ptr_eqb_refl. msteps2.
    rewrite ptr_eqb_ne by congruence. msteps2.
    rewrite wrap_small by (simpl in *; unfold size_t_mod; lia).
    replace (card l + card r + 1 + card r' + 1 - 1) with (card ch + card r' + 1)
      by (simpl in Hcard; lia).
    match goal with |- context [bind (Node.balance_left _) _ ?H] => set (h1 := H) end.
    destruct (shrink_spec true h1 s c' ch x r' fuel) as (h2 & Hrun & Hwf2 & Hval2 & Hdom2).
    { rewrite addrs_plug. simpl. norm_nodup. split_all; distinct. }
    { rewrite card_plug in Hb |- *. simpl in *. lia. }
    { assert ((x ∉ ctx_addrs s c') /\ Disj (ctx_addrs s c') (addrs ch)) as [? ?]
        by (unfold ctx_addrs; norm_nodup; split_all; distinct).
      replace (card (Nd ch x r') + 1) with (card l + card r + 1 + card r' + 1)
        by (simpl in *; lia).
      unfold h1. rep_frame. }
    { unfold h1. rep_nodes. }
    { simpl in *. lia. }
    rewrite Hrun.
    assert (Hp2 : is_Some (h2 !! p)).
    { apply elem_of_dom. rewrite Hdom2. unfold h1.
      repeat first [rewrite dom_reparent | rewrite dom_insert_L].
      apply elem_of_dom_2 in Hp. set_solver. }
    destruct Hp2 as [np Hp2]. rewrite (free_Some _ _ _ Hp2).
    eexists. split; [reflexivity|]. split_all.
    + apply wf_delete; [done|].
      rewrite rebalance_addrs, addrs_plug. simpl. norm_nodup. split_all; distinct.
    + intros y Hy. rewrite val_delete by done. rewrite Hval2. unfold h1. val_frame.
    + rewrite dom_delete_L, Hdom2. f_equal. unfold h1. dom_frame.
  - destruct Hc as ([vx Hx] & Hl' & Hc).
    simpl in Hb, Hle, Hlen.
    pose proof (card_plug_le c' (Nd l' x (Nd l p r))) as Hle'.
    pose proof (card_nonneg l') as Hl'0. pose proof (card_nonneg ch) as Hch0.
    norm_nodup_in Hnd'. destruct_and!.
    assert (Hpar : ctx_par s c' <> x) by (by apply ctx_par_ne).
    assert (Hparp : ctx_par s c' <> p) by (by apply ctx_par_ne).
    msteps. rewrite Hsel by (by rewrite lookup_insert_ne).
    msteps2. rewrite ptr_eqb_ne by (apply not_eq_sym; by apply root_ne). msteps2.
    rewrite wrap_small by (simpl in *; unfold size_t_mod; lia).
    replace (card l' + (card l + card r + 1) + 1 - 1) with (card l' + card ch + 1)
      by (simpl in Hcard; lia).
    match goal with |- context [bind (Node.balance_right _) _ ?H] => set (h1 := H) end.
    destruct (shrink_spec false h1 s c' l' x ch fuel) as (h2 & Hrun & Hwf2 & Hval2 & Hdom2).
    { rewrite addrs_plug. simpl. norm_nodup. split_all; distinct. }
    { rewrite card_plug in Hb |- *. simpl in *. lia. }
    { assert ((x ∉ ctx_addrs s c') /\ Disj (ctx_addrs s c') (addrs ch)) as [? ?]
        by (unfold ctx_addrs; norm_nodup; split_all; distinct).
      replace (card (Nd l' x ch) + 1) with (card l' + (card l + card r + 1) + 1)
        by (simpl in *; lia).
      unfold h1. rep_frame. }
    { unfold h1. rep_nodes. }
    { simpl in *. lia. }
    rewrite Hrun.
    assert (Hp2 : is_Some (h2 !! p)).
    { apply elem_of_dom. rewrite Hdom2. unfold h1.
      repeat first [rewrite dom_reparent | rewrite dom_insert_L].
      apply elem_of_dom_2 in Hp. set_solver. }
    destruct Hp2 as [np Hp2]. rewrite (free_Some _ _ _ Hp2).
    eexists. split; [reflexivity|]. split_all.
    + apply wf_delete; [done|].
      rewrite rebalance_addrs, addrs_plug. simpl. norm_nodup. split_all; distinct.
    + intros y Hy. rewrite val_delete by done. rewrite Hval2. unfold h1. val_frame.
    + rewrite dom_delete_L, Hdom2. f_equal. unfold h1. dom_frame.
Qed.
End Erase.

(** ** Context segments *)

Lemma ctx_before_app c1 c2 : ctx_before (c1 ++ c2) = ctx_before c2 ++ ctx_before c1.
Proof.
  induction c1 as [|[a r|l a] c1 IH]; simpl.
  - by rewrite app_nil_r.
  - done.
  - by rewrite IH, <- !app_assoc.
Qed.

Lemma ctx_after_app c1 c2 : ctx_after (c1 ++ c2) = ctx_after c1 ++ ctx_after c2.
Proof.
  induction c1 as [|[a r|l a] c1 IH]; simpl.
  - done.
  - by rewrite IH, <- !app_assoc.
  - done.
Qed.

Lemma ctx_par_app s c1 c2 : ctx_par s (c1 ++ c2) = ctx_par (ctx_par s c2) c1.
Proof. by destruct c1 as [|[]]. Qed.

Lemma seg_root_cons fr c hole :
  seg_root (fr :: c) hole =
  seg_root c (Some (match fr with InL a _ => a | InR _ a => a end)).
Proof.
  unfold seg_root. rewrite last_cons. destruct (last c) as [[]|]; [done..|].
  by destruct fr.
Qed.

Lemma seg_card_plug c t : seg_card c (card t) = card (plug c t).
Proof.
  revert t. induction c as [|[a r|l a] c IH]; intros t; simpl; [done| |].
  - by rewrite <- IH.
  - by rewrite <- IH.
Qed.

Lemma seg_root_plug c t : seg_root c (root t) = root (plug c t).
Proof.
  revert t. induction c as [|fr c IH]; intros t; [done|].
  rewrite seg_root_cons. destruct fr as [a r|l a]; simpl; by rewrite <- IH.
Qed.

Lemma plug_left_ctx t : plug (left_ctx t) Lf = t.
Proof.
  induction t as [|l IHl a r IHr]; simpl; [done|].
  by rewrite plug_app, IHl.
Qed.

Lemma ctx_before_left_ctx t : ctx_before (left_ctx t) = [].
Proof.
  induction t as [|l IHl a r IHr]; simpl; [done|].
  by rewrite ctx_before_app, IHl.
Qed.

Lemma ctx_before_right_ctx t : ctx_before (right_ctx t) = addrs t.
Proof.
  induction t as [|l IHl a r IHr]; simpl; [done|].
  rewrite ctx_before_app, IHr. simpl. by rewrite <- app_assoc.
Qed.

Lemma ctx_after_right_ctx t : ctx_after (right_ctx t) = [].
Proof.
  induction t as [|l IHl a r IHr]; simpl; [done|].
  by rewrite ctx_after_app, IHr.
Qed.

(** The three places the inorder successor of a node with a right subtree
    can sit: at its root, just below it, or deeper along the left spine. *)
Lemma leftmost_cases r :
  r <> Lf ->
  (exists q qr, r = Nd Lf q qr) \/
  (exists q qr ro rr, r = Nd (Nd Lf q qr) ro rr) \/
  (exists q qr qp sib cm ro rr,
     r = Nd (plug cm (Nd (Nd Lf q qr) qp sib)) ro rr /\ ctx_before cm = []).
Proof.
  induction r as [|l IHl a r _]; [done|]. intros _.
  destruct l as [|ll b lr].
  - left. by eexists _, _.
  - right. destruct (IHl ltac:(done)) as [(q & qr & E)|[(q & qr & ro & rr & E)|
      (q & qr & qp & sib & cm & ro & rr & E & Hcm)]].
    + left. injection E as -> -> ->. by eexists _, _, _, _.
    + right. rewrite E. eexists q, qr, ro, rr, [], a, r. done.
    + right. rewrite E. eexists q, qr, qp, sib, (cm ++ [InL ro rr]), a, r.
      rewrite plug_app. simpl. split; [done|].
      by rewrite ctx_before_app, Hcm.
Qed.

Section Segments.
Context {T : Type}.
Implicit Types h : gmap positive (node T).

Lemma rep_ctx_app h s c1 c2 hole k :
  rep_ctx h s (c1 ++ c2) hole k <->
  rep_seg h (ctx_par s c2) c1 hole k /\
  rep_ctx h s c2 (seg_root c1 hole) (seg_card c1 k).
Proof.
  revert hole k. induction c1 as [|fr c1 IH]; intros hole k.
  - simpl. unfold seg_root. simpl. naive_solver.
  - rewrite seg_root_cons. destruct fr as [a r|l a]; simpl;
      rewrite IH, ctx_par_app; naive_solver.
Qed.

Lemma rep_seg_ext h h' top c hole k :
  (forall a, a ∈ ctx_before c ++ ctx_after c -> h' !! a = h !! a) ->
  rep_seg h top c hole k -> rep_seg h' top c hole k.
Proof.
  revert hole k. induction c as [|[x r|l x] c IH]; intros hole k Hag; simpl; [done| |].
  - intros ([v Hx] & Hr & Hc). split; [|split].
    + exists v. rewrite Hag; [done|]. simpl. set_solver.
    + eapply rep_ext; [|done]. intros a Ha. apply Hag. simpl. set_solver.
    + apply IH; [|done]. intros a Ha. apply Hag. simpl. set_solver.
  - intros ([v Hx] & Hl & Hc). split; [|split].
    + exists v. rewrite Hag; [done|]. simpl. set_solver.
    + eapply rep_ext; [|done]. intros a Ha. apply Hag. simpl. set_solver.
    + apply IH; [|done]. intros a Ha. apply Hag. simpl. set_solver.
Qed.

Lemma rep_seg_insert h top c hole k x n :
  x ∉ ctx_before c -> x ∉ ctx_after c ->
  rep_seg h top c hole k -> rep_seg (<[x := n]> h) top c hole k.
Proof.
  intros Hx Hx'. apply rep_seg_ext. intros a Ha. apply lookup_insert_ne. set_solver.
Qed.

Lemma rep_seg_reparent_other h top c hole k t q :
  Disj (ctx_before c) (addrs t) -> Disj (ctx_after c) (addrs t) ->
  rep_seg h top c hole k -> rep_seg (reparent h t q) top c hole k.
Proof.
  intros Hd Hd'. apply rep_seg_ext. intros a Ha. apply lookup_reparent_ne.
  apply elem_of_app in Ha as [Ha|Ha]; [by apply Hd|by apply Hd'].
Qed.
End Segments.

Ltac rep_frame ::=
  repeat first
    [ eassumption
    | exact I
    | apply rep_insert; [distinct|]
    | eapply rep_reparent; [distinct|]
    | apply rep_reparent_other; [distinct|]
    | apply rep_ctx_insert; [distinct|]
    | apply rep_ctx_reparent_other; [distinct|]
    | apply rep_seg_insert; [distinct|distinct|]
    | apply rep_seg_reparent_other; [distinct|distinct|] ].

Lemma lookup_eq_Some {T} (h : gmap positive (node T)) a n n' :
  h !! a = Some n -> n = n' -> h !! a = Some n'.
Proof. by intros ? <-. Qed.

(** A cell of the heap holds the expected record, up to arithmetic on the
    size field. *)
Ltac cell :=
  eexists; eapply lookup_eq_Some;
  [solve_lookup|f_equal; first [reflexivity|simpl; alia]].

Lemma insert_reparent {T} (h : gmap positive (node T)) x n t q :
  x ∉ addrs t -> <[x := n]> (reparent h t q) = reparent (<[x := n]> h) t q.
Proof.
  destruct t as [|l c r]; simpl; [done|]. intros Hx.
  assert (x <> c) by set_solver.
  rewrite lookup_insert_ne by done. destruct (h !! c); [|done].
  by apply insert_insert_ne.
Qed.

(** Framing a context whose owner cell was updated below later updates:
    the owner's update is pushed down first. *)
Ltac rep_frame ::=
  repeat first
    [ eassumption
    | exact I
    | apply rep_insert; [distinct|]
    | eapply rep_reparent; [distinct|]
    | apply rep_reparent_other; [distinct|]
    | apply rep_ctx_insert; [distinct|]
    | apply rep_ctx_reparent_other; [distinct|]
    | apply rep_seg_insert; [distinct|distinct|]
    | apply rep_seg_reparent_other; [distinct|distinct|]
    | rewrite insert_insert_ne by distinct; apply rep_ctx_insert; [distinct|]
    | rewrite insert_reparent by distinct; apply rep_ctx_reparent_other; [distinct|] ].

Ltac rep_nodes ::=
  cbn [rep rep_ctx rep_seg]; split_all; first [exact I | cell | rep_frame].

Section EraseTwo.
Context {T : Type}.
Implicit Types h : gmap positive (node T).

Lemma erase_tail {A} (m1 : M (T:=T) A) (m2 : A -> M (T:=T) unit) h h1 h2 s t' p :
  (forall B (K : unit -> M (T:=T) B), bind m1 (fun q => bind (m2 q) K) h1 = K tt h2) ->
  wf h2 s t' -> (forall x, val h2 x = val h1 x) -> dom h2 = dom h1 ->
  (forall x, val h1 x = val h x) -> dom h1 = dom h ->
  p ∈ dom h -> p ∉ s :: addrs t' ->
  exists h',
    bind m1 (fun q => bind (m2 q) (fun _ => free (Some p))) h1 = Some (tt, h') /\
    wf h' s t' /\
    (forall x, x <> p -> val h' x = val h x) /\ dom h' = dom h ∖ {[p]}.
Proof.
  intros Hrun Hwf2 Hval2 Hdom2 Hval1 Hdom1 Hp Hnotin.
  assert (Hp2 : is_Some (h2 !! p)).
  { apply elem_of_dom. by rewrite Hdom2, Hdom1. }
  destruct Hp2 as [np Hp2]. exists (delete p h2). split_all.
  - rewrite Hrun. by apply free_Some with np.
  - by apply wf_delete.
  - intros y Hy. by rewrite val_delete, Hval2, Hval1.
  - by rewrite dom_delete_L, Hdom2, Hdom1.
Qed.

(** Erasing a node with two children whose successor is its right
    child. *)
Lemma erase_self_succ_root h s c ll la lr p q qr fuel :
  wf h s (plug c (Nd (Nd ll la lr) p (Nd Lf q qr))) ->
  (length (addrs (plug c (Nd (Nd ll la lr) p (Nd Lf q qr)))) < fuel)%nat ->
  exists h',
    Node.erase_self fuel (Some p) h = Some (tt, h') /\
    wf h' s (rebalance (-1) (InR (Nd ll la lr) q :: c) qr) /\
    (forall x, x <> p -> val h' x = val h x) /\ dom h' = dom h ∖ {[p]}.
Proof.
  intros Hwf Hfuel.
  set (l := Nd ll la lr) in *. set (r := Nd Lf q qr) in *.
  pose proof (plug_length c (Nd l p r)) as Hlen.
  pose proof (card_plug c (Nd l p r)) as Hcp.
  pose proof (inorder_successor_plug h s c l p r fuel Hwf Hfuel) as Hsucc.
  pose proof Hwf as Hwf'. apply wf_plug in Hwf' as (Hnd & Hb & Hc & Hrep).
  pose proof Hnd as Hnd0.
  apply nodup_ctx_split in Hnd as (Hndc & Hndt & Hdisj & Hx).
  pose proof Hrep as ([vp Hp] & Hl & Hr).
  pose proof Hl as ([vla Hla] & Hll & Hlr).
  pose proof Hr as ([vq Hq] & _ & Hqr).
  assert (Hpc : p ∉ ctx_addrs s c).
  { simpl in Hdisj. norm_nodup_in Hdisj. destruct_and!. done. }
  destruct (rep_ctx_set_hole h s c p (Some q) (card (Nd l p r)) Hndc Hpc Hc)
    as (nx & Hnx & Hc1).
  set (x := ctx_par s c) in *.
  simpl in Hndt, Hdisj, Hx. norm_nodup_in Hndt. norm_nodup_in Hdisj. norm_nodup_in Hx.
  destruct_and!.
  subst l r. unfold Node.erase_self. msteps.
  rewrite (bind_Some _ _ _ _ _ Hsucc). simpl head. simpl default. msteps.
  rewrite ptr_eqb_refl. cbn [negb]. unfold Node.replace_self. msteps2.
  pose proof (card_nonneg ll). pose proof (card_nonneg lr). pose proof (card_nonneg qr).
  pose proof (card_nonneg (plug c Lf)).
  rewrite wrap_small by (simpl in *; unfold size_t_mod; alia).
  replace (card (Nd ll la lr) + card (Nd Lf q qr) + 1 - 1)
    with (card (Nd ll la lr) + card qr + 1) by (simpl; alia).
  match goal with |- context [bind (Node.balance_right _) _ ?H] => set (h1 := H) end.
  destruct (shrink_spec false h1 s c (Nd ll la lr) q qr fuel)
    as (h2 & Hrun & Hwf2 & Hval2 & Hdom2).
  { rewrite addrs_plug in Hnd0 |- *. simpl in Hnd0 |- *. norm_nodup_in Hnd0.
    destruct_and!. norm_nodup. split_all; distinct. }
  { rewrite card_plug in Hb |- *. simpl in *. alia. }
  { replace (card (Nd (Nd ll la lr) q qr) + 1) with (card (Nd (Nd ll la lr) p (Nd Lf q qr)))
      by (simpl; alia).
    unfold h1. rep_frame. }
  { unfold h1. rep_nodes. }
  { simpl in *. alia. }
  apply (erase_tail _ _ h h1 h2 s _ p); try done.
  - intros y. unfold h1. val_frame.
  - unfold h1. dom_frame.
  - by apply elem_of_dom_2 in Hp.
  - rewrite rebalance_addrs, addrs_plug. rewrite addrs_plug in Hnd0.
    simpl in Hnd0 |- *. norm_nodup_in Hnd0. destruct_and!. norm_nodup.
    split_all; distinct.
Qed.

(** Erasing a node with two children whose successor is the left child
    of its right child. *)
Lemma erase_self_succ_near h s c ll la lr p q qr ro rr fuel :
  wf h s (plug c (Nd (Nd ll la lr) p (Nd (Nd Lf q qr) ro rr))) ->
  (length (addrs (plug c (Nd (Nd ll la lr) p (Nd (Nd Lf q qr) ro rr)))) < fuel)%nat ->
  exists h',
    Node.erase_self fuel (Some p) h = Some (tt, h') /\
    wf h' s (rebalance (-1) (InL ro rr :: InR (Nd ll la lr) q :: c) qr) /\
    (forall x, x <> p -> val h' x = val h x) /\ dom h' = dom h ∖ {[p]}.
Proof.
  intros Hwf Hfuel.
  set (l := Nd ll la lr) in *. set (r := Nd (Nd Lf q qr) ro rr) in *.
  pose proof (plug_length c (Nd l p r)) as Hlen.
  pose proof (card_plug c (Nd l p r)) as Hcp.
  pose proof (inorder_successor_plug h s c l p r fuel Hwf Hfuel) as Hsucc.
  pose proof Hwf as Hwf'. apply wf_plug in Hwf' as (Hnd & Hb & Hc & Hrep).
  pose proof Hnd as Hnd0.
  apply nodup_ctx_split in Hnd as (Hndc & Hndt & Hdisj & Hx).
  pose proof Hrep as ([vp Hp] & Hl & Hr).
  pose proof Hl as ([vla Hla] & Hll & Hlr).
  pose proof Hr as ([vro Hro] & Hrl & Hrr).
  pose proof Hrl as ([vq Hq] & _ & Hqr).
  assert (Hpc : p ∉ ctx_addrs s c).
  { simpl in Hdisj. norm_nodup_in Hdisj. destruct_and!. done. }
  destruct (rep_ctx_set_hole h s c p (Some q) (card (Nd l p r)) Hndc Hpc Hc)
    as (nx & Hnx & Hc1).
  set (x := ctx_par s c) in *.
  simpl in Hndt, Hdisj, Hx. norm_nodup_in Hndt. norm_nodup_in Hdisj. norm_nodup_in Hx.
  destruct_and!.
  subst l r. unfold Node.erase_self. msteps.
  rewrite (bind_Some _ _ _ _ _ Hsucc). simpl head. simpl default. msteps.
  rewrite ptr_eqb_ne by congruence. cbn [negb]. unfold Node.replace_self. msteps2.
  pose proof (card_nonneg ll). pose proof (card_nonneg lr). pose proof (card_nonneg qr).
  pose proof (card_nonneg rr). pose proof (card_nonneg (plug c Lf)).
  rewrite wrap_small by (simpl in *; unfold size_t_mod; alia).
  match goal with |- context [bind (Node.balance_left _) _ ?H] => set (h1 := H) end.
  destruct (shrink_spec true h1 s (InR (Nd ll la lr) q :: c) qr ro rr fuel)
    as (h2 & Hrun & Hwf2 & Hval2 & Hdom2).
  { cbn [plug]. rewrite addrs_plug in Hnd0 |- *. simpl in Hnd0 |- *. norm_nodup_in Hnd0.
    destruct_and!. norm_nodup. split_all; distinct. }
  { cbn [plug]. rewrite card_plug in Hb |- *. simpl in *. alia. }
  { unfold h1. rep_nodes.
    replace (card (Nd ll la lr) + (card (Nd qr ro rr) + 1) + 1)
      with (card (Nd (Nd ll la lr) p (Nd (Nd Lf q qr) ro rr))) by (simpl; alia).
    rep_frame. }
  { unfold h1. rep_nodes. }
  { simpl in *. alia. }
  apply (erase_tail _ _ h h1 h2 s _ p); try done.
  - intros y. unfold h1. val_frame.
  - unfold h1. dom_frame.
  - by apply elem_of_dom_2 in Hp.
  - rewrite rebalance_addrs. cbn [plug]. rewrite addrs_plug. rewrite addrs_plug in Hnd0.
    simpl in Hnd0 |- *. norm_nodup_in Hnd0. destruct_and!. norm_nodup.
    split_all; distinct.
Qed.

(** Erasing a node with two children whose successor lies deeper along
    the left spine of its right subtree. *)
Lemma erase_self_succ_deep h s c ll la lr p q qr qp sib cm ro rr fuel :
  ctx_before cm = [] ->
  wf h s (plug c (Nd (Nd ll la lr) p
                    (Nd (plug cm (Nd (Nd Lf q qr) qp sib)) ro rr))) ->
  (length (addrs (plug c (Nd (Nd ll la lr) p
                    (Nd (plug cm (Nd (Nd Lf q qr) qp sib)) ro rr)))) < fuel)%nat ->
  exists h',
    Node.erase_self fuel (Some p) h = Some (tt, h') /\
    wf h' s (rebalance (-1)
               (InL qp sib :: cm ++ InL ro rr :: InR (Nd ll la lr) q :: c) qr) /\
    (forall x, x <> p -> val h' x = val h x) /\ dom h' = dom h ∖ {[p]}.
Proof.
  intros Hcm Hwf Hfuel.
  set (l := Nd ll la lr) in *.
  set (S0 := Nd (Nd Lf q qr) qp sib) in *.
  set (r := Nd (plug cm S0) ro rr) in *.
  pose proof (plug_length c (Nd l p r)) as Hlen.
  pose proof (card_plug c (Nd l p r)) as Hcp.
  pose proof (inorder_successor_plug h s c l p r fuel Hwf Hfuel) as Hsucc.
  assert (Hhead : head (addrs r ++ ctx_after c) = Some q).
  { unfold r. cbn [addrs]. rewrite addrs_plug, Hcm. done. }
  rewrite Hhead in Hsucc. simpl in Hsucc.
  pose proof Hwf as Hwf'. apply wf_plug in Hwf' as (Hnd & Hb & Hc & Hrep).
  pose proof Hnd as Hnd0.
  apply nodup_ctx_split in Hnd as (Hndc & Hndt & Hdisj & Hx).
  pose proof Hrep as ([vp Hp] & Hl & Hr).
  pose proof Hl as ([vla Hla] & Hll & Hlr).
  assert (Hpc : p ∉ ctx_addrs s c).
  { simpl in Hdisj. norm_nodup_in Hdisj. destruct_and!. done. }
  destruct (rep_ctx_set_hole h s c p (Some q) (card (Nd l p r)) Hndc Hpc Hc)
    as (nx & Hnx & Hc1).
  (* the context of the successor's parent *)
  assert (HwfC : wf h s (plug (cm ++ InL ro rr :: InR l p :: c) S0)).
  { by rewrite plug_app. }
  apply wf_plug in HwfC as (_ & _ & HC & HS0).
  apply rep_ctx_app in HC as (Hseg & HC2).
  rewrite ctx_par_app in HS0. cbn [ctx_par] in Hseg, HS0.
  pose proof HS0 as ([vqp Hqp] & Hq0 & Hsib).
  pose proof Hq0 as ([vq Hq] & _ & Hqr).
  destruct HC2 as ([vro Hro] & Hrr & _).
  rewrite seg_card_plug in Hro.
  set (x := ctx_par s c) in *.
  simpl in Hndt, Hdisj, Hx. rewrite !addrs_plug, Hcm in Hndt, Hdisj, Hx.
  simpl in Hndt, Hdisj, Hx.
  norm_nodup_in Hndt. norm_nodup_in Hdisj. norm_nodup_in Hx.
  destruct_and!.
  assert (Hbef : forall y : loc, y ∉ ctx_before cm) by (rewrite Hcm; set_solver).
  assert (Hbef' : forall k : list loc, Disj (ctx_before cm) k).
  { intros k. rewrite Hcm. by apply Disj_nil_l. }
  subst l r S0. unfold Node.erase_self. msteps.
  rewrite (bind_Some _ _ _ _ _ Hsucc). msteps.
  rewrite ptr_eqb_ne by congruence. cbn [negb]. unfold Node.replace_self. msteps2.
  pose proof (card_nonneg ll). pose proof (card_nonneg lr). pose proof (card_nonneg qr).
  pose proof (card_nonneg rr). pose proof (card_nonneg sib).
  pose proof (card_nonneg (plug c Lf)). pose proof (card_nonneg (plug cm Lf)).
  assert (Hcm1 : card (plug cm (Nd (Nd Lf q qr) qp sib)) =
                 card (plug cm (Nd qr qp sib)) + 1).
  { rewrite !(card_plug cm (Nd _ _ _)). simpl. alia. }
  assert (Hcm0 : card (plug cm (Nd qr qp sib)) = card qr + card sib + 1 + card (plug cm Lf)).
  { rewrite (card_plug cm (Nd _ _ _)). simpl. alia. }
  rewrite wrap_small by (cbn [card] in Hb, Hcp |- *; unfold size_t_mod; alia).
  match goal with |- context [bind (Node.balance_left _) _ ?H] => set (h1 := H) end.
  set (C' := cm ++ InL ro rr :: InR (Nd ll la lr) q :: c).
  assert (Hplug : forall t, plug C' t = plug c (Nd (Nd ll la lr) q (Nd (plug cm t) ro rr))).
  { intros t. unfold C'. by rewrite plug_app. }
  rewrite addrs_plug in Hnd0. cbn [addrs] in Hnd0. rewrite addrs_plug, Hcm in Hnd0.
  simpl in Hnd0. rewrite <- !app_assoc in Hnd0. simpl in Hnd0.
  rewrite <- !app_assoc in Hnd0. simpl in Hnd0.
  norm_nodup_in Hnd0. destruct_and!.
  assert (Hcard' : card (plug C' (Nd qr qp sib)) + 1 =
                   card (plug c (Nd (Nd ll la lr) p
                     (Nd (plug cm (Nd (Nd Lf q qr) qp sib)) ro rr)))).
  { rewrite Hplug, !(card_plug c (Nd _ _ _)). simpl. alia. }
  destruct (shrink_spec true h1 s C' qr qp sib fuel)
    as (h2 & Hrun & Hwf2 & Hval2 & Hdom2).
  { rewrite Hplug, addrs_plug. cbn [addrs]. rewrite addrs_plug, Hcm. simpl.
    rewrite <- !app_assoc. simpl. rewrite <- !app_assoc. simpl.
    norm_nodup. split_all; distinct. }
  { alia. }
  { apply rep_ctx_app. cbn [ctx_par]. split.
    - replace (card (Nd qr qp sib) + 1) with (card (Nd (Nd Lf q qr) qp sib))
        by (simpl; alia).
      unfold h1. rep_frame.
    - replace (card (Nd qr qp sib) + 1) with (card (Nd (Nd Lf q qr) qp sib))
        by (simpl; alia).
      rewrite seg_card_plug. unfold h1. rep_nodes. }
  { unfold C'. rewrite ctx_par_app. cbn [ctx_par]. unfold h1. rep_nodes. }
  { pose proof (plug_length C' (Nd qr qp sib)) as Hl'.
    rewrite !card_length in Hcard'. alia. }
  apply (erase_tail _ _ h h1 h2 s _ p); try done.
  - intros y. unfold h1. val_frame.
  - unfold h1. dom_frame.
  - by apply elem_of_dom_2 in Hp.
  - rewrite rebalance_addrs. cbn [plug]. fold C'.
    rewrite Hplug, addrs_plug. cbn [addrs]. rewrite addrs_plug, Hcm. simpl.
    rewrite <- !app_assoc. simpl. rewrite <- !app_assoc. simpl.
    norm_nodup. split_all; distinct.
Qed.
End EraseTwo.

Section EraseSpec.
Context {T : Type}.
Implicit Types h : gmap positive (node T).

(** [erase_self] on any node of a well-formed tree: the node is
    unlinked and freed, every other node keeps its place in the
    sequence and its value. *)
Lemma erase_self_spec h s c l p r fuel :
  wf h s (plug c (Nd l p r)) ->
  (length (addrs (plug c (Nd l p r))) < fuel)%nat ->
  exists h' t',
    Node.erase_self fuel (Some p) h = Some (tt, h') /\
    wf h' s t' /\
    addrs t' = ctx_before c ++ addrs l ++ addrs r ++ ctx_after c /\
    (forall x, x <> p -> val h' x = val h x) /\ dom h' = dom h ∖ {[p]}.
Proof.
  intros Hwf Hfuel.
  destruct l as [|ll la lr].
  { destruct (erase_self_one_child h s c Lf p r r fuel Hwf) as (h' & ? & ? & ? & ?);
      [by left|done|].
    exists h', (rebalance (-1) c r). split_all; try done.
    by rewrite rebalance_addrs, addrs_plug. }
  assert (r = Lf \/ r <> Lf) as [->|Hr] by (destruct r; [by left|by right]).
  { destruct (erase_self_one_child h s c (Nd ll la lr) p Lf (Nd ll la lr) fuel Hwf)
      as (h' & ? & ? & ? & ?); [by right|done|].
    exists h', (rebalance (-1) c (Nd ll la lr)). split_all; try done.
    by rewrite rebalance_addrs, addrs_plug. }
  destruct (leftmost_cases r Hr) as [(q & qr & ->)|[(q & qr & ro & rr & ->)|
    (q & qr & qp & sib & cm & ro & rr & -> & Hcm)]].
  - destruct (erase_self_succ_root h s c ll la lr p q qr fuel Hwf Hfuel)
      as (h' & ? & ? & ? & ?).
    eexists h', _. split_all; try done.
    rewrite rebalance_addrs. cbn [plug]. rewrite addrs_plug.
    repeat (progress (rewrite <- ?app_assoc; simpl)). done.
  - destruct (erase_self_succ_near h s c ll la lr p q qr ro rr fuel Hwf Hfuel)
      as (h' & ? & ? & ? & ?).
    eexists h', _. split_all; try done.
    rewrite rebalance_addrs. cbn [plug]. rewrite addrs_plug.
    repeat (progress (rewrite <- ?app_assoc; simpl)). done.
  - destruct (erase_self_succ_deep h s c ll la lr p q qr qp sib cm ro rr fuel Hcm Hwf Hfuel)
      as (h' & ? & ? & ? & ?).
    eexists h', _. split_all; try done.
    rewrite rebalance_addrs. cbn [plug]. rewrite plug_app. cbn [plug].
    rewrite addrs_plug. cbn [addrs]. rewrite !addrs_plug, Hcm.
    repeat (progress (rewrite <- ?app_assoc; simpl)). done.
Qed.
End EraseSpec.

(** ** The container facade *)

Section Contents.
Context {T : Type}.
Implicit Types h : gmap positive (node T).

Lemma contents_app h l k : contents h (l ++ k) = contents h l ++ contents h k.
Proof.
  induction l as [|a l IH]; simpl; [done|]. rewrite IH. by destruct (val h a).
Qed.

Lemma contents_cons h a l v :
  val h a = Some v -> contents h (a :: l) = v :: contents h l.
Proof. intros E. simpl. by rewrite E. Qed.

Lemma contents_ext h h' l :
  (forall a, a ∈ l -> val h' a = val h a) -> contents h' l = contents h l.
Proof.
  induction l as [|a l IH]; intros E; [done|]. simpl.
  rewrite E by set_solver. rewrite IH; [done|].
  intros b Hb. apply E. set_solver.
Qed.

Lemma contents_length h par t :
  rep h par t -> length (contents h (addrs t)) = length (addrs t).
Proof.
  intros Hrep.
  assert (H : forall a, a ∈ addrs t -> is_Some (val h a)) by (intros; by eapply rep_val).
  revert H. generalize (addrs t). intros l H.
  induction l as [|a l IH]; [done|].
  destruct (H a) as [v Hv]; [set_solver|].
  rewrite (contents_cons _ _ _ _ Hv). simpl. rewrite IH; [done|].
  intros b Hb. apply H. set_solver.
Qed.
End Contents.

Section Facade.
Context {T : Type}.
Implicit Types h : gmap positive (node T).

Lemma size_spec h s t : wf h s t -> Tree.size (Some s) h = Some (card t, h).
Proof.
  intros [_ _ [z Hs] Hrep]. unfold Tree.size, Tree.empty. msteps.
  destruct t as [|l a r]; msteps; [done|].
  destruct Hrep as ([v Ha] & _). by msteps.
Qed.

Lemma empty_spec h s t :
  wf h s t -> Tree.empty (Some s) h = Some (bool_decide (addrs t = []), h).
Proof.
  intros [_ _ [z Hs] Hrep]. unfold Tree.empty. msteps.
  destruct t as [|l a r]; simpl; [done|].
  rewrite bool_decide_eq_false_2; [done|]. by destruct (addrs l).
Qed.

Lemma addrs_attach c l n :
  addrs (rebalance 1 (right_ctx l ++ c) (Nd Lf n Lf)) =
    (ctx_before c ++ addrs l) ++ n :: ctx_after c.
Proof.
  rewrite rebalance_addrs, addrs_plug, ctx_before_app, ctx_after_app.
  by rewrite ctx_before_right_ctx, ctx_after_right_ctx.
Qed.

(** [insert(pos, v)] : the new node [n] lands immediately before [pos]
    (the head of [l2], or the end when [l2] is empty). *)
Lemma insert_seq h s t l1 l2 v fuel :
  wf h s t -> addrs t = l1 ++ l2 ->
  card t + 1 < 2 ^ 62 -> (length (addrs t) < fuel)%nat ->
  let n := fresh (dom h) in
  exists h' t',
    Tree.insert fuel (Some s) (Some (default s (head l2))) v h = Some (Some n, h') /\
    wf h' s t' /\ addrs t' = l1 ++ n :: l2 /\
    (n ∉ s :: addrs t) /\ val h' n = Some v /\
    (forall a, a <> n -> val h' a = val h a) /\ dom h' = {[n]} ∪ dom h.
Proof.
  intros Hwf E Hb Hfuel n.
  assert (Hn : n ∉ s :: addrs t).
  { intros Hin. apply (is_fresh (dom h)). by eapply wf_dom. }
  unfold Tree.insert.
  destruct l2 as [|pos l2]; simpl.
  - rewrite app_nil_r in E. subst l1.
    destruct (insert_before_self_spec h s [] t v fuel) as (h' & Hrun & Hwf' & Hv & Hval & Hdom);
      try done.
    exists h', (rebalance 1 (right_ctx t ++ []) (Nd Lf n Lf)).
    split_all; try done.
    by rewrite addrs_attach.
  - destruct (elem_of_addrs_plug t pos) as (c & l & r & ->).
    { rewrite E. set_solver. }
    destruct (insert_before_self_spec h s (InL pos r :: c) l v fuel)
      as (h' & Hrun & Hwf' & Hv & Hval & Hdom); try done.
    exists h', (rebalance 1 (right_ctx l ++ InL pos r :: c) (Nd Lf n Lf)).
    split_all; try done.
    rewrite addrs_attach. simpl.
    rewrite addrs_plug in E. simpl in E. rewrite <- !app_assoc in E.
    rewrite app_assoc in E. simpl in E.
    apply NoDup_split_inj in E as [<- <-]; [done|].
    destruct Hwf as [Hnd _ _ _]. apply NoDup_cons in Hnd as [_ Hnd].
    rewrite addrs_plug in Hnd. simpl in Hnd.
    by rewrite <- !app_assoc, app_assoc in Hnd.
Qed.

(** [erase(pos)] : the node is removed, its successor is returned. *)
Lemma erase_seq h s t l1 pos l2 fuel :
  wf h s t -> addrs t = l1 ++ pos :: l2 -> (length (addrs t) < fuel)%nat ->
  exists h' t',
    Tree.erase fuel (Some s) (Some pos) h = Some (Some (default s (head l2)), h') /\
    wf h' s t' /\ addrs t' = l1 ++ l2 /\
    (forall a, a <> pos -> val h' a = val h a) /\ dom h' = dom h ∖ {[pos]}.
Proof.
  intros Hwf E Hfuel.
  pose proof (inorder_successor_seq h s t l1 pos l2 fuel Hwf E Hfuel) as Hsucc.
  destruct (elem_of_addrs_plug t pos) as (c & l & r & ->).
  { rewrite E. set_solver. }
  destruct (erase_self_spec h s c l pos r fuel Hwf Hfuel)
    as (h' & t' & Hrun & Hwf' & Haddrs & Hval & Hdom).
  exists h', t'. unfold Tree.erase.
  rewrite (bind_Some _ _ _ _ _ Hsucc), (bind_Some _ _ _ _ _ Hrun).
  split_all; try done.
  rewrite Haddrs.
  rewrite addrs_plug in E. simpl in E. rewrite <- !app_assoc in E.
  rewrite app_assoc in E. simpl in E.
  apply NoDup_split_inj in E as [<- <-]; [by rewrite <- !app_assoc|].
  destruct Hwf as [Hnd _ _ _]. apply NoDup_cons in Hnd as [_ Hnd].
  rewrite addrs_plug in Hnd. simpl in Hnd.
  by rewrite <- !app_assoc, app_assoc in Hnd.
Qed.
End Facade.

(** ** Exchange: field-wise reasoning

    [exchange_nodes] rewires up to eight cells, some of which may
    coincide (the two parents, a child of one node and the parent of the
    other).  Its writes touch each field of each cell at most once, so the
    heap is followed field by field: an update of one field is invisible
    when another field is read. *)

Section Fields.
Context {T : Type}.
Implicit Types h : gmap positive (node T).

Lemma set_size_alter h a z :
  is_Some (h !! a) ->
  Node.set_size (Some a) z h = Some (tt, alter (fun n => with_size n z) a h).
Proof.
  intros [n Hn]. rewrite (set_size_Some _ _ _ _ Hn). do 2 f_equal.
  apply map_eq. intros y. rewrite lookup_alter, lookup_insert.
  case_decide; [subst; by rewrite Hn|done].
Qed.
Lemma set_left_alter h a q :
  is_Some (h !! a) ->
  Node.set_left (Some a) q h = Some (tt, alter (fun n => with_left n q) a h).
Proof.
  intros [n Hn]. rewrite (set_left_Some _ _ _ _ Hn). do 2 f_equal.
  apply map_eq. intros y. rewrite lookup_alter, lookup_insert.
  case_decide; [subst; by rewrite Hn|done].
Qed.
Lemma set_right_alter h a q :
  is_Some (h !! a) ->
  Node.set_right (Some a) q h = Some (tt, alter (fun n => with_right n q) a h).
Proof.
  intros [n Hn]. rewrite (set_right_Some _ _ _ _ Hn). do 2 f_equal.
  apply map_eq. intros y. rewrite lookup_alter, lookup_insert.
  case_decide; [subst; by rewrite Hn|done].
Qed.
Lemma set_parent_alter h a q :
  is_Some (h !! a) ->
  Node.set_parent (Some a) q h = Some (tt, alter (fun n => with_parent n q) a h).
Proof.
  intros [n Hn]. rewrite (set_parent_Some _ _ _ _ Hn). do 2 f_equal.
  apply map_eq. intros y. rewrite lookup_alter, lookup_insert.
  case_decide; [subst; by rewrite Hn|done].
Qed.
Lemma set_parent_if_alter h o q :
  (forall b, o = Some b -> is_Some (h !! b)) ->
  Node.set_parent_if o q h = Some (tt, alter_opt (fun n => with_parent n q) o h).
Proof.
  destruct o as [b|]; simpl; [|done]. intros H. apply set_parent_alter. by apply H.
Qed.
Lemma slot_set_alter h x f q :
  is_Some (h !! x) ->
  Node.slot_set (Some x, f) q h = Some (tt, alter (fun n => set_field n f q) x h).
Proof.
  intros H. unfold Node.slot_set, set_field. destruct f; simpl.
  - by apply set_left_alter.
  - by apply set_right_alter.
Qed.

(** Reading one field of a cell. *)
Lemma get_size_proj h a v :
  size_ <$> h !! a = Some v -> Node.get_size (Some a) h = Some (v, h).
Proof.
  destruct (h !! a) as [n|] eqn:E; [|done]. intros [= <-]. by apply get_size_Some.
Qed.
Lemma get_left_proj h a v :
  left_ <$> h !! a = Some v -> Node.get_left (Some a) h = Some (v, h).
Proof.
  destruct (h !! a) as [n|] eqn:E; [|done]. intros [= <-]. by apply get_left_Some.
Qed.
Lemma get_right_proj h a v :
  right_ <$> h !! a = Some v -> Node.get_right (Some a) h = Some (v, h).
Proof.
  destruct (h !! a) as [n|] eqn:E; [|done]. intros [= <-]. by apply get_right_Some.
Qed.
Lemma get_parent_proj h a v :
  parent_ <$> h !! a = Some v -> Node.get_parent (Some a) h = Some (v, h).
Proof.
  destruct (h !! a) as [n|] eqn:E; [|done]. intros [= <-]. by apply get_parent_Some.
Qed.
Lemma slot_get_proj h x f v :
  (match f with Node.FLeft => left_ | Node.FRight => right_ end) <$> h !! x = Some v ->
  Node.slot_get (Some x, f) h = Some (v, h).
Proof.
  unfold Node.slot_get. destruct f; simpl; [apply get_left_proj|apply get_right_proj].
Qed.

(** A field seen through an update. *)
Lemma proj_alter_inv {X} (proj : node T -> X) g a h y :
  (forall n, proj (g n) = proj n) -> proj <$> alter g a h !! y = proj <$> h !! y.
Proof.
  intros Hg. rewrite lookup_alter. case_decide; [subst|done].
  destruct (h !! y); simpl; [|done]. by rewrite Hg.
Qed.
Lemma proj_alter_ne {X} (proj : node T -> X) g a h y :
  a <> y -> proj <$> alter g a h !! y = proj <$> h !! y.
Proof. intros Hne. by rewrite lookup_alter_ne. Qed.
Lemma proj_alter_eq {X} (proj : node T -> X) g a h v :
  (forall n, proj (g n) = v) -> is_Some (h !! a) ->
  proj <$> alter g a h !! a = Some v.
Proof.
  intros Hg [n Hn]. rewrite lookup_alter_eq, Hn. simpl. by rewrite Hg.
Qed.
Lemma proj_alter_opt_inv {X} (proj : node T -> X) g o h y :
  (forall n, proj (g n) = proj n) -> proj <$> alter_opt g o h !! y = proj <$> h !! y.
Proof. destruct o; simpl; [apply proj_alter_inv|done]. Qed.
Lemma proj_alter_opt_ne {X} (proj : node T -> X) g o h y :
  o <> Some y -> proj <$> alter_opt g o h !! y = proj <$> h !! y.
Proof. destruct o; simpl; [|done]. intros. apply proj_alter_ne. congruence. Qed.
Lemma proj_alter_opt_eq {X} (proj : node T -> X) g h y v :
  (forall n, proj (g n) = v) -> is_Some (h !! y) ->
  proj <$> alter_opt g (Some y) h !! y = Some v.
Proof. apply proj_alter_eq. Qed.

Lemma is_Some_alter_opt g o h y :
  is_Some (alter_opt g o h !! y) <-> is_Some (h !! y).
Proof. destruct o; simpl; [apply lookup_alter_is_Some|done]. Qed.

Lemma dom_alter_opt g o h : dom (alter_opt g o h) = dom h.
Proof. destruct o; simpl; [apply dom_alter_L|done]. Qed.

Lemma val_alter h g a x :
  (forall n, value_ (g n) = value_ n) -> val (alter g a h) x = val h x.
Proof.
  intros Hg. unfold val. rewrite lookup_alter. case_decide; [subst|done].
  destruct (h !! x); simpl; [|done]. apply Hg.
Qed.
Lemma val_alter_opt h g o x :
  (forall n, value_ (g n) = value_ n) -> val (alter_opt g o h) x = val h x.
Proof. destruct o; simpl; [apply val_alter|done]. Qed.

Lemma set_field_size (nx : node T) f q : size_ (set_field nx f q) = size_ nx.
Proof. by destruct f. Qed.
Lemma set_field_parent (nx : node T) f q : parent_ (set_field nx f q) = parent_ nx.
Proof. by destruct f. Qed.

(** A cell is determined by its five fields. *)
Lemma cell_by_fields h y v z l r p :
  value_ <$> h !! y = Some v -> size_ <$> h !! y = Some z ->
  left_ <$> h !! y = Some l -> right_ <$> h !! y = Some r ->
  parent_ <$> h !! y = Some p ->
  h !! y = Some (mk_node v z l r p).
Proof.
  destruct (h !! y) as [[]|]; simpl; [|done]. by intros [= ->] [= ->] [= ->] [= ->] [= ->].
Qed.
End Fields.

(** Resolving a field read through a stack of updates. *)
Ltac is_some_stack :=
  repeat first [rewrite lookup_alter_is_Some | rewrite is_Some_alter_opt];
  first [eassumption | eexists; eassumption].

Ltac proj_field :=
  intros;
  first
    [ solve [apply set_field_value | apply set_field_size | apply set_field_parent]
    | cbv beta iota delta [with_size with_left with_right with_parent set_field];
      cbn [value_ size_ left_ right_ parent_]; reflexivity ].

Ltac proj_step :=
  first
    [ rewrite proj_alter_ne by distinct
    | rewrite proj_alter_opt_ne by distinct
    | rewrite proj_alter_inv by proj_field
    | rewrite proj_alter_opt_inv by proj_field
    | erewrite proj_alter_eq; [|proj_field|is_some_stack]
    | erewrite proj_alter_opt_eq; [|proj_field|is_some_stack] ].

Ltac proj_solve :=
  repeat proj_step;
  try reflexivity;
  try eassumption;
  try (match goal with
       | H : ?h !! ?y = Some _ |- _ <$> ?h !! ?y = _ => rewrite H; reflexivity
       end).

Ltac xstep :=
  lazymatch goal with
  | |- context [bind (ret _) _ _] => rewrite bind_ret
  | |- context [bind (bind _ _) _ _] => rewrite bind_bind
  | |- context [bind (Node.get_size (Some ?a)) ?k ?h] =>
      erewrite (bind_Some (Node.get_size (Some a)) k h)
        by (apply get_size_proj; proj_solve)
  | |- context [bind (Node.get_left (Some ?a)) ?k ?h] =>
      erewrite (bind_Some (Node.get_left (Some a)) k h)
        by (apply get_left_proj; proj_solve)
  | |- context [bind (Node.get_right (Some ?a)) ?k ?h] =>
      erewrite (bind_Some (Node.get_right (Some a)) k h)
        by (apply get_right_proj; proj_solve)
  | |- context [bind (Node.get_parent (Some ?a)) ?k ?h] =>
      erewrite (bind_Some (Node.get_parent (Some a)) k h)
        by (apply get_parent_proj; proj_solve)
  | |- context [bind (Node.slot_get (Some ?x, ?f)) ?k ?h] =>
      erewrite (bind_Some (Node.slot_get (Some x, f)) k h)
        by (apply slot_get_proj; proj_solve)
  | |- context [bind (Node.set_size (Some ?a) ?z) ?k ?h] =>
      rewrite (bind_Some (Node.set_size (Some a) z) k h _ _
                 (set_size_alter h a z ltac:(is_some_stack)))
  | |- context [bind (Node.set_left (Some ?a) ?q) ?k ?h] =>
      rewrite (bind_Some (Node.set_left (Some a) q) k h _ _
                 (set_left_alter h a q ltac:(is_some_stack)))
  | |- context [bind (Node.set_right (Some ?a) ?q) ?k ?h] =>
      rewrite (bind_Some (Node.set_right (Some a) q) k h _ _
                 (set_right_alter h a q ltac:(is_some_stack)))
  | |- context [bind (Node.set_parent (Some ?a) ?q) ?k ?h] =>
      rewrite (bind_Some (Node.set_parent (Some a) q) k h _ _
                 (set_parent_alter h a q ltac:(is_some_stack)))
  | |- context [bind (Node.slot_set (Some ?x, ?f) ?q) ?k ?h] =>
      rewrite (bind_Some (Node.slot_set (Some x, f) q) k h _ _
                 (slot_set_alter h x f q ltac:(is_some_stack)))
  end.

(** ** Exchange: the tree as a pointer graph *)

Lemma swap_l p q : swap p q p = q.
Proof. unfold swap. by rewrite decide_True. Qed.
Lemma swap_r p q : swap p q q = p.
Proof. unfold swap. case_decide; [done|]. by rewrite decide_True. Qed.
Lemma swap_ne p q a : a <> p -> a <> q -> swap p q a = a.
Proof. intros. unfold swap. by rewrite !decide_False. Qed.
Lemma swap_same p a : swap p p a = a.
Proof. unfold swap. by repeat case_decide. Qed.
Lemma swap_invol p q a : swap p q (swap p q a) = a.
Proof. unfold swap. repeat case_decide; congruence. Qed.
Lemma swap_inj p q : Inj (=) (=) (swap p q).
Proof. intros a b H. by rewrite <- (swap_invol p q a), H, swap_invol. Qed.
Lemma swap_comm p q a : swap p q a = swap q p a.
Proof. unfold swap. repeat case_decide; congruence. Qed.
Lemma swap_opt_ne p q (o : ptr) :
  o <> Some p -> o <> Some q -> swap p q <$> o = o.
Proof.
  destruct o as [a|]; simpl; [|done]. intros. rewrite swap_ne; congruence.
Qed.

Lemma addrs_rename f t : addrs (rename f t) = f <$> addrs t.
Proof.
  induction t as [|l IHl a r IHr]; simpl; [done|].
  by rewrite fmap_app, fmap_cons, IHl, IHr.
Qed.
Lemma card_rename f t : card (rename f t) = card t.
Proof. induction t as [|l IHl a r IHr]; simpl; lia. Qed.
Lemma root_rename f t : root (rename f t) = f <$> root t.
Proof. by destruct t. Qed.
Lemma balanced_rename f t : balanced (rename f t) <-> balanced t.
Proof.
  induction t as [|l IHl a r IHr]; simpl; [done|].
  by rewrite !card_rename, IHl, IHr.
Qed.
Lemma rename_id t : rename (fun a => a) t = t.
Proof. induction t as [|l IHl a r IHr]; simpl; congruence. Qed.
Lemma rename_ext f g t : (forall a, f a = g a) -> rename f t = rename g t.
Proof. intros H. induction t as [|l IHl a r IHr]; simpl; congruence. Qed.

Lemma elem_of_swap p q (l : list loc) a :
  p ∈ l -> q ∈ l -> a ∈ l -> swap p q a ∈ l.
Proof. intros. unfold swap. by repeat case_decide. Qed.

Section Graph.
Context {T : Type}.
Implicit Types h : gmap positive (node T).

Lemma root_Some_elem t b : root t = Some b -> exists l r, t = Nd l b r.
Proof. destruct t; simpl; [done|]. intros [= ->]. eauto. Qed.

Lemma wf_view h s t a :
  wf h s t -> a ∈ addrs t ->
  exists c l r v, t = plug c (Nd l a r) /\
    h !! a = Some (mk_node (Some v) (card l + card r + 1) (root l) (root r)
                     (Some (ctx_par s c))) /\
    rep h a l /\ rep h a r /\
    rep_ctx h s c (Some a) (card l + card r + 1) /\
    NoDup (ctx_addrs s c) /\ NoDup (addrs l ++ a :: addrs r) /\
    Disj (ctx_addrs s c) (addrs l ++ a :: addrs r).
Proof.
  intros Hwf Ha. destruct (elem_of_addrs_plug _ _ Ha) as (c & l & r & ->).
  apply wf_plug in Hwf as (Hnd & _ & Hc & ([v Hv] & Hl & Hr)).
  apply nodup_ctx_split in Hnd as (H1 & H2 & H3 & _).
  exists c, l, r, v. split_all; done.
Qed.

Lemma ctx_addrs_plug s c t x :
  x ∈ ctx_addrs s c -> x ∈ s :: addrs (plug c t).
Proof.
  unfold ctx_addrs. rewrite addrs_plug. set_solver.
Qed.

Lemma wf_graph h s t : wf h s t -> graph h s (addrs t).
Proof.
  intros Hwf. split.
  - destruct Hwf as [_ _ [z Hs] _]. eauto.
  - destruct Hwf as [Hnd _ _ _]. by apply NoDup_cons in Hnd as [? _].
  - intros a Ha.
    destruct (wf_view _ _ _ _ Hwf Ha) as (c & l & r & v & -> & Hc & Hl & Hr & Hctx & N1 & N2 & N3).
    assert (Hpin : ctx_par s c ∈ ctx_addrs s c) by apply ctx_par_elem_of.
    assert (Hain : a ∈ addrs l ++ a :: addrs r) by set_solver.
    assert (Hne : ctx_par s c <> a).
    { intros E. apply (N3 _ Hpin). by rewrite E. }
    destruct c as [|[x r'|l' x] c]; simpl in Hctx.
    + destruct Hctx as [z Hs].
      eexists _, _, _, _, _, _. split_all; [exact Hc| |done|exact Hs| |]; simpl.
      * set_solver.
      * by left.
      * simpl in Hne. congruence.
    + destruct Hctx as ([v' Hx] & _ & _).
      eexists _, _, _, _, _, _. split_all; [exact Hc| |done|exact Hx| |];
        cbn [left_ right_ parent_].
      * by apply ctx_addrs_plug.
      * by left.
      * intros [= E]. apply (N3 (ctx_par s c)); [|by rewrite E].
        unfold ctx_addrs in *. simpl.
        pose proof (ctx_par_elem_of s c) as H'. unfold ctx_addrs in H'.
        set_solver.
    + destruct Hctx as ([v' Hx] & _ & _).
      eexists _, _, _, _, _, _. split_all; [exact Hc| |done|exact Hx| |];
        cbn [left_ right_ parent_].
      * by apply ctx_addrs_plug.
      * by right.
      * intros [= E]. apply (N3 (ctx_par s c)); [|by rewrite E].
        unfold ctx_addrs in *. simpl.
        pose proof (ctx_par_elem_of s c) as H'. unfold ctx_addrs in H'.
        set_solver.
  - intros y ny b Hy Hny Hb. apply elem_of_cons in Hy as [->|Hy].
    + destruct Hwf as [_ _ [z Hs] Hrep]. rewrite Hs in Hny. injection Hny as <-.
      simpl in Hb. destruct Hb as [Hb|]; [|done].
      apply root_Some_elem in Hb as (l & r & ->). simpl in Hrep.
      destruct Hrep as ([v Hv] & _ & _). split; [set_solver|]. eauto.
    + destruct (wf_view _ _ _ _ Hwf Hy) as (c & l & r & v & -> & Hc & Hl & Hr & _).
      rewrite Hc in Hny. injection Hny as <-. simpl in Hb.
      rewrite addrs_plug. destruct Hb as [Hb|Hb].
      * apply root_Some_elem in Hb as (l1 & r1 & ->). simpl in Hl.
        destruct Hl as ([v' Hv'] & _ & _). split; [set_solver|]. eauto.
      * apply root_Some_elem in Hb as (l1 & r1 & ->). simpl in Hr.
        destruct Hr as ([v' Hv'] & _ & _). split; [set_solver|]. eauto.
  - intros y ny b Hy Hny Hb. apply elem_of_cons in Hy as [->|Hy].
    + destruct Hwf as [_ _ [z Hs] Hrep]. rewrite Hs in Hny. by injection Hny as <-.
    + destruct (wf_view _ _ _ _ Hwf Hy) as (c & l & r & v & -> & Hc & _ & _ & _ & _ & N2 & _).
      rewrite Hc in Hny. injection Hny as <-. simpl in *.
      apply root_Some_elem in Hb as (l1 & r1 & ->). intros Hb.
      apply root_Some_elem in Hb as (l2 & r2 & ->).
      apply NoDup_app in N2 as (_ & N2 & _). apply (N2 b); set_solver.
Qed.

Lemma rep_rename h h' f par t :
  rep h par t -> moved h h' f (addrs t) ->
  (forall a, a ∈ addrs t -> is_Some (val h (f a))) ->
  rep h' (f par) (rename f t).
Proof.
  revert par. induction t as [|l IHl a r IHr]; intros par; simpl; [done|].
  intros ([v Hv] & Hl & Hr) Hm Hval. split_all.
  - destruct (Hval a) as [v' Hv']; [set_solver|]. exists v'.
    rewrite (Hm a _ ltac:(set_solver) Hv). simpl.
    rewrite Hv'. rewrite (card_rename f l), (card_rename f r).
    by rewrite (root_rename f l), (root_rename f r).
  - apply IHl; [done| |].
    + intros b n Hb. apply Hm. set_solver.
    + intros b Hb. apply Hval. set_solver.
  - apply IHr; [done| |].
    + intros b n Hb. apply Hm. set_solver.
    + intros b Hb. apply Hval. set_solver.
Qed.

Lemma wf_moved h h' s t p q :
  wf h s t -> p ∈ addrs t -> q ∈ addrs t ->
  moved h h' (swap p q) (s :: addrs t) ->
  wf h' s (rename (swap p q) t).
Proof.
  intros Hwf Hp Hq Hm. pose proof Hwf as [Hnd Hb [z Hs] Hrep].
  assert (Hsp : s <> p) by (apply NoDup_cons in Hnd as [? _]; set_solver).
  assert (Hsq : s <> q) by (apply NoDup_cons in Hnd as [? _]; set_solver).
  assert (Hss : swap p q s = s) by by apply swap_ne.
  split.
  - rewrite addrs_rename, <- Hss, <- fmap_cons.
    apply NoDup_fmap; [apply swap_inj|done].
  - by rewrite card_rename.
  - simpl. rewrite root_rename.
    pose proof (Hm s _ ltac:(set_solver) Hs) as H'. rewrite Hss in H'.
    simpl in H'. rewrite Hss in H'. unfold val in H'. rewrite Hs in H'. simpl in H'.
    eauto.
  - rewrite <- Hss at 1. eapply rep_rename; [done| |].
    + intros a n Ha. apply Hm. set_solver.
    + intros a Ha. eapply rep_val; [exact Hrep|]. by apply elem_of_swap.
Qed.

Lemma graph_child h s D y ny b nb :
  graph h s D -> y ∈ s :: D -> h !! y = Some ny -> h !! b = Some nb ->
  left_ ny = Some b \/ right_ ny = Some b -> parent_ nb = Some y.
Proof.
  intros G Hy Hny Hnb Hb.
  destruct (g_child _ _ _ G y ny b Hy Hny Hb) as (_ & nb' & Hnb' & Hp).
  congruence.
Qed.

Lemma graph_child_ne h s D y ny b nb :
  graph h s D -> y ∈ s :: D -> h !! y = Some ny -> h !! b = Some nb ->
  parent_ nb <> Some y -> left_ ny <> Some b /\ right_ ny <> Some b.
Proof.
  intros G Hy Hny Hnb Hne.
  split; intros E; apply Hne; eapply graph_child; eauto.
Qed.

Lemma graph_child_in h s D y ny b :
  graph h s D -> y ∈ s :: D -> h !! y = Some ny ->
  left_ ny = Some b \/ right_ ny = Some b -> b ∈ D /\ is_Some (h !! b).
Proof.
  intros G Hy Hny Hb.
  destruct (g_child _ _ _ G y ny b Hy Hny Hb) as (? & nb' & Hnb' & Hp). eauto.
Qed.

Lemma graph_parent h s D a n x :
  graph h s D -> a ∈ D -> h !! a = Some n -> parent_ n = Some x ->
  x ∈ s :: D /\ x <> a /\
  exists nx, h !! x = Some nx /\
    (left_ nx = Some a \/ right_ nx = Some a) /\ parent_ nx <> Some a.
Proof.
  intros G Ha Hn Hx.
  destruct (g_node _ _ _ G a Ha) as (v & z & l & r & x' & nx & Hc & H1 & H2 & H3 & H4 & H5).
  rewrite Hc in Hn. injection Hn as <-. simpl in Hx. injection Hx as <-.
  split_all; eauto.
Qed.

Lemma graph_self h s D y ny :
  graph h s D -> y ∈ s :: D -> h !! y = Some ny ->
  left_ ny <> Some y /\ right_ ny <> Some y.
Proof.
  intros G Hy Hny.
  assert (forall b, left_ ny = Some b \/ right_ ny = Some b -> b <> y) as H.
  { intros b Hb ->.
    destruct (g_child _ _ _ G y ny y Hy Hny Hb) as (HyD & nb & Hnb & Hp).
    destruct (graph_parent _ _ _ _ _ _ G HyD Hnb Hp) as (_ & ? & _). done. }
  split; intros E; by eapply H; eauto.
Qed.

Lemma graph_sent h s D n :
  graph h s D -> h !! s = Some n ->
  value_ n = None /\ right_ n = None /\ parent_ n = Some s.
Proof.
  intros G Hn. destruct (g_sent _ _ _ G) as (z & l & Hs).
  rewrite Hs in Hn. by injection Hn as <-.
Qed.

Lemma graph_cell h s D a :
  graph h s D -> a ∈ D ->
  exists v z l r x, h !! a = Some (mk_node (Some v) z l r (Some x)).
Proof.
  intros G Ha.
  destruct (g_node _ _ _ G a Ha) as (v & z & l & r & x & nx & Hc & _). eauto 10.
Qed.
End Graph.

(** ** Exchange: evaluation *)

Ltac is_some_opt :=
  let b := fresh "b" in let Hb := fresh "Hb" in
  intros b Hb;
  repeat first [rewrite lookup_alter_is_Some | rewrite is_Some_alter_opt];
  eauto.

Lemma if_slot (b : bool) (x : ptr) :
  (if b then (x, Node.FLeft) else (x, Node.FRight)) =
  (x, if b then Node.FLeft else Node.FRight).
Proof. by destruct b. Qed.

Ltac xstep2 :=
  lazymatch goal with
  | |- context [bind (Node.set_parent_if ?o ?q) ?k ?h] =>
      rewrite (bind_Some (Node.set_parent_if o q) k h _ _
                 (set_parent_if_alter h o q ltac:(is_some_opt)))
  | |- context [if ?b then (?x, Node.FLeft) else (?x, Node.FRight)] =>
      rewrite (if_slot b x)
  | |- context [Node.ptr_eqb ?a ?a] => rewrite (ptr_eqb_refl a)
  | |- context [Node.ptr_eqb ?a ?b] => rewrite (ptr_eqb_ne a b) by distinct
  end.

Ltac xsimpl := cbv zeta; cbn [fst snd value_ size_ left_ right_ parent_]; cbv beta iota.
Ltac xsteps := xsimpl; repeat (first [xstep | xstep2]; xsimpl).

Ltac same_cell :=
  repeat match goal with
  | H1 : ?h !! ?k = Some _, H2 : ?h !! ?k = Some _ |- _ =>
      rewrite H1 in H2; injection H2 as ? ? ? ? ?; subst
  end.

Ltac decide_eqb :=
  repeat match goal with
  | |- context [Node.ptr_eqb ?a ?a] => rewrite (ptr_eqb_refl a)
  | |- context [Node.ptr_eqb ?a ?b] => rewrite (ptr_eqb_ne a b) by distinct
  end.

Ltac swap_simpl :=
  repeat match goal with
  | |- context [swap ?P ?Q <$> Some ?b] =>
      change (swap P Q <$> Some b) with (Some (swap P Q b))
  end;
  rewrite ?swap_l, ?swap_r;
  rewrite ?swap_opt_ne by distinct;
  rewrite ?swap_ne by distinct.

Ltac field_done := subst; same_cell; decide_eqb; swap_simpl; proj_solve.

Section Exchange.
Context {T : Type}.
Implicit Types h : gmap positive (node T).

Lemma alter_comm (f g : node T -> node T) a b h :
  a <> b -> alter f a (alter g b h) = alter g b (alter f a h).
Proof.
  intros Hne. apply map_eq. intros y. rewrite !lookup_alter.
  repeat case_decide; congruence.
Qed.

(** A child exchanged with its parent, called in either order. *)
Lemma exchange_adjacent h s D P Q nQ :
  graph h s D -> P ∈ D -> Q ∈ D ->
  h !! Q = Some nQ -> parent_ nQ = Some P ->
  exists h',
    Node.exchange_nodes (Some P) (Some Q) h = Some (tt, h') /\
    Node.exchange_nodes (Some Q) (Some P) h = Some (tt, h') /\
    moved h h' (swap P Q) (s :: D) /\
    dom h' = dom h /\ (forall x, val h' x = val h x).
Proof.
  intros G HPD HQD HQ HQp.
  destruct (graph_cell _ _ _ _ G HPD) as (vP & zP & lP & rP & pp & HP).
  destruct (graph_parent _ _ _ _ _ _ G HPD HP eq_refl) as (Hpp & N2 & npp & Hnpp & Hpc & Hppp).
  destruct (graph_parent _ _ _ _ _ _ G HQD HQ HQp) as (_ & N1 & nP' & HP' & Hside & HPp).
  rewrite HP in HP'. injection HP' as <-. cbn [left_ right_ parent_] in Hside, HPp.
  destruct (graph_cell _ _ _ _ G HQD) as (vQ & zQ & lQ & rQ & x & HQ').
  rewrite HQ' in HQ. injection HQ as <-. cbn [parent_] in HQp. injection HQp as ->.
  rename HQ' into HQ.
  assert (N3 : pp <> Q) by congruence.
  assert (HsP : s <> P) by (intros ->; by apply (g_nsent _ _ _ G)).
  assert (HsQ : s <> Q) by (intros ->; by apply (g_nsent _ _ _ G)).
  assert (HPin : P ∈ s :: D) by set_solver.
  assert (HQin : Q ∈ s :: D) by set_solver.
  destruct (graph_self _ _ _ _ _ G HPin HP) as [SP1 SP2].
  destruct (graph_self _ _ _ _ _ G HQin HQ) as [SQ1 SQ2].
  cbn [left_ right_] in SP1, SP2, SQ1, SQ2.
  destruct (graph_child_ne _ _ _ Q _ P _ G HQin HQ HP ltac:(simpl; congruence)) as [CQ1 CQ2].
  cbn [left_ right_] in CQ1, CQ2.
  pose proof (g_lr _ _ _ G P _ Q HPin HP) as Hlr. cbn [left_ right_] in Hlr.
  assert (AlP : forall b, lP = Some b -> is_Some (h !! b)).
  { intros b Hb. eapply graph_child_in; [done|exact HPin|exact HP|]. by left. }
  assert (ArP : forall b, rP = Some b -> is_Some (h !! b)).
  { intros b Hb. eapply graph_child_in; [done|exact HPin|exact HP|]. by right. }
  assert (AlQ : forall b, lQ = Some b -> is_Some (h !! b)).
  { intros b Hb. eapply graph_child_in; [done|exact HQin|exact HQ|]. by left. }
  assert (ArQ : forall b, rQ = Some b -> is_Some (h !! b)).
  { intros b Hb. eapply graph_child_in; [done|exact HQin|exact HQ|]. by right. }
  destruct npp as [vx zx lx rx px]. cbn [left_ right_ parent_] in Hpc, Hppp.
  assert (Hlr' : rP = Some Q -> Some Q <> lP) by (intros ? ?; apply Hlr; congruence).
  unfold Node.exchange_nodes, Node.owner.
  destruct Hside as [->| ->].
  - specialize (Hlr eq_refl). clear Hlr'.
    eexists. split; [xsteps; apply set_parent_if_alter; is_some_opt|].
    split.
    { xsteps. rewrite set_parent_if_alter by is_some_opt.
      by rewrite (alter_comm (fun n => with_size n zQ) (fun n => with_size n zP) P Q). }
    split_all.
    + intros a n Ha Hn.
      destruct (decide (a = P)) as [->|NP]; [|destruct (decide (a = Q)) as [->|NQ]].
      * rewrite HP in Hn. injection Hn as <-. rewrite swap_l.
        cbn [value_ size_ left_ right_ parent_ fmap option_fmap option_map].
        unfold val. rewrite HQ. cbn [value_].
        rewrite swap_r, (swap_opt_ne P Q rP), (swap_ne P Q pp) by done.
        apply cell_by_fields; proj_solve.
      * rewrite HQ in Hn. injection Hn as <-. rewrite swap_r.
        cbn [value_ size_ left_ right_ parent_ fmap option_fmap option_map].
        unfold val. rewrite HP. cbn [value_].
        rewrite swap_l, (swap_opt_ne P Q lQ), (swap_opt_ne P Q rQ) by done.
        apply cell_by_fields; proj_solve.
      * rewrite (swap_ne P Q a) by done. unfold val. rewrite Hn.
        destruct n as [v z l r x]. cbn [value_ size_ left_ right_ parent_].
        destruct (graph_child_ne _ _ _ a _ Q _ G Ha Hn HQ ltac:(simpl; congruence))
          as [E1 E1']. cbn [left_ right_] in E1, E1'.
        assert (E2 : a <> pp -> l <> Some P /\ r <> Some P).
        { intros Hne.
          apply (graph_child_ne _ _ _ a _ P _ G Ha Hn HP). simpl. congruence. }
        assert (E3 : rP = Some a -> x = Some P).
        { intros Hb. apply (graph_child _ _ _ P _ a _ G HPin HP Hn). by right. }
        assert (E4 : lQ = Some a \/ rQ = Some a -> x = Some Q).
        { intros Hb. apply (graph_child _ _ _ Q _ a _ G HQin HQ Hn Hb). }
        assert (E5 : x = Some P -> rP = Some a).
        { intros ->. apply elem_of_cons in Ha as [->|Ha].
          - destruct (graph_sent _ _ _ _ G Hn) as (_ & _ & E). simpl in E. congruence.
          - destruct (graph_parent _ _ _ _ _ _ G Ha Hn eq_refl) as (_ & _ & nx & Hnx & Hc & _).
            rewrite HP in Hnx. injection Hnx as <-. simpl in Hc.
            destruct Hc; congruence. }
        assert (E6 : x = Some Q -> lQ = Some a \/ rQ = Some a).
        { intros ->. apply elem_of_cons in Ha as [->|Ha].
          - destruct (graph_sent _ _ _ _ G Hn) as (_ & _ & E). simpl in E. congruence.
          - destruct (graph_parent _ _ _ _ _ _ G Ha Hn eq_refl) as (_ & _ & nx & Hnx & Hc & _).
            rewrite HQ in Hnx. by injection Hnx as <-. }
        apply cell_by_fields.
        -- proj_solve.
        -- proj_solve.
        -- destruct (decide (a = pp)) as [->|Hne].
           ++ rewrite Hnpp in Hn. injection Hn as -> -> -> -> ->.
              destruct (decide (l = Some P)) as [->|Hl].
              ** rewrite ptr_eqb_refl. cbn. rewrite swap_l. proj_solve.
              ** rewrite ptr_eqb_ne, swap_opt_ne by done. proj_solve.
           ++ destruct (E2 Hne). rewrite swap_opt_ne by done. proj_solve.
        -- destruct (decide (a = pp)) as [->|Hne].
           ++ rewrite Hnpp in Hn. injection Hn as -> -> -> -> ->.
              destruct (decide (l = Some P)) as [->|Hl].
              ** pose proof (g_lr _ _ _ G pp _ P Ha Hnpp eq_refl) as Hr.
                 cbn [right_] in Hr.
                 rewrite ptr_eqb_refl, swap_opt_ne by done. proj_solve.
              ** rewrite ptr_eqb_ne by done. destruct Hpc as [?| ->]; [done|].
                 cbn. rewrite swap_l. proj_solve.
           ++ destruct (E2 Hne). rewrite swap_opt_ne by done. proj_solve.
        -- destruct (decide (rP = Some a)) as [->|H1].
           { rewrite (E3 eq_refl). cbn. rewrite swap_l. proj_solve. }
           destruct (decide (rQ = Some a)) as [->|H2].
           { rewrite (E4 (or_intror eq_refl)). cbn. rewrite swap_r. proj_solve. }
           destruct (decide (lQ = Some a)) as [->|H3].
           { rewrite (E4 (or_introl eq_refl)). cbn. rewrite swap_r. proj_solve. }
           rewrite swap_opt_ne; [proj_solve| |]; intros E; [by apply H1, E5|].
           destruct (E6 E); done.
    + by rewrite ?dom_alter_opt, ?dom_alter_L.
    + intros y. by rewrite ?val_alter_opt, ?val_alter by proj_field.
  - specialize (Hlr' eq_refl). clear Hlr.
    assert (Hlr : lP <> Some Q) by congruence.
    eexists. split; [xsteps; apply set_parent_if_alter; is_some_opt|].
    split.
    { xsteps. rewrite set_parent_if_alter by is_some_opt.
      by rewrite (alter_comm (fun n => with_size n zQ) (fun n => with_size n zP) P Q). }
    split_all.
    + intros a n Ha Hn.
      destruct (decide (a = P)) as [->|NP]; [|destruct (decide (a = Q)) as [->|NQ]].
      * rewrite HP in Hn. injection Hn as <-. rewrite swap_l.
        cbn [value_ size_ left_ right_ parent_ fmap option_fmap option_map].
        unfold val. rewrite HQ. cbn [value_].
        rewrite swap_r, (swap_opt_ne P Q lP), (swap_ne P Q pp) by done.
        apply cell_by_fields; proj_solve.
      * rewrite HQ in Hn. injection Hn as <-. rewrite swap_r.
        cbn [value_ size_ left_ right_ parent_ fmap option_fmap option_map].
        unfold val. rewrite HP. cbn [value_].
        rewrite swap_l, (swap_opt_ne P Q lQ), (swap_opt_ne P Q rQ) by done.
        apply cell_by_fields; proj_solve.
      * rewrite (swap_ne P Q a) by done. unfold val. rewrite Hn.
        destruct n as [v z l r x]. cbn [value_ size_ left_ right_ parent_].
        destruct (graph_child_ne _ _ _ a _ Q _ G Ha Hn HQ ltac:(simpl; congruence))
          as [E1 E1']. cbn [left_ right_] in E1, E1'.
        assert (E2 : a <> pp -> l <> Some P /\ r <> Some P).
        { intros Hne.
          apply (graph_child_ne _ _ _ a _ P _ G Ha Hn HP). simpl. congruence. }
        assert (E3 : lP = Some a -> x = Some P).
        { intros Hb. apply (graph_child _ _ _ P _ a _ G HPin HP Hn). by left. }
        assert (E4 : lQ = Some a \/ rQ = Some a -> x = Some Q).
        { intros Hb. apply (graph_child _ _ _ Q _ a _ G HQin HQ Hn Hb). }
        assert (E5 : x = Some P -> lP = Some a).
        { intros ->. apply elem_of_cons in Ha as [->|Ha].
          - destruct (graph_sent _ _ _ _ G Hn) as (_ & _ & E). simpl in E. congruence.
          - destruct (graph_parent _ _ _ _ _ _ G Ha Hn eq_refl) as (_ & _ & nx & Hnx & Hc & _).
            rewrite HP in Hnx. injection Hnx as <-. simpl in Hc.
            destruct Hc; congruence. }
        assert (E6 : x = Some Q -> lQ = Some a \/ rQ = Some a).
        { intros ->. apply elem_of_cons in Ha as [->|Ha].
          - destruct (graph_sent _ _ _ _ G Hn) as (_ & _ & E). simpl in E. congruence.
          - destruct (graph_parent _ _ _ _ _ _ G Ha Hn eq_refl) as (_ & _ & nx & Hnx & Hc & _).
            rewrite HQ in Hnx. by injection Hnx as <-. }
        apply cell_by_fields.
        -- proj_solve.
        -- proj_solve.
        -- destruct (decide (a = pp)) as [->|Hne].
           ++ rewrite Hnpp in Hn. injection Hn as -> -> -> -> ->.
              destruct (decide (l = Some P)) as [->|Hl].
              ** rewrite ptr_eqb_refl. cbn. rewrite swap_l. proj_solve.
              ** rewrite ptr_eqb_ne, swap_opt_ne by done. proj_solve.
           ++ destruct (E2 Hne). rewrite swap_opt_ne by done. proj_solve.
        -- destruct (decide (a = pp)) as [->|Hne].
           ++ rewrite Hnpp in Hn. injection Hn as -> -> -> -> ->.
              destruct (decide (l = Some P)) as [->|Hl].
              ** pose proof (g_lr _ _ _ G pp _ P Ha Hnpp eq_refl) as Hr.
                 cbn [right_] in Hr.
                 rewrite ptr_eqb_refl, swap_opt_ne by done. proj_solve.
              ** rewrite ptr_eqb_ne by done. destruct Hpc as [?| ->]; [done|].
                 cbn. rewrite swap_l. proj_solve.
           ++ destruct (E2 Hne). rewrite swap_opt_ne by done. proj_solve.
        -- destruct (decide (lP = Some a)) as [->|H1].
           { rewrite (E3 eq_refl). cbn. rewrite swap_l. proj_solve. }
           destruct (decide (rQ = Some a)) as [->|H2].
           { rewrite (E4 (or_intror eq_refl)). cbn. rewrite swap_r. proj_solve. }
           destruct (decide (lQ = Some a)) as [->|H3].
           { rewrite (E4 (or_introl eq_refl)). cbn. rewrite swap_r. proj_solve. }
           rewrite swap_opt_ne; [proj_solve| |]; intros E; [by apply H1, E5|].
           destruct (E6 E); done.
    + by rewrite ?dom_alter_opt, ?dom_alter_L.
    + intros y. by rewrite ?val_alter_opt, ?val_alter by proj_field.
Qed.
End Exchange.

Section ExchangeFar.
Context {T : Type}.
Implicit Types h : gmap positive (node T).

(** The slot of a parent that holds a given child. *)
Lemma slot_of_child (vx : option T) zx lx rx px (P : loc) :
  lx = Some P \/ rx = Some P ->
  (match (if Node.ptr_eqb lx (Some P) then Node.FLeft else Node.FRight) with
   | Node.FLeft => left_
   | Node.FRight => right_
   end) (mk_node vx zx lx rx px) = Some P.
Proof.
  intros H. destruct (decide (lx = Some P)) as [->|Hne].
  - by rewrite ptr_eqb_refl.
  - rewrite ptr_eqb_ne by done. simpl. by destruct H.
Qed.

(** Two nodes that are not parent and child. *)
Lemma exchange_far h s D P Q nP nQ :
  graph h s D -> P ∈ D -> Q ∈ D -> P <> Q ->
  h !! P = Some nP -> h !! Q = Some nQ ->
  parent_ nP <> Some Q -> parent_ nQ <> Some P ->
  exists h',
    Node.exchange_nodes (Some P) (Some Q) h = Some (tt, h') /\
    moved h h' (swap P Q) (s :: D) /\
    dom h' = dom h /\ (forall x, val h' x = val h x).
Proof.
  intros G HPD HQD N1 HP HQ HPp HQp.
  destruct (graph_cell _ _ _ _ G HPD) as (vP & zP & lP & rP & pp & HP').
  rewrite HP' in HP. injection HP as <-. rename HP' into HP.
  destruct (graph_cell _ _ _ _ G HQD) as (vQ & zQ & lQ & rQ & qp & HQ').
  rewrite HQ' in HQ. injection HQ as <-. rename HQ' into HQ.
  cbn [parent_] in HPp, HQp.
  destruct (graph_parent _ _ _ _ _ _ G HPD HP eq_refl) as (Hpp & N2 & npp & Hnpp & Hpc & _).
  destruct (graph_parent _ _ _ _ _ _ G HQD HQ eq_refl) as (Hqp & N3 & nqp & Hnqp & Hqc & _).
  assert (N4 : pp <> Q) by congruence.
  assert (N5 : qp <> P) by congruence.
  assert (HsP : s <> P) by (intros ->; by apply (g_nsent _ _ _ G)).
  assert (HsQ : s <> Q) by (intros ->; by apply (g_nsent _ _ _ G)).
  assert (HPin : P ∈ s :: D) by set_solver.
  assert (HQin : Q ∈ s :: D) by set_solver.
  destruct (graph_self _ _ _ _ _ G HPin HP) as [SP1 SP2].
  destruct (graph_self _ _ _ _ _ G HQin HQ) as [SQ1 SQ2].
  destruct (graph_child_ne _ _ _ Q _ P _ G HQin HQ HP ltac:(simpl; congruence)) as [CQ1 CQ2].
  destruct (graph_child_ne _ _ _ P _ Q _ G HPin HP HQ ltac:(simpl; congruence)) as [CP1 CP2].
  cbn [left_ right_] in SP1, SP2, SQ1, SQ2, CQ1, CQ2, CP1, CP2.
  assert (AlP : forall b, lP = Some b -> is_Some (h !! b)).
  { intros b Hb. eapply graph_child_in; [done|exact HPin|exact HP|]. by left. }
  assert (ArP : forall b, rP = Some b -> is_Some (h !! b)).
  { intros b Hb. eapply graph_child_in; [done|exact HPin|exact HP|]. by right. }
  assert (AlQ : forall b, lQ = Some b -> is_Some (h !! b)).
  { intros b Hb. eapply graph_child_in; [done|exact HQin|exact HQ|]. by left. }
  assert (ArQ : forall b, rQ = Some b -> is_Some (h !! b)).
  { intros b Hb. eapply graph_child_in; [done|exact HQin|exact HQ|]. by right. }
  destruct npp as [vx zx lx rx px]. destruct nqp as [vy zy ly ry py].
  cbn [left_ right_ parent_] in Hpc, Hqc.
  pose proof (slot_of_child vx zx lx rx px P Hpc) as Hop.
  pose proof (slot_of_child vy zy ly ry py Q Hqc) as Hoq.
  assert (Hop' : (match (if Node.ptr_eqb lx (Some P) then Node.FLeft else Node.FRight) with
                  | Node.FLeft => left_ | Node.FRight => right_ end) <$> h !! pp
                 = Some (Some P)) by (by rewrite Hnpp; simpl; rewrite Hop).
  assert (Hoq' : (match (if Node.ptr_eqb ly (Some Q) then Node.FLeft else Node.FRight) with
                  | Node.FLeft => left_ | Node.FRight => right_ end) <$> h !! qp
                 = Some (Some Q)) by (by rewrite Hnqp; simpl; rewrite Hoq).
  unfold Node.exchange_nodes, Node.owner, Node.swap_slots.
  eexists. split; [xsteps; apply set_parent_if_alter; is_some_opt|].
  split_all.
  - intros a n Ha Hn.
    destruct (decide (a = P)) as [->|NP]; [|destruct (decide (a = Q)) as [->|NQ]].
    + rewrite HP in Hn. injection Hn as <-. rewrite swap_l.
      cbn [value_ size_ left_ right_ parent_ fmap option_fmap option_map].
      unfold val. rewrite HQ. cbn [value_].
      rewrite (swap_opt_ne P Q lP), (swap_opt_ne P Q rP), (swap_ne P Q pp) by done.
      apply cell_by_fields; proj_solve.
    + rewrite HQ in Hn. injection Hn as <-. rewrite swap_r.
      cbn [value_ size_ left_ right_ parent_ fmap option_fmap option_map].
      unfold val. rewrite HP. cbn [value_].
      rewrite (swap_opt_ne P Q lQ), (swap_opt_ne P Q rQ), (swap_ne P Q qp) by done.
      apply cell_by_fields; proj_solve.
    + rewrite (swap_ne P Q a) by done. unfold val. rewrite Hn.
      destruct n as [v z l r x]. cbn [value_ size_ left_ right_ parent_].
      assert (Ep : a = pp <-> (l = Some P \/ r = Some P)).
      { split.
        - intros ->. rewrite Hnpp in Hn. by injection Hn as -> -> -> -> ->.
        - intros Hb.
          pose proof (graph_child _ _ _ a _ P _ G Ha Hn HP Hb) as E.
          simpl in E. congruence. }
      assert (Eq : a = qp <-> (l = Some Q \/ r = Some Q)).
      { split.
        - intros ->. rewrite Hnqp in Hn. by injection Hn as -> -> -> -> ->.
        - intros Hb.
          pose proof (graph_child _ _ _ a _ Q _ G Ha Hn HQ Hb) as E.
          simpl in E. congruence. }
      assert (E3 : lP = Some a \/ rP = Some a -> x = Some P).
      { intros Hb. apply (graph_child _ _ _ P _ a _ G HPin HP Hn Hb). }
      assert (E4 : lQ = Some a \/ rQ = Some a -> x = Some Q).
      { intros Hb. apply (graph_child _ _ _ Q _ a _ G HQin HQ Hn Hb). }
      assert (E5 : x = Some P -> lP = Some a \/ rP = Some a).
      { intros ->. apply elem_of_cons in Ha as [->|Ha].
        - destruct (graph_sent _ _ _ _ G Hn) as (_ & _ & E). simpl in E. congruence.
        - destruct (graph_parent _ _ _ _ _ _ G Ha Hn eq_refl) as (_ & _ & nx & Hnx & Hc & _).
          rewrite HP in Hnx. by injection Hnx as <-. }
      assert (E6 : x = Some Q -> lQ = Some a \/ rQ = Some a).
      { intros ->. apply elem_of_cons in Ha as [->|Ha].
        - destruct (graph_sent _ _ _ _ G Hn) as (_ & _ & E). simpl in E. congruence.
        - destruct (graph_parent _ _ _ _ _ _ G Ha Hn eq_refl) as (_ & _ & nx & Hnx & Hc & _).
          rewrite HQ in Hnx. by injection Hnx as <-. }
      assert (E7 : forall b, l = Some b -> r <> Some b).
      { intros b Hb. by apply (g_lr _ _ _ G a _ b Ha Hn). }
      clear Hop Hoq Hop' Hoq' Hpc Hqc.
      apply cell_by_fields.
      * proj_solve.
      * proj_solve.
      * destruct (decide (l = Some P)) as [El|El];
        destruct (decide (l = Some Q)) as [El'|El'];
        destruct (decide (r = Some P)) as [Er|Er];
        destruct (decide (r = Some Q)) as [Er'|Er'];
        try congruence;
        try (exfalso; eapply E7; eassumption);
        (destruct (decide (a = pp)) as [Xp|Xp];
          [try (apply Ep in Xp; tauto)|try (exfalso; apply Xp, Ep; tauto)]);
        (destruct (decide (a = qp)) as [Xq|Xq];
          [try (apply Eq in Xq; tauto)|try (exfalso; apply Xq, Eq; tauto)]).
        all: try solve [field_done].
      * destruct (decide (l = Some P)) as [El|El];
        destruct (decide (l = Some Q)) as [El'|El'];
        destruct (decide (r = Some P)) as [Er|Er];
        destruct (decide (r = Some Q)) as [Er'|Er'];
        try congruence;
        try (exfalso; eapply E7; eassumption);
        (destruct (decide (a = pp)) as [Xp|Xp];
          [try (apply Ep in Xp; tauto)|try (exfalso; apply Xp, Ep; tauto)]);
        (destruct (decide (a = qp)) as [Xq|Xq];
          [try (apply Eq in Xq; tauto)|try (exfalso; apply Xq, Eq; tauto)]).
        all: try solve [field_done].
      * destruct (decide (rP = Some a)) as [->|H1].
        { rewrite (E3 (or_intror eq_refl)). swap_simpl. proj_solve. }
        destruct (decide (lP = Some a)) as [->|H2].
        { rewrite (E3 (or_introl eq_refl)). swap_simpl. proj_solve. }
        destruct (decide (rQ = Some a)) as [->|H3].
        { rewrite (E4 (or_intror eq_refl)). swap_simpl. proj_solve. }
        destruct (decide (lQ = Some a)) as [->|H4].
        { rewrite (E4 (or_introl eq_refl)). swap_simpl. proj_solve. }
        rewrite swap_opt_ne; [proj_solve| |]; intros E;
          [destruct (E5 E); done|destruct (E6 E); done].
  - by rewrite ?dom_alter_opt, ?dom_alter_L.
  - intros y. by rewrite ?val_alter_opt, ?val_alter by proj_field.
Qed.
End ExchangeFar.

Section ExchangeSame.
Context {T : Type}.
Implicit Types h : gmap positive (node T).

Lemma swap_same_opt p (o : ptr) : swap p p <$> o = o.
Proof. destruct o; simpl; [|done]. by rewrite swap_same. Qed.

(** A node exchanged with itself: every write stores what is there. *)
Lemma exchange_same h s D P :
  graph h s D -> P ∈ D ->
  exists h',
    Node.exchange_nodes (Some P) (Some P) h = Some (tt, h') /\
    moved h h' (swap P P) (s :: D) /\
    dom h' = dom h /\ (forall x, val h' x = val h x).
Proof.
  intros G HPD.
  destruct (graph_cell _ _ _ _ G HPD) as (vP & zP & lP & rP & pp & HP).
  destruct (graph_parent _ _ _ _ _ _ G HPD HP eq_refl) as (Hpp & N2 & npp & Hnpp & Hpc & _).
  assert (HsP : s <> P) by (intros ->; by apply (g_nsent _ _ _ G)).
  assert (HPin : P ∈ s :: D) by set_solver.
  destruct (graph_self _ _ _ _ _ G HPin HP) as [SP1 SP2].
  cbn [left_ right_] in SP1, SP2.
  assert (AlP : forall b, lP = Some b -> is_Some (h !! b)).
  { intros b Hb. eapply graph_child_in; [done|exact HPin|exact HP|]. by left. }
  assert (ArP : forall b, rP = Some b -> is_Some (h !! b)).
  { intros b Hb. eapply graph_child_in; [done|exact HPin|exact HP|]. by right. }
  destruct npp as [vx zx lx rx px].
  cbn [left_ right_ parent_] in Hpc.
  pose proof (slot_of_child vx zx lx rx px P Hpc) as Hop.
  assert (Hop' : (match (if Node.ptr_eqb lx (Some P) then Node.FLeft else Node.FRight) with
                  | Node.FLeft => left_ | Node.FRight => right_ end) <$> h !! pp
                 = Some (Some P)) by (by rewrite Hnpp; simpl; rewrite Hop).
  unfold Node.exchange_nodes, Node.owner, Node.swap_slots.
  eexists. split; [xsteps; apply set_parent_if_alter; is_some_opt|].
  split_all.
  - intros a n Ha Hn. rewrite swap_same, !swap_same_opt.
    destruct (decide (a = P)) as [->|NP].
    + rewrite HP in Hn. injection Hn as <-.
      cbn [value_ size_ left_ right_ parent_].
      unfold val. rewrite HP. cbn [value_].
      apply cell_by_fields; proj_solve.
    + unfold val. rewrite Hn.
      destruct n as [v z l r x]. cbn [value_ size_ left_ right_ parent_].
      assert (Ep : a = pp <-> (l = Some P \/ r = Some P)).
      { split.
        - intros ->. rewrite Hnpp in Hn. by injection Hn as -> -> -> -> ->.
        - intros Hb.
          pose proof (graph_child _ _ _ a _ P _ G Ha Hn HP Hb) as E.
          simpl in E. congruence. }
      assert (E3 : lP = Some a \/ rP = Some a -> x = Some P).
      { intros Hb. apply (graph_child _ _ _ P _ a _ G HPin HP Hn Hb). }
      assert (E7 : forall b, l = Some b -> r <> Some b).
      { intros b Hb. by apply (g_lr _ _ _ G a _ b Ha Hn). }
      clear Hop Hop' Hpc.
      apply cell_by_fields.
      * proj_solve.
      * proj_solve.
      * destruct (decide (l = Some P)) as [El|El];
        destruct (decide (r = Some P)) as [Er|Er];
        try (exfalso; eapply E7; eassumption);
        (destruct (decide (a = pp)) as [Xp|Xp];
          [try (apply Ep in Xp; tauto)|try (exfalso; apply Xp, Ep; tauto)]).
        all: try solve [field_done].
      * destruct (decide (l = Some P)) as [El|El];
        destruct (decide (r = Some P)) as [Er|Er];
        try (exfalso; eapply E7; eassumption);
        (destruct (decide (a = pp)) as [Xp|Xp];
          [try (apply Ep in Xp; tauto)|try (exfalso; apply Xp, Ep; tauto)]).
        all: try solve [field_done].
      * destruct (decide (rP = Some a)) as [->|H1].
        { rewrite (E3 (or_intror eq_refl)). proj_solve. }
        destruct (decide (lP = Some a)) as [->|H2].
        { rewrite (E3 (or_introl eq_refl)). proj_solve. }
        proj_solve.
  - by rewrite ?dom_alter_opt, ?dom_alter_L.
  - intros y. by rewrite ?val_alter_opt, ?val_alter by proj_field.
Qed.

(** [exchange_nodes] on any two nodes of a well-formed tree: the two
    addresses trade places in the shape, sizes stay with the places and
    values stay with the nodes. *)
Lemma exchange_nodes_spec h s t p q :
  wf h s t -> p ∈ addrs t -> q ∈ addrs t ->
  exists h',
    Node.exchange_nodes (Some p) (Some q) h = Some (tt, h') /\
    wf h' s (rename (swap p q) t) /\
    dom h' = dom h /\ (forall x, val h' x = val h x).
Proof.
  intros Hwf Hp Hq. pose proof (wf_graph _ _ _ Hwf) as G.
  assert (exists h',
    Node.exchange_nodes (Some p) (Some q) h = Some (tt, h') /\
    moved h h' (swap p q) (s :: addrs t) /\
    dom h' = dom h /\ (forall x, val h' x = val h x)) as (h' & Hrun & Hm & Hd & Hv).
  { destruct (decide (p = q)) as [->|Hne]; [by eapply exchange_same|].
    destruct (graph_cell _ _ _ _ G Hp) as (vP & zP & lP & rP & pp & HP).
    destruct (graph_cell _ _ _ _ G Hq) as (vQ & zQ & lQ & rQ & qp & HQ).
    destruct (decide (pp = q)) as [->|N1].
    { destruct (exchange_adjacent _ _ _ q p _ G Hq Hp HP eq_refl)
        as (h' & _ & Hrun & Hm & Hd & Hv).
      exists h'. split_all; try done.
      intros a n Ha Hn. rewrite !(swap_comm p q).
      erewrite (option_fmap_ext (swap p q)), (option_fmap_ext (swap p q) _ (right_ n)),
        (option_fmap_ext (swap p q) _ (parent_ n)); [by apply Hm| | |];
        intros; apply swap_comm. }
    destruct (decide (qp = p)) as [->|N2].
    { destruct (exchange_adjacent _ _ _ p q _ G Hp Hq HQ eq_refl)
        as (h' & Hrun & _ & Hm & Hd & Hv). eauto. }
    eapply exchange_far; eauto; simpl; congruence. }
  exists h'. split_all; try done. by eapply wf_moved.
Qed.
End ExchangeSame.

(** ** Ranks, walks and sequences of mutations *)

Section ClientFacts.
Context {T : Type}.
Implicit Types h : gmap positive (node T).

Lemma at_rank_head s l : at_rank s l 0 = default s (head l).
Proof. unfold at_rank. by rewrite head_lookup. Qed.

Lemma at_rank_end s l k : (length l <= k)%nat -> at_rank s l k = s.
Proof. intros. unfold at_rank. by rewrite lookup_ge_None_2. Qed.

Lemma at_rank_split s l k :
  (k < length l)%nat -> l = take k l ++ at_rank s l k :: drop (S k) l.
Proof.
  intros Hk. destruct (lookup_lt_is_Some_2 l k Hk) as [x Hx].
  unfold at_rank. rewrite Hx. simpl. by rewrite take_drop_middle.
Qed.

Lemma at_rank_elem s l k : (k < length l)%nat -> at_rank s l k ∈ l.
Proof.
  intros Hk. destruct (lookup_lt_is_Some_2 l k Hk) as [x Hx].
  unfold at_rank. rewrite Hx. simpl. by eapply list_elem_of_lookup_2.
Qed.

Lemma incr_rank h s t k fuel :
  wf h s t -> (length (addrs t) < fuel)%nat -> (k < length (addrs t))%nat ->
  Tree.incr fuel (Some (at_rank s (addrs t) k)) h =
    Some (Some (at_rank s (addrs t) (S k)), h).
Proof.
  intros Hwf Hfuel Hk. unfold Tree.incr.
  rewrite (inorder_successor_seq h s t _ _ _ fuel Hwf (at_rank_split s _ k Hk) Hfuel).
  by rewrite head_lookup, lookup_drop, Nat.add_0_r.
Qed.

Lemma next_rank h s t i k fuel :
  wf h s t -> (length (addrs t) < fuel)%nat -> (i + k <= length (addrs t))%nat ->
  Client.next fuel k (Some (at_rank s (addrs t) i)) h =
    Some (Some (at_rank s (addrs t) (i + k)), h).
Proof.
  intros Hwf Hfuel. revert i. induction k as [|k IH]; intros i Hik; simpl.
  - by rewrite Nat.add_0_r.
  - rewrite (bind_Some _ _ _ _ _ (incr_rank h s t i fuel Hwf Hfuel ltac:(lia))).
    rewrite IH by lia. do 4 f_equal. lia.
Qed.

Lemma begin_next h s t k fuel :
  wf h s t -> (length (addrs t) < fuel)%nat -> (k <= length (addrs t))%nat ->
  (let! b := Tree.begin fuel (Some s) in Client.next fuel k b) h =
    Some (Some (at_rank s (addrs t) k), h).
Proof.
  intros Hwf Hfuel Hk.
  rewrite (bind_Some _ _ _ _ _ (begin_spec h s t fuel Hwf Hfuel)).
  rewrite <- at_rank_head. by rewrite (next_rank h s t 0 k fuel).
Qed.
End ClientFacts.

Section Walks.
Context {T : Type}.
Implicit Types h : gmap positive (node T).

Lemma wf_not_sentinel h s t a : wf h s t -> a ∈ addrs t -> a <> s.
Proof.
  intros [Hnd _ _ _] Ha ->. by apply NoDup_cons in Hnd as [? _].
Qed.

Lemma forward_loop h s t fuel f l1 l2 acc :
  wf h s t -> addrs t = l1 ++ l2 -> (length (addrs t) < fuel)%nat ->
  (length l2 < f)%nat ->
  while f
    (fun st : ptr * list ptr => ret (negb (Node.ptr_eqb (fst st) (Some s))))
    (fun st => let! it := Tree.incr fuel (fst st) in ret (it, snd st ++ [fst st]))
    (Some (default s (head l2)), acc) h =
  Some ((Some s, acc ++ (Some <$> l2)), h).
Proof.
  intros Hwf E Hfuel. revert f l1 acc E.
  induction l2 as [|p l2 IH]; intros f l1 acc E Hf;
    (destruct f as [|f]; [simpl in Hf; lia|]); rewrite while_S; simpl.
  - rewrite bind_ret, ptr_eqb_refl. simpl. by rewrite app_nil_r.
  - assert (p <> s).
    { eapply wf_not_sentinel; [done|]. rewrite E. set_solver. }
    rewrite bind_ret, ptr_eqb_Some_ne by done. simpl.
    rewrite bind_bind.
    rewrite (bind_Some (Tree.incr fuel (Some p)) _ _ _ _
               (inorder_successor_seq h s t l1 p l2 fuel Hwf E Hfuel)).
    rewrite bind_ret. simpl.
    rewrite (IH f (l1 ++ [p]) (acc ++ [Some p])); [|by rewrite <- app_assoc|simpl in Hf; lia].
    by rewrite <- app_assoc.
Qed.

Lemma forward_spec h s t fuel :
  wf h s t -> (length (addrs t) < fuel)%nat ->
  Client.forward fuel (Some s) h = Some (Some <$> addrs t, h).
Proof.
  intros Hwf Hfuel. unfold Client.forward, Tree.end_.
  rewrite (bind_Some _ _ _ _ _ (begin_spec h s t fuel Hwf Hfuel)).
  rewrite bind_ret.
  by rewrite (bind_Some _ _ _ _ _ (forward_loop h s t fuel fuel [] (addrs t) [] Hwf eq_refl Hfuel Hfuel)).
Qed.

Lemma backward_loop h s t fuel f l1 l2 acc :
  wf h s t -> addrs t = l1 ++ l2 -> (length (addrs t) < fuel)%nat ->
  (length l1 < f)%nat ->
  while f
    (fun st : ptr * list ptr =>
       ret (negb (Node.ptr_eqb (fst st) (Some (default s (head (addrs t)))))))
    (fun st => let! it := Tree.decr fuel (fst st) in ret (it, snd st ++ [it]))
    (Some (default s (head l2)), acc) h =
  Some ((Some (default s (head (addrs t))), acc ++ (Some <$> rev l1)), h).
Proof.
  intros Hwf E Hfuel. revert f l2 acc E.
  induction l1 as [|p l1 IH] using rev_ind; intros f l2 acc E Hf;
    (destruct f as [|f]; [simpl in Hf; lia|]); rewrite while_S; simpl.
  - simpl in E. rewrite E, bind_ret, ptr_eqb_refl. simpl. by rewrite app_nil_r.
  - rewrite length_app in Hf. simpl in Hf.
    pose proof Hwf as [Hnd _ _ _]. rewrite E in Hnd.
    assert (Hne : default s (head l2) <> default s (head (addrs t))).
    { rewrite E. destruct l1 as [|b l1]; simpl in *.
      - destruct l2 as [|c l2]; simpl.
        + intros <-. apply NoDup_cons in Hnd as [? _]. set_solver.
        + intros <-. apply NoDup_cons in Hnd as [_ Hnd].
          apply NoDup_cons in Hnd as [? _]. set_solver.
      - destruct l2 as [|c l2]; simpl.
        + intros <-. apply NoDup_cons in Hnd as [? _]. set_solver.
        + intros <-. apply NoDup_cons in Hnd as [_ Hnd].
          apply NoDup_cons in Hnd as [Hb _]. apply Hb. set_solver. }
    rewrite bind_ret, ptr_eqb_Some_ne by done. simpl.
    rewrite bind_bind.
    assert (Hpred : Tree.decr fuel (Some (default s (head l2))) h =
                    Some (Some p, h)).
    { unfold Tree.decr. destruct l2 as [|c l2]; simpl.
      - rewrite (inorder_predecessor_sentinel h s t fuel Hwf Hfuel).
        rewrite E, app_nil_r, last_snoc. done.
      - rewrite (inorder_predecessor_seq h s t (l1 ++ [p]) c l2 fuel Hwf E Hfuel).
        by rewrite last_snoc. }
    rewrite (bind_Some _ _ _ _ _ Hpred), bind_ret. simpl.
    change (Some p) with (Some (default s (head (p :: l2)))) at 1.
    rewrite (IH f (p :: l2) (acc ++ [Some p])); [|by rewrite E, <- app_assoc|lia].
    by rewrite rev_unit, <- app_assoc.
Qed.

Lemma backward_spec h s t fuel :
  wf h s t -> (length (addrs t) < fuel)%nat ->
  Client.backward fuel (Some s) h = Some (Some <$> rev (addrs t), h).
Proof.
  intros Hwf Hfuel. unfold Client.backward, Tree.end_.
  rewrite (bind_Some _ _ _ _ _ (begin_spec h s t fuel Hwf Hfuel)).
  rewrite bind_ret.
  pose proof (backward_loop h s t fuel fuel (addrs t) [] [] Hwf
                ltac:(by rewrite app_nil_r) Hfuel Hfuel) as H.
  simpl in H. by rewrite (bind_Some _ _ _ _ _ H).
Qed.
End Walks.

Section Sequences.
Context {T : Type}.
Implicit Types h : gmap positive (node T).

Lemma bind_bind_Some {A B C} (m : M (T:=T) A) (k : A -> M B) (K : B -> M C) h b h' :
  bind m k h = Some (b, h') -> bind m (fun a => bind (k a) K) h = K b h'.
Proof. intros H. by rewrite <- bind_bind, (bind_Some _ _ _ _ _ H). Qed.

Lemma at_rank_drop s l k : at_rank s l k = default s (head (drop k l)).
Proof. unfold at_rank. by rewrite head_lookup, lookup_drop, Nat.add_0_r. Qed.

(** One mutation at valid ranks runs to completion and keeps the tree
    well formed; the number of nodes changes as expected. *)
Lemma run_op_spec h s t (o : Client.op (T:=T)) fuel :
  wf h s t -> Client.ops_ok (length (addrs t)) [o] = true ->
  (length (addrs t) < fuel)%nat -> card t + 1 < 2 ^ 62 ->
  exists h' t',
    Client.run_op fuel (Some s) o h = Some (tt, h') /\ wf h' s t' /\
    card t' = card t + Client.insertions [o] - Client.deletions [o].
Proof.
  intros Hwf Hok Hfuel Hb. destruct o as [k v|k|i j]; simpl in Hok |- *.
  - rewrite andb_true_r in Hok. apply Nat.leb_le in Hok.
    destruct (insert_seq h s t (take k (addrs t)) (drop k (addrs t)) v fuel Hwf
                ltac:(by rewrite take_drop) Hb Hfuel)
      as (h' & t' & Hrun & Hwf' & Ha & _).
    exists h', t'. rewrite <- at_rank_drop in Hrun.
    rewrite (bind_bind_Some _ _ _ _ _ _ (begin_next h s t k fuel Hwf Hfuel Hok)).
    rewrite (bind_Some _ _ _ _ _ Hrun). split_all; [done..|].
    rewrite !card_length, Ha, length_app. simpl.
    rewrite <- (take_drop k (addrs t)) at 3. rewrite length_app. lia.
  - rewrite andb_true_r in Hok. apply Nat.ltb_lt in Hok.
    destruct (erase_seq h s t _ _ _ fuel Hwf (at_rank_split s _ k Hok) Hfuel)
      as (h' & t' & Hrun & Hwf' & Ha & _).
    exists h', t'.
    rewrite (bind_bind_Some _ _ _ _ _ _ (begin_next h s t k fuel Hwf Hfuel ltac:(lia))).
    rewrite (bind_Some _ _ _ _ _ Hrun). split_all; [done..|].
    rewrite !card_length, Ha, length_app.
    rewrite (at_rank_split s (addrs t) k Hok) at 3. rewrite length_app. simpl. lia.
  - rewrite andb_true_r in Hok. apply andb_true_iff in Hok as [Hi Hj].
    apply Nat.ltb_lt in Hi, Hj.
    destruct (exchange_nodes_spec h s t (at_rank s (addrs t) i) (at_rank s (addrs t) j)
                Hwf (at_rank_elem s _ i Hi) (at_rank_elem s _ j Hj))
      as (h' & Hrun & Hwf' & _).
    exists h', (rename (swap (at_rank s (addrs t) i) (at_rank s (addrs t) j)) t).
    rewrite (bind_bind_Some _ _ _ _ _ _ (begin_next h s t i fuel Hwf Hfuel ltac:(lia))).
    rewrite (bind_bind_Some _ _ _ _ _ _ (begin_next h s t j fuel Hwf Hfuel ltac:(lia))).
    split_all; [done..|]. rewrite card_rename. lia.
Qed.

Lemma ops_ok_cons n (o : Client.op (T:=T)) ops :
  Client.ops_ok n (o :: ops) = true ->
  Client.ops_ok n [o] = true /\
  Client.ops_ok (Z.to_nat (Z.of_nat n + Client.insertions [o] - Client.deletions [o])) ops
    = true.
Proof.
  destruct o as [k v|k|i j]; simpl; rewrite ?andb_true_r, ?andb_true_iff.
  - intros [? ?]. split; [done|]. by replace (Z.to_nat _) with (S n) by lia.
  - intros [H ?]. split; [done|]. apply Nat.ltb_lt in H.
    by replace (Z.to_nat _) with (pred n) by lia.
  - intros [[? ?] ?]. split; [done|]. by replace (Z.to_nat _) with n by lia.
Qed.

Lemma counts_cons (o : Client.op (T:=T)) ops :
  Client.insertions (o :: ops) = Client.insertions [o] + Client.insertions ops /\
  Client.deletions (o :: ops) = Client.deletions [o] + Client.deletions ops /\
  0 <= Client.insertions [o] <= 1 /\ 0 <= Client.deletions [o] <= 1.
Proof. destruct o; simpl; lia. Qed.

Lemma run_ops_spec h s t (ops : list (Client.op (T:=T))) fuel :
  wf h s t -> Client.ops_ok (length (addrs t)) ops = true ->
  (length (addrs t) + length ops < fuel)%nat ->
  card t + Z.of_nat (length ops) < 2 ^ 62 ->
  exists h' t',
    Client.run_ops fuel (Some s) ops h = Some (tt, h') /\ wf h' s t' /\
    card t' = card t + Client.insertions ops - Client.deletions ops.
Proof.
  revert h t. induction ops as [|o ops IH]; intros h t Hwf Hok Hfuel Hb.
  - exists h, t. simpl. split_all; [done..|lia].
  - apply ops_ok_cons in Hok as [Hok1 Hok2].
    simpl length in Hfuel, Hb.
    destruct (run_op_spec h s t o fuel Hwf Hok1 ltac:(lia) ltac:(lia))
      as (h1 & t1 & Hrun1 & Hwf1 & Hc1).
    destruct (counts_cons o ops) as (Ei & Ed & Bi & Bd).
    assert (Hlen : length (addrs t1) =
              Z.to_nat (Z.of_nat (length (addrs t)) + Client.insertions [o]
                        - Client.deletions [o])).
    { rewrite !card_length in Hc1. lia. }
    rewrite <- Hlen in Hok2.
    destruct (IH h1 t1 Hwf1 Hok2) as (h' & t' & Hrun & Hwf' & Hc).
    { rewrite !card_length in Hc1. lia. }
    { lia. }
    exists h', t'. cbn [Client.run_ops].
    rewrite (bind_Some _ _ _ _ _ Hrun1). split_all; [done..|]. lia.
Qed.
End Sequences.

(** ** The worked example is well formed and reachable *)

Ltac nodup_concrete :=
  repeat (apply NoDup_cons; split; [set_solver|]); apply NoDup_nil_2.

Ltac wf_concrete :=
  split; [nodup_concrete | reflexivity | simpl; eexists; reflexivity
         | simpl; repeat split; eexists; reflexivity].

Lemma ex_wf : wf ex_heap 1%positive ex_shape.
Proof. wf_concrete. Qed.

Lemma ex_empty_wf : wf ex_empty 1%positive Lf.
Proof. wf_concrete. Qed.

Lemma ex_heap_built :
  (let! s := Tree.tree 0 in
   Client.run_ops 10 s [Client.Insert 0 20; Client.Insert 0 10; Client.Insert 2 30] >>
   ret s) ∅ = Some (Some 1%positive, ex_heap).
Proof. vm_compute. reflexivity. Qed.

Lemma ex_empty_built : Tree.tree 0 ∅ = Some (Some 1%positive, ex_empty).
Proof. vm_compute. reflexivity. Qed.

(** ** Lemmas shared by the statements *)

Section Claims.
Context {T : Type}.
Implicit Types h : gmap positive (node T).

(** The constructor on any heap: a fresh sentinel anchoring the empty tree. *)
Lemma tree_spec h junk :
  let s := fresh (dom h) in
  exists h', Tree.tree junk h = Some (Some s, h') /\ wf h' s Lf /\
             dom h' = {[s]} ∪ dom h.
Proof.
  intros s. unfold Tree.tree, alloc. rewrite bind_Some with (a := Some s)
    (h' := <[s := mk_node None junk None None None]> h) by done.
  eexists. split; [msteps; reflexivity|].
  assert (Hs : s ∉ dom h) by apply is_fresh.
  split.
  - split; [nodup_concrete|reflexivity| |done].
    simpl. eexists. by rewrite lookup_insert_eq.
  - rewrite !dom_insert_L. set_solver.
Qed.

Lemma fmap_rev {A B} (f : A -> B) (l : list A) : f <$> rev l = rev (f <$> l).
Proof.
  induction l as [|a l IH]; [done|]. simpl. by rewrite fmap_app, IH.
Qed.

Lemma deref_val h a v :
  val h a = Some v -> Tree.deref (Some a) h = Some (v, h).
Proof.
  unfold val, Tree.deref. destruct (h !! a) as [n|] eqn:E; [|done].
  intros Hv. by eapply get_value_Some.
Qed.

Lemma bounds_partition h s t f l1 l2 l3 fuel :
  wf h s t -> addrs t = l1 ++ l2 ++ l3 ->
  Forall (fun a => sign_at h f a < 0) l1 ->
  Forall (fun a => sign_at h f a = 0) l2 ->
  Forall (fun a => 0 < sign_at h f a) l3 ->
  (length (addrs t) < fuel)%nat ->
  Tree.lower_bound fuel (Some s) (pure_cmp f) h =
    Some (Some (default s (head (l2 ++ l3))), h) /\
  Tree.upper_bound fuel (Some s) (pure_cmp f) h =
    Some (Some (default s (head l3)), h).
Proof.
  intros Hwf E H1 H2 H3 Hfuel.
  pose proof Hwf as [_ _ [z Hs] _].
  unfold Tree.lower_bound, Tree.upper_bound.
  rewrite !(bind_Some _ _ _ _ _ (get_left_Some _ _ _ Hs)). simpl.
  destruct t as [|l a r]; cbn [root left_ Node.is_null negb].
  - symmetry in E. apply app_eq_nil in E as [-> E]. apply app_eq_nil in E as [-> ->].
    done.
  - rewrite lower_bound_node_body, upper_bound_node_body. split.
    + rewrite (bound_spec h s f (fun c => c <? 0) fuel (Nd l a r) Hwf Hfuel); [|..|done].
      * rewrite E, first_fail_app_true, first_fail_false; [done| |].
        -- apply Forall_app. split; eapply Forall_impl; eauto; simpl; intros; lia.
        -- eapply Forall_impl; eauto; simpl; intros; lia.
      * exists l1, (l2 ++ l3). split_all; [done| |].
        -- eapply Forall_impl; eauto; simpl; intros; lia.
        -- apply Forall_app. split; eapply Forall_impl; eauto; simpl; intros; lia.
    + rewrite (bound_spec h s f (fun c => c <=? 0) fuel (Nd l a r) Hwf Hfuel); [|..|done].
      * rewrite E, app_assoc, first_fail_app_true, first_fail_false; [done| |].
        -- eapply Forall_impl; eauto; simpl; intros; lia.
        -- apply Forall_app. split; eapply Forall_impl; eauto; simpl; intros; lia.
      * exists (l1 ++ l2), l3. split_all; [by rewrite E, app_assoc| |].
        -- apply Forall_app. split; eapply Forall_impl; eauto; simpl; intros; lia.
        -- eapply Forall_impl; eauto; simpl; intros; lia.
Qed.

Lemma head_filter_app_none {A} (P : A -> Prop) `{!forall x, Decision (P x)} (l k : list A) :
  Forall (fun x => ~ P x) l -> head (filter P (l ++ k)) = head (filter P k).
Proof.
  intros HF. induction HF as [|x l Hx HF IH]; [done|].
  simpl. by rewrite filter_cons_False.
Qed.

Lemma head_filter_all {A} (P : A -> Prop) `{!forall x, Decision (P x)} (l : list A) :
  Forall P l -> head (filter P l) = head l.
Proof. intros HF. destruct HF as [|x l Hx HF]; [done|]. by rewrite filter_cons_True. Qed.

Lemma sizes_rename h h' f par par' t :
  rep h par t -> rep h' par' (rename f t) ->
  Forall (fun x => size_ <$> h' !! f x = size_ <$> h !! x) (addrs t).
Proof.
  revert par par'. induction t as [|l IHl a r IHr]; intros par par'; simpl; [done|].
  intros ([v Hv] & Hl & Hr) ([v' Hv'] & Hl' & Hr').
  apply Forall_app. split; [by eapply IHl|].
  apply Forall_cons. split; [|by eapply IHr].
  rewrite Hv, Hv'. simpl. by rewrite !card_rename.
Qed.

Lemma contents_fmap h h' (f : loc -> loc) l :
  (forall x, val h' x = val h x) -> contents h' (f <$> l) = contents h (f <$> l).
Proof. intros H. apply contents_ext. intros a _. apply H. Qed.
End Claims.

(** * The claims of the specification *)

Section Statements.
Context {T : Type}.
Implicit Types h : gmap positive (node T).

(** C2: on a tree whose inorder sequence is partitioned by a three-way
    comparator into a run of negative, a run of zero and a run of
    positive elements, [lower_bound] returns the first element the
    comparator does not send below zero and [upper_bound] the first
    element it sends above zero, each being [end()] (the sentinel) when
    there is no such element.  The empty tree is included. *)
Theorem lower_upper_bound_partitioned h s t (f : T -> Z) l1 l2 l3 fuel :
  wf h s t -> addrs t = l1 ++ l2 ++ l3 ->
  Forall (fun a => sign_at h f a < 0) l1 ->
  Forall (fun a => sign_at h f a = 0) l2 ->
  Forall (fun a => 0 < sign_at h f a) l3 ->
  (length (addrs t) < fuel)%nat ->
  Tree.lower_bound fuel (Some s) (pure_cmp f) h =
    Some (Some (default s (head (filter (fun a => 0 <= sign_at h f a) (addrs t)))), h) /\
  Tree.upper_bound fuel (Some s) (pure_cmp f) h =
    Some (Some (default s (head (filter (fun a => 0 < sign_at h f a) (addrs t)))), h).
Proof.
  intros Hwf E H1 H2 H3 Hfuel.
  destruct (bounds_partition h s t f l1 l2 l3 fuel Hwf E H1 H2 H3 Hfuel) as [Hl Hu].
  rewrite Hl, Hu, E. split; do 4 f_equal.
  - rewrite head_filter_app_none, head_filter_all; [done| |].
    + apply Forall_app. split; eapply Forall_impl; eauto; simpl; intros; lia.
    + eapply Forall_impl; eauto; simpl; intros; lia.
  - rewrite app_assoc, head_filter_app_none, head_filter_all; [done..|].
    apply Forall_app. split; eapply Forall_impl; eauto; simpl; intros; lia.
Qed.

(** C3: [insert(pos, v)] at any valid position (the head of [l2], or
    [end()] when [l2] is empty) returns an iterator to a new node holding
    [v], placed immediately before [pos]; the old nodes keep their values
    and their order, and [size()] grows by one. *)
Theorem insert_before_position h s t l1 l2 (v : T) fuel :
  wf h s t -> addrs t = l1 ++ l2 -> card t + 1 < 2 ^ 62 ->
  (length (addrs t) < fuel)%nat ->
  exists h' t' n,
    Tree.insert fuel (Some s) (Some (default s (head l2))) v h = Some (Some n, h') /\
    wf h' s t' /\
    addrs t' = l1 ++ n :: l2 /\
    contents h' (addrs t') = contents h l1 ++ v :: contents h l2 /\
    Tree.deref (Some n) h' = Some (v, h') /\
    Tree.size (Some s) h = Some (card t, h) /\
    Tree.size (Some s) h' = Some (card t + 1, h') /\
    Forall (fun a => val h' a = val h a) (addrs t).
Proof.
  intros Hwf E Hb Hfuel.
  destruct (insert_seq h s t l1 l2 v fuel Hwf E Hb Hfuel)
    as (h' & t' & Hrun & Hwf' & Ha & Hn & Hv & Hval & _).
  exists h', t', (fresh (dom h)).
  assert (Hold : forall a, a ∈ addrs t -> val h' a = val h a).
  { intros a Hin. apply Hval. intros ->. apply Hn. set_solver. }
  split_all; try done.
  - rewrite Ha, contents_app, (contents_cons _ _ _ _ Hv).
    rewrite !(contents_ext h h'); [done| |]; intros a Hin; apply Hold; rewrite E; set_solver.
  - by apply deref_val.
  - by apply size_spec.
  - rewrite (size_spec h' s t' Hwf'). do 2 f_equal.
    rewrite !card_length, Ha, E, !length_app. simpl. lia.
  - by apply Forall_forall.
Qed.

(** C4: [erase(pos)] on an element removes exactly that node, returns an
    iterator to its successor ([end()] when it was the last), leaves the
    other elements with their values in their order, and [size()]
    shrinks by one. *)
Theorem erase_at_position h s t l1 pos l2 fuel :
  wf h s t -> addrs t = l1 ++ pos :: l2 -> (length (addrs t) < fuel)%nat ->
  exists h' t',
    Tree.erase fuel (Some s) (Some pos) h = Some (Some (default s (head l2)), h') /\
    wf h' s t' /\
    addrs t' = l1 ++ l2 /\
    contents h' (addrs t') = contents h l1 ++ contents h l2 /\
    Forall (fun a => val h' a = val h a) (l1 ++ l2) /\
    Tree.size (Some s) h = Some (card t, h) /\
    Tree.size (Some s) h' = Some (card t - 1, h') /\
    h' !! pos = None.
Proof.
  intros Hwf E Hfuel.
  destruct (erase_seq h s t l1 pos l2 fuel Hwf E Hfuel)
    as (h' & t' & Hrun & Hwf' & Ha & Hval & Hdom).
  exists h', t'.
  pose proof Hwf as [Hnd _ _ _]. rewrite E in Hnd.
  apply NoDup_cons in Hnd as [_ Hnd].
  assert (Hpos : pos ∉ l1 ++ l2).
  { apply NoDup_app in Hnd as (_ & Hd & Hnd). apply NoDup_cons in Hnd as [? _].
    rewrite not_elem_of_app. split; [|done]. intros Hin. apply (Hd _ Hin). set_solver. }
  split_all; try done.
  - rewrite Ha, <- contents_app. apply contents_ext.
    intros a Hin. apply Hval. intros ->. done.
  - apply Forall_forall. intros a Hin. apply Hval. intros ->. done.
  - by apply size_spec.
  - rewrite (size_spec h' s t' Hwf'). do 2 f_equal.
    rewrite !card_length, Ha, E, !length_app. simpl. lia.
  - apply not_elem_of_dom. rewrite Hdom. set_solver.
Qed.

(** C5 (amended): [exchange_elements(i, j)] leaves every value in its
    node, so each iterator still dereferences to the value it had; what is
    exchanged is the place of the two nodes in the sequence, hence the
    sequence of values is the old one with the two values exchanged.  No
    other value moves and [size()] is unchanged. *)
Theorem exchange_elements_swaps_places h s t i j :
  wf h s t -> i ∈ addrs t -> j ∈ addrs t ->
  exists h' vi vj,
    Tree.exchange_elements (Some s) (Some i) (Some j) h = Some (tt, h') /\
    wf h' s (rename (swap i j) t) /\
    Tree.deref (Some i) h = Some (vi, h) /\ Tree.deref (Some i) h' = Some (vi, h') /\
    Tree.deref (Some j) h = Some (vj, h) /\ Tree.deref (Some j) h' = Some (vj, h') /\
    addrs (rename (swap i j) t) = swap i j <$> addrs t /\
    contents h' (addrs (rename (swap i j) t)) = contents h (swap i j <$> addrs t) /\
    Forall (fun a => val h' a = val h a) (addrs t) /\
    Tree.size (Some s) h = Some (card t, h) /\
    Tree.size (Some s) h' = Some (card t, h').
Proof.
  intros Hwf Hi Hj.
  destruct (exchange_nodes_spec h s t i j Hwf Hi Hj) as (h' & Hrun & Hwf' & _ & Hval).
  destruct (rep_val h s t i (wf_rep _ _ _ Hwf) Hi) as [vi Hvi].
  destruct (rep_val h s t j (wf_rep _ _ _ Hwf) Hj) as [vj Hvj].
  exists h', vi, vj. split_all; try done.
  - by apply deref_val.
  - apply deref_val. by rewrite Hval.
  - by apply deref_val.
  - apply deref_val. by rewrite Hval.
  - apply addrs_rename.
  - rewrite addrs_rename. by apply contents_fmap.
  - apply Forall_forall. intros a _. apply Hval.
  - by apply size_spec.
  - rewrite (size_spec h' s _ Hwf'). by rewrite card_rename.
Qed.

(** C6: [exchange_nodes] on two nodes of a well-formed, weight-balanced
    tree rewires the tree into the same shape with the two addresses
    exchanged, without any rotation: size fields and parent pointers are
    again exact ([wf]), the size found at each place is the one found
    there before, the weight balance holds at every node, and the inorder
    sequence is the old one with the two nodes exchanged.  The two nodes
    need not even be distinct. *)
Theorem exchange_nodes_keeps_invariants h s t p q :
  wf h s t -> balanced t -> p ∈ addrs t -> q ∈ addrs t ->
  exists h',
    Node.exchange_nodes (Some p) (Some q) h = Some (tt, h') /\
    wf h' s (rename (swap p q) t) /\
    balanced (rename (swap p q) t) /\
    card (rename (swap p q) t) = card t /\
    Forall (fun x => size_ <$> h' !! swap p q x = size_ <$> h !! x) (addrs t) /\
    addrs (rename (swap p q) t) = swap p q <$> addrs t.
Proof.
  intros Hwf Hbal Hp Hq.
  destruct (exchange_nodes_spec h s t p q Hwf Hp Hq) as (h' & Hrun & Hwf' & _).
  exists h'. split_all; try done.
  - by apply balanced_rename.
  - apply card_rename.
  - eapply sizes_rename; [apply Hwf|apply Hwf'].
  - apply addrs_rename.
Qed.

(** C7: whatever mutations are run on a fresh container, at ranks that
    exist, the run completes, [size()] is the number of insertions minus
    the number of deletions, and the walk from [begin()] to [end()]
    visits exactly that many elements. *)
Theorem size_counts_mutations h0 junk (ops : list (Client.op (T:=T))) fuel :
  Client.ops_ok 0 ops = true -> (length ops < fuel)%nat ->
  Z.of_nat (length ops) < 2 ^ 62 ->
  exists s h l,
    (let! s := Tree.tree junk in Client.run_ops fuel s ops >> ret s) h0 =
      Some (Some s, h) /\
    Tree.size (Some s) h =
      Some (Client.insertions ops - Client.deletions ops, h) /\
    Client.forward fuel (Some s) h = Some (l, h) /\
    Z.of_nat (length l) = Client.insertions ops - Client.deletions ops.
Proof.
  intros Hok Hfuel Hb.
  destruct (tree_spec h0 junk) as (h1 & Hnew & Hwf1 & _).
  destruct (run_ops_spec h1 _ Lf ops fuel Hwf1 Hok ltac:(simpl; lia) ltac:(simpl; lia))
    as (h & t & Hrun & Hwf & Hc).
  simpl in Hc.
  assert (Hlen : (length (addrs t) < fuel)%nat).
  { rewrite card_length in Hc.
    assert (Client.insertions ops <= Z.of_nat (length ops)).
    { clear. induction ops as [|[]]; simpl; lia. }
    assert (0 <= Client.deletions ops).
    { clear. induction ops as [|[]]; simpl; lia. }
    lia. }
  exists (fresh (dom h0)), h, (Some <$> addrs t).
  rewrite (bind_Some _ _ _ _ _ Hnew), (bind_Some _ _ _ _ _ Hrun).
  split_all; [done| | |].
  - rewrite (size_spec h _ t Hwf). do 2 f_equal. lia.
  - by apply forward_spec.
  - rewrite length_fmap, <- card_length. lia.
Qed.

(** C8: incrementing [end()] gives [end()] again, and the walk that
    decrements from [end()] until [begin()] is reached visits the
    iterators of the forward walk in reverse order. *)
Theorem end_fixed_backward_reverses h s t fuel :
  wf h s t -> (length (addrs t) < fuel)%nat ->
  exists l,
    Tree.incr fuel (Some s) h = Some (Some s, h) /\
    Client.forward fuel (Some s) h = Some (l, h) /\
    Client.backward fuel (Some s) h = Some (rev l, h) /\
    l = Some <$> addrs t.
Proof.
  intros Hwf Hfuel. exists (Some <$> addrs t). split_all; [| | |done].
  - eapply inorder_successor_sentinel; [done|lia].
  - by apply forward_spec.
  - rewrite <- fmap_rev. by apply backward_spec.
Qed.

(** C10: decrementing [begin()] gives [end()], for the empty tree (where
    [begin()] is the sentinel) as for any other. *)
Theorem decrement_begin_is_end h s t fuel :
  wf h s t -> (length (addrs t) < fuel)%nat ->
  (let! b := Tree.begin fuel (Some s) in Tree.decr fuel b) h = Some (Some s, h) /\
  Tree.end_ (Some s) h = Some (Some s, h).
Proof.
  intros Hwf Hfuel. split; [|done].
  rewrite (bind_Some _ _ _ _ _ (begin_spec h s t fuel Hwf Hfuel)).
  unfold Tree.decr. destruct (addrs t) as [|a l] eqn:E; simpl.
  - rewrite (inorder_predecessor_sentinel h s t fuel Hwf); [|by rewrite E].
    by rewrite E.
  - by rewrite (inorder_predecessor_seq h s t [] a l fuel Hwf E ltac:(by rewrite E)).
Qed.

(** C9: on a partitioned tree [equal_range(cmp)] is the pair of
    [lower_bound(cmp)] and [upper_bound(cmp)], and
    [range_between(lcmp, rcmp)] is the pair of [lower_bound(lcmp)] and
    [upper_bound(rcmp)], whether or not [lcmp(x) <= rcmp(x)]; on an empty
    tree the four searches return [end()] whatever the comparators are,
    even ones that would fail. *)
Theorem ranges_are_bound_pairs h s t (f g : T -> Z) l1 l2 l3 k1 k2 k3 fuel
    h0 s0 (cmp lcmp rcmp : T -> M (T:=T) Z) :
  wf h s t -> (length (addrs t) < fuel)%nat ->
  addrs t = l1 ++ l2 ++ l3 ->
  Forall (fun a => sign_at h f a < 0) l1 ->
  Forall (fun a => sign_at h f a = 0) l2 ->
  Forall (fun a => 0 < sign_at h f a) l3 ->
  addrs t = k1 ++ k2 ++ k3 ->
  Forall (fun a => sign_at h g a < 0) k1 ->
  Forall (fun a => sign_at h g a = 0) k2 ->
  Forall (fun a => 0 < sign_at h g a) k3 ->
  wf h0 s0 Lf ->
  (exists i j j',
     Tree.lower_bound fuel (Some s) (pure_cmp f) h = Some (i, h) /\
     Tree.upper_bound fuel (Some s) (pure_cmp f) h = Some (j, h) /\
     Tree.upper_bound fuel (Some s) (pure_cmp g) h = Some (j', h) /\
     Tree.equal_range fuel (Some s) (pure_cmp f) h = Some ((i, j), h) /\
     Tree.range_between fuel (Some s) (pure_cmp f) (pure_cmp g) h = Some ((i, j'), h)) /\
  Tree.lower_bound fuel (Some s0) cmp h0 = Some (Some s0, h0) /\
  Tree.upper_bound fuel (Some s0) cmp h0 = Some (Some s0, h0) /\
  Tree.equal_range fuel (Some s0) cmp h0 = Some ((Some s0, Some s0), h0) /\
  Tree.range_between fuel (Some s0) lcmp rcmp h0 = Some ((Some s0, Some s0), h0).
Proof.
  intros Hwf Hfuel E F1 F2 F3 E' G1 G2 G3 Hwf0.
  destruct (bounds_partition h s t f l1 l2 l3 fuel Hwf E F1 F2 F3 Hfuel) as [Hl Hu].
  destruct (bounds_partition h s t g k1 k2 k3 fuel Hwf E' G1 G2 G3 Hfuel) as [_ Hu'].
  split.
  - eexists _, _, _. split_all; [exact Hl|exact Hu|exact Hu'| |].
    + revert Hl Hu. unfold Tree.lower_bound, Tree.upper_bound, Tree.equal_range.
      pose proof Hwf as [_ _ [z Hs] _].
      rewrite !(bind_Some _ _ _ _ _ (get_left_Some _ _ _ Hs)). cbn [left_].
      destruct (root t) as [p|]; cbn [Node.is_null negb]; [|by intros [= <-] [= <-]].
      intros Hl Hu. unfold Node.equal_range_nodes.
      rewrite bind_bind, (bind_Some _ _ _ _ _ Hl).
      rewrite bind_bind, (bind_Some _ _ _ _ _ Hu). done.
    + revert Hl Hu'. unfold Tree.lower_bound, Tree.upper_bound, Tree.range_between.
      pose proof Hwf as [_ _ [z Hs] _].
      rewrite !(bind_Some _ _ _ _ _ (get_left_Some _ _ _ Hs)). cbn [left_].
      destruct (root t) as [p|]; cbn [Node.is_null negb]; [|by intros [= <-] [= <-]].
      intros Hl Hu'. unfold Node.range_between_nodes.
      rewrite bind_bind, (bind_Some _ _ _ _ _ Hl).
      rewrite bind_bind, (bind_Some _ _ _ _ _ Hu'). done.
  - destruct Hwf0 as [_ _ [z Hs] _]. simpl in Hs.
    unfold Tree.lower_bound, Tree.upper_bound, Tree.equal_range, Tree.range_between.
    by rewrite !(bind_Some _ _ _ _ _ (get_left_Some _ _ _ Hs)).
Qed.
End Statements.

(** ** A reachable tree that an erase unbalances *)

(** C1: the weight balance does not survive every erase.  The tree built
    by [bug_inserts] is well formed and balanced; erasing its root 3 (rank
    5) makes the successor 2 the right child of the new root, where
    [balance_right] finds [size(left->right) + 1 = 2 * (size(left->left) + 1)],
    takes it for the single-rotation case ([is_single] compares with [<=])
    and leaves node 2 with a left subtree of three nodes and no right
    subtree: [3 * (0 + 1) >= 3 + 1] fails. *)
Theorem erase_breaks_weight_balance :
  (let! s := Tree.tree 0 in Client.run_ops 20 s bug_inserts >> ret s) ∅ =
    Some (Some 1%positive, bug_before) /\
  wf bug_before 1%positive bug_shape_before /\
  balanced bug_shape_before /\
  Tree.erase 20 (Some 1%positive) (Some 3%positive) bug_before =
    Some (Some 2%positive, bug_after) /\
  wf bug_after 1%positive bug_shape_after /\
  ~ balanced bug_shape_after.
Proof.
  split_all.
  - vm_compute. reflexivity.
  - wf_concrete.
  - unfold bug_shape_before. cbn [balanced card]. repeat split; lia.
  - vm_compute. reflexivity.
  - wf_concrete.
  - unfold bug_shape_after. cbn [balanced card]. intros (_ & _ & _ & (_ & H & _)). lia.
Qed.

(** C5 (as stated): after [exchange_elements(i, j)] the iterator [i]
    does not yield the value that was at [j]: in the example tree [i] is the
    node 3 holding 10, [j] the node 4 holding 30, and [*i] is still 10. *)
Theorem exchange_keeps_iterator_values :
  exists h',
    Tree.exchange_elements (Some 1%positive) (Some 3%positive) (Some 4%positive) ex_heap =
      Some (tt, h') /\
    Tree.deref (Some 3%positive) ex_heap = Some (10, ex_heap) /\
    Tree.deref (Some 4%positive) ex_heap = Some (30, ex_heap) /\
    Tree.deref (Some 3%positive) h' = Some (10, h') /\
    Tree.deref (Some 3%positive) h' <> Some (30, h').
Proof.
  destruct (exchange_nodes_spec ex_heap 1%positive ex_shape 3%positive 4%positive ex_wf)
    as (h' & Hrun & _ & _ & Hval); [set_solver..|].
  exists h'. split_all; [done|done|done| |].
  - apply deref_val. by rewrite Hval.
  - rewrite (deref_val h' 3%positive 10); [congruence|]. by rewrite Hval.
Qed.

(** ** The theorems at work on the example tree *)

Lemma lower_upper_bound_partitioned_witness :
  Tree.lower_bound 10 (Some 1%positive) (pure_cmp (fun v => v - 20)) ex_heap =
    Some (Some 2%positive, ex_heap) /\
  Tree.upper_bound 10 (Some 1%positive) (pure_cmp (fun v => v - 20)) ex_heap =
    Some (Some 4%positive, ex_heap).
Proof.
  apply (lower_upper_bound_partitioned ex_heap 1%positive ex_shape (fun v => v - 20)
           [3%positive] [2%positive] [4%positive] 10).
  - exact ex_wf.
  - reflexivity.
  - repeat constructor.
  - repeat constructor.
  - repeat constructor.
  - simpl. lia.
Defined.

Lemma insert_before_position_witness :
  exists h' t' n,
    Tree.insert 10 (Some 1%positive) (Some 2%positive) 15 ex_heap = Some (Some n, h') /\
    wf h' 1%positive t' /\
    addrs t' = [3%positive] ++ n :: [2%positive; 4%positive] /\
    contents h' (addrs t') = contents ex_heap [3%positive] ++
                             15 :: contents ex_heap [2%positive; 4%positive] /\
    Tree.deref (Some n) h' = Some (15, h') /\
    Tree.size (Some 1%positive) ex_heap = Some (card ex_shape, ex_heap) /\
    Tree.size (Some 1%positive) h' = Some (card ex_shape + 1, h') /\
    Forall (fun a => val h' a = val ex_heap a) (addrs ex_shape).
Proof.
  apply (insert_before_position ex_heap 1%positive ex_shape [3%positive]
           [2%positive; 4%positive] 15 10).
  - exact ex_wf.
  - reflexivity.
  - reflexivity.
  - simpl. lia.
Defined.

Lemma erase_at_position_witness :
  exists h' t',
    Tree.erase 10 (Some 1%positive) (Some 2%positive) ex_heap = Some (Some 4%positive, h') /\
    wf h' 1%positive t' /\
    addrs t' = [3%positive] ++ [4%positive] /\
    contents h' (addrs t') = contents ex_heap [3%positive] ++ contents ex_heap [4%positive] /\
    Forall (fun a => val h' a = val ex_heap a) ([3%positive] ++ [4%positive]) /\
    Tree.size (Some 1%positive) ex_heap = Some (card ex_shape, ex_heap) /\
    Tree.size (Some 1%positive) h' = Some (card ex_shape - 1, h') /\
    h' !! 2%positive = None.
Proof.
  apply (erase_at_position ex_heap 1%positive ex_shape [3%positive] 2%positive
           [4%positive] 10).
  - exact ex_wf.
  - reflexivity.
  - simpl. lia.
Defined.

Lemma exchange_elements_swaps_places_witness :
  exists h' vi vj,
    Tree.exchange_elements (Some 1%positive) (Some 3%positive) (Some 4%positive) ex_heap =
      Some (tt, h') /\
    wf h' 1%positive (rename (swap 3%positive 4%positive) ex_shape) /\
    Tree.deref (Some 3%positive) ex_heap = Some (vi, ex_heap) /\
    Tree.deref (Some 3%positive) h' = Some (vi, h') /\
    Tree.deref (Some 4%positive) ex_heap = Some (vj, ex_heap) /\
    Tree.deref (Some 4%positive) h' = Some (vj, h') /\
    addrs (rename (swap 3%positive 4%positive) ex_shape) =
      swap 3%positive 4%positive <$> addrs ex_shape /\
    contents h' (addrs (rename (swap 3%positive 4%positive) ex_shape)) =
      contents ex_heap (swap 3%positive 4%positive <$> addrs ex_shape) /\
    Forall (fun a => val h' a = val ex_heap a) (addrs ex_shape) /\
    Tree.size (Some 1%positive) ex_heap = Some (card ex_shape, ex_heap) /\
    Tree.size (Some 1%positive) h' = Some (card ex_shape, h').
Proof.
  apply (exchange_elements_swaps_places ex_heap 1%positive ex_shape 3%positive 4%positive).
  - exact ex_wf.
  - simpl. set_solver.
  - simpl. set_solver.
Defined.

Lemma exchange_nodes_keeps_invariants_witness :
  exists h',
    Node.exchange_nodes (Some 2%positive) (Some 4%positive) ex_heap = Some (tt, h') /\
    wf h' 1%positive (rename (swap 2%positive 4%positive) ex_shape) /\
    balanced (rename (swap 2%positive 4%positive) ex_shape) /\
    card (rename (swap 2%positive 4%positive) ex_shape) = card ex_shape /\
    Forall (fun x => size_ <$> h' !! swap 2%positive 4%positive x = size_ <$> ex_heap !! x)
      (addrs ex_shape) /\
    addrs (rename (swap 2%positive 4%positive) ex_shape) =
      swap 2%positive 4%positive <$> addrs ex_shape.
Proof.
  apply (exchange_nodes_keeps_invariants ex_heap 1%positive ex_shape 2%positive 4%positive).
  - exact ex_wf.
  - unfold ex_shape. cbn [balanced card]. repeat split; lia.
  - simpl. set_solver.
  - simpl. set_solver.
Defined.

Lemma size_counts_mutations_witness :
  exists s h l,
    (let! s := Tree.tree 0 in
     Client.run_ops 10 s
       [Client.Insert 0 20; Client.Insert 0 10; Client.Exchange 0 1; Client.Erase 1;
        Client.Insert 1 30] >>
     ret s) ∅ = Some (Some s, h) /\
    Tree.size (Some s) h = Some (2, h) /\
    Client.forward 10 (Some s) h = Some (l, h) /\
    Z.of_nat (length l) = 2.
Proof.
  apply (size_counts_mutations ∅ 0
           [Client.Insert 0 20; Client.Insert 0 10; Client.Exchange 0 1; Client.Erase 1;
            Client.Insert 1 30] 10).
  - reflexivity.
  - simpl. lia.
  - reflexivity.
Defined.

Lemma end_fixed_backward_reverses_witness :
  exists l,
    Tree.incr 10 (Some 1%positive) ex_heap = Some (Some 1%positive, ex_heap) /\
    Client.forward 10 (Some 1%positive) ex_heap = Some (l, ex_heap) /\
    Client.backward 10 (Some 1%positive) ex_heap = Some (rev l, ex_heap) /\
    l = Some <$> addrs ex_shape.
Proof.
  apply (end_fixed_backward_reverses ex_heap 1%positive ex_shape 10).
  - exact ex_wf.
  - simpl. lia.
Defined.

Lemma decrement_begin_is_end_witness :
  (let! b := Tree.begin 10 (Some 1%positive) in Tree.decr 10 b) ex_heap =
    Some (Some 1%positive, ex_heap) /\
  Tree.end_ (Some 1%positive) ex_heap = Some (Some 1%positive, ex_heap).
Proof.
  apply (decrement_begin_is_end ex_heap 1%positive ex_shape 10).
  - exact ex_wf.
  - simpl. lia.
Defined.

Lemma ranges_are_bound_pairs_witness :
  (exists i j j',
     Tree.lower_bound 10 (Some 1%positive) (pure_cmp (fun v => v - 20)) ex_heap =
       Some (i, ex_heap) /\
     Tree.upper_bound 10 (Some 1%positive) (pure_cmp (fun v => v - 20)) ex_heap =
       Some (j, ex_heap) /\
     Tree.upper_bound 10 (Some 1%positive) (pure_cmp (fun v => v - 30)) ex_heap =
       Some (j', ex_heap) /\
     Tree.equal_range 10 (Some 1%positive) (pure_cmp (fun v => v - 20)) ex_heap =
       Some ((i, j), ex_heap) /\
     Tree.range_between 10 (Some 1%positive) (pure_cmp (fun v => v - 20))
       (pure_cmp (fun v => v - 30)) ex_heap = Some ((i, j'), ex_heap)) /\
  Tree.lower_bound 10 (Some 1%positive) (fun _ => fail) ex_empty =
    Some (Some 1%positive, ex_empty) /\
  Tree.upper_bound 10 (Some 1%positive) (fun _ => fail) ex_empty =
    Some (Some 1%positive, ex_empty) /\
  Tree.equal_range 10 (Some 1%positive) (fun _ => fail) ex_empty =
    Some ((Some 1%positive, Some 1%positive), ex_empty) /\
  Tree.range_between 10 (Some 1%positive) (fun _ => fail) (fun _ => fail) ex_empty =
    Some ((Some 1%positive, Some 1%positive), ex_empty).
Proof.
  apply (ranges_are_bound_pairs ex_heap 1%positive ex_shape
           (fun v => v - 20) (fun v => v - 30)
           [3%positive] [2%positive] [4%positive]
           [3%positive; 2%positive] [4%positive] [] 10
           ex_empty 1%positive (fun _ => fail) (fun _ => fail) (fun _ => fail)).
  - exact ex_wf.
  - simpl. lia.
  - reflexivity.
  - repeat constructor.
  - repeat constructor.
  - repeat constructor.
  - reflexivity.
  - repeat constructor.
  - repeat constructor.
  - constructor.
  - exact ex_empty_wf.
Defined.
